(** * avax-withdrawal-bot: resilient provider, ledger queries, store and poller

    A shallow embedding of [src/services/provider.js],
    [src/services/contract.js], [src/services/json-store.js] and the
    poller service, together with the properties the specification
    states about them.

    Conventions.
    - JavaScript numbers that count things (retries, endpoints, cursor)
      are [nat]; durations and timestamps in milliseconds are [Z].
    - Strings are [string]; [toLowerCase] is the ASCII one (none of the
      patterns matched after lower-casing can be produced from a
      non-ASCII letter).
    - A promise that settles is an [Outcome]; [try]/[catch] is
      [try_catch].
    - [Date.now()] is read from a clock supplied by the environment.
    - [console.log]/[console.error] calls are not modelled. *)

From Stdlib Require Import ZArith Lia Ascii String.
From stdpp Require Import base list strings pretty gmap.

Open Scope Z_scope.

(** ** Thrown values and settled promises *)

(** A thrown value: an object whose [message] property is a string or is
    missing. *)
Record JsError : Type := mkError { message : option string }.

Inductive Outcome (T : Type) : Type :=
| Resolved (v : T)
| Rejected (e : JsError).
Arguments Resolved {T} v.
Arguments Rejected {T} e.

Definition bind {A B : Type} (m : Outcome A) (k : A → Outcome B) : Outcome B :=
  match m with
  | Resolved v => k v
  | Rejected e => Rejected e
  end.

Definition try_catch {A : Type} (body : Outcome A) (handler : JsError → Outcome A)
  : Outcome A :=
  match body with
  | Resolved v => Resolved v
  | Rejected e => handler e
  end.

(** What the promise returned by [fn(provider)] does within the time
    limit of [withTimeout]. *)
Inductive Settled (T : Type) : Type :=
| Fulfils (v : T)
| Rejects (e : JsError)
| Hangs.
Arguments Fulfils {T} v.
Arguments Rejects {T} e.
Arguments Hangs {T}.

(** ** String helpers of the JavaScript runtime *)

Definition lower_ascii (c : ascii) : ascii :=
  let n := nat_of_ascii c in
  if ((65 <=? n)%nat && (n <=? 90)%nat)%bool then ascii_of_nat (n + 32) else c.

Fixpoint toLowerCase (s : string) : string :=
  match s with
  | EmptyString => EmptyString
  | String c s' => String (lower_ascii c) (toLowerCase s')
  end.

(** [includes pat s] is [s.includes(pat)]. *)
Fixpoint includes (pat s : string) : bool :=
  if String.prefix pat s then true
  else match s with
       | EmptyString => false
       | String _ s' => includes pat s'
       end.

(** [startsWith pre s] is [s.startsWith(pre)]. *)
Definition startsWith (pre s : string) : bool := String.prefix pre s.

(** [a || b] on strings: the empty string is falsy. *)
Definition or_string (a : option string) (b : string) : string :=
  match a with
  | Some EmptyString | None => b
  | Some s => s
  end.

(** Every character of the string passes the test. *)
Fixpoint forallChars (P : ascii → bool) (s : string) : bool :=
  match s with
  | EmptyString => true
  | String c s' => P c && forallChars P s'
  end.

(** [pat] and [s] differ at a position that both have. *)
Fixpoint clash (pat s : string) : bool :=
  match pat, s with
  | String a pat', String b s' =>
      if ascii_dec a b then clash pat' s' else true
  | _, _ => false
  end.

(** [pat] cannot begin anywhere in [s], whatever follows [s]. *)
Fixpoint clashEverywhere (pat s : string) : bool :=
  match s with
  | EmptyString => true
  | String _ s' => clash pat s && clashEverywhere pat s'
  end.

(** [arr.join(sep)]. *)
Fixpoint join (sep : string) (l : list string) : string :=
  match l with
  | [] => ""
  | [x] => x
  | x :: l' => x +:+ sep +:+ join sep l'
  end.

(** ** provider.js *)

Module Provider.

Record ResilientProvider : Type := mkProvider {
  rpcUrls : list string;
  maxRetries : nat;
  timeout : Z;
  retryDelay : Z;
  maxRetryDelay : Z;
  currentProviderIndex : nat
}.

(** [this.providers] is [rpcUrls.map(createProvider)]: one provider per
    URL, in order. *)
Definition providers_length (this : ResilientProvider) : nat :=
  length (rpcUrls this).

Definition set_index (this : ResilientProvider) (i : nat) : ResilientProvider :=
  {| rpcUrls := rpcUrls this;
     maxRetries := maxRetries this;
     timeout := timeout this;
     retryDelay := retryDelay this;
     maxRetryDelay := maxRetryDelay this;
     currentProviderIndex := i |}.

(** [options.x || d]: a missing or zero option takes the default. *)
Definition or_nat (o : option nat) (d : nat) : nat :=
  match o with
  | Some (S n) => S n
  | _ => d
  end.

Definition or_Z (o : option Z) (d : Z) : Z :=
  match o with
  | Some 0 | None => d
  | Some z => z
  end.

Record Options : Type := mkOptions {
  opt_maxRetries : option nat;
  opt_timeout : option Z;
  opt_retryDelay : option Z;
  opt_maxRetryDelay : option Z
}.

Definition defaultRpcUrls : list string :=
  [ "https://api.avax.network/ext/bc/C/rpc";
    "https://avalanche-c-chain.publicnode.com";
    "https://rpc.ankr.com/avalanche";
    "https://1rpc.io/avax/c" ]%string.

(** The constructor. [rpcUrls || defaults]: an array, even an empty
    one, is truthy, so only [null] takes the default list. *)
Definition new (urls : option (list string)) (options : Options) : ResilientProvider :=
  {| rpcUrls := match urls with Some l => l | None => defaultRpcUrls end;
     maxRetries := or_nat (opt_maxRetries options) 3;
     timeout := or_Z (opt_timeout options) 30000;
     retryDelay := or_Z (opt_retryDelay options) 1000;
     maxRetryDelay := or_Z (opt_maxRetryDelay options) 10000;
     currentProviderIndex := 0 |}.

(** [(currentProviderIndex + 1) % providers.length]. With an empty
    provider list JavaScript yields NaN; here [Nat.modulo _ 0] is
    used only under a non-empty list. *)
Definition switchToNextProvider (this : ResilientProvider) : ResilientProvider :=
  set_index this ((currentProviderIndex this + 1) `mod` providers_length this)%nat.

Definition nonRetryablePatterns : list string :=
  [ "invalid address"; "invalid argument"; "missing argument";
    "invalid parameters"; "execution reverted"; "call exception" ]%string.

(** [error.message?.toLowerCase() || ''], then [some(includes)]. *)
Definition isNonRetryableError (error : JsError) : bool :=
  let message := or_string (toLowerCase <$> message error) "" in
  existsb (λ pattern, includes pattern message) nonRetryablePatterns.

(** [withTimeout(promise, timeoutMs, errorMessage)]: the race between
    the promise and the timer. *)
Definition withTimeout {T} (promise : Settled T) (errorMessage : string) : Outcome T :=
  match promise with
  | Fulfils v => Resolved v
  | Rejects e => Rejected e
  | Hangs => Rejected (mkError (Some errorMessage))
  end.

(** What an [executeWithRetry] call does to the outside world, in
    order. *)
Inductive Event : Type :=
| Call (provider : nat) (failure : option JsError)
| Sleep (ms : Z)
| Switch (provider : nat)
| ResetPrimary.

(** The function-scoped variables of [executeWithRetry], and the
    number of invocations of [fn] so far. *)
Record Locals : Type := mkLocals {
  lastError : option JsError;
  delay : Z;
  invocations : nat
}.

Section ExecuteWithRetry.
Context {T : Type}.
(** [fn i p]: the [i]-th invocation of the operation, on provider
    number [p]. *)
Variable fn : nat → nat → Settled T.
Variable operationName : string.

Definition timeoutMessage (this : ResilientProvider) : string :=
  operationName +:+ " timeout after " +:+ pretty (timeout this) +:+ "ms".

Definition attemptOutcome (this : ResilientProvider) (i provider : nat) : Outcome T :=
  withTimeout (fn i provider) (timeoutMessage this).

(** The inner loop [for (attempt = 0; attempt < this.maxRetries;
    attempt++)], entered with [remaining = maxRetries - attempt].
    [Some v] is the [return result]; [None] is leaving the loop, by
    exhaustion or by [break]. *)
Fixpoint attemptLoop (provider : nat) (remaining attempt : nat)
         (this : ResilientProvider) (st : Locals)
  : list Event * ResilientProvider * Locals * option T :=
  match remaining with
  | O => ([], this, st, None)
  | S remaining' =>
      match attemptOutcome this (invocations st) provider with
      | Resolved result =>
          let st1 := mkLocals (lastError st) (delay st) (S (invocations st)) in
          if (currentProviderIndex this =? 0)%nat
          then ([Call provider None], this, st1, Some result)
          else ([Call provider None; ResetPrimary], set_index this 0, st1, Some result)
      | Rejected error =>
          let st1 := mkLocals (Some error) (delay st) (S (invocations st)) in
          if isNonRetryableError error
          then ([Call provider (Some error)], this, st1, None)
          else if (attempt <? maxRetries this - 1)%nat
          then
            let st2 := mkLocals (Some error)
                                (Z.min (delay st * 2) (maxRetryDelay this))
                                (S (invocations st)) in
            let '(ev, this', st', r) :=
              attemptLoop provider remaining' (S attempt) this st2 in
            (Call provider (Some error) :: Sleep (delay st) :: ev, this', st', r)
          else
            let '(ev, this', st', r) :=
              attemptLoop provider remaining' (S attempt) this st1 in
            (Call provider (Some error) :: ev, this', st', r)
      end
  end.

Definition exhaustedMessage (this : ResilientProvider) (st : Locals) : string :=
  operationName +:+ " failed after trying all "
    +:+ pretty (providers_length this) +:+ " providers: "
    +:+ or_string (lastError st ≫= message) "Unknown error".

(** The outer loop [for (providerAttempt = 0; providerAttempt <
    this.providers.length; providerAttempt++)], entered with
    [remaining = providers.length - providerAttempt], followed by the
    final [throw]. *)
Fixpoint providerLoop (remaining providerAttempt : nat)
         (this : ResilientProvider) (st : Locals)
  : list Event * ResilientProvider * Outcome T :=
  match remaining with
  | O => ([], this, Rejected (mkError (Some (exhaustedMessage this st))))
  | S remaining' =>
      let provider := currentProviderIndex this in
      let '(ev, this1, st1, r) :=
        attemptLoop provider (maxRetries this) 0 this st in
      match r with
      | Some result => (ev, this1, Resolved result)
      | None =>
          if (providerAttempt <? providers_length this1 - 1)%nat
          then
            let this2 := switchToNextProvider this1 in
            let st2 := mkLocals (lastError st1) (retryDelay this2) (invocations st1) in
            let '(ev', this', out) :=
              providerLoop remaining' (S providerAttempt) this2 st2 in
            (ev ++ Switch (currentProviderIndex this2) :: ev', this', out)
          else
            let '(ev', this', out) :=
              providerLoop remaining' (S providerAttempt) this1 st1 in
            (ev ++ ev', this', out)
      end
  end.

Definition executeWithRetry (this : ResilientProvider)
  : list Event * ResilientProvider * Outcome T :=
  providerLoop (providers_length this) 0 this
               (mkLocals None (retryDelay this) 0).

End ExecuteWithRetry.

(** [callContractMethod(contract, methodName, args)]. *)
Definition callContractMethod {T} (this : ResilientProvider)
           (fn : nat → nat → Settled T) (methodName : string) (args : list string)
  : list Event * ResilientProvider * Outcome T :=
  executeWithRetry fn (methodName +:+ "(" +:+ join ", " args +:+ ")") this.

(** *** Reading a trace *)

Definition is_call (e : Event) : bool :=
  match e with Call _ _ => true | _ => false end.

Fixpoint count_calls (ev : list Event) : nat :=
  match ev with
  | [] => 0
  | e :: ev' => ((if is_call e then 1 else 0) + count_calls ev')%nat
  end.

Definition is_switch (e : Event) : bool :=
  match e with Switch _ => true | _ => false end.

Fixpoint count_switches (ev : list Event) : nat :=
  match ev with
  | [] => 0
  | e :: ev' => ((if is_switch e then 1 else 0) + count_switches ev')%nat
  end.

Definition is_reset (e : Event) : bool :=
  match e with ResetPrimary => true | _ => false end.

Fixpoint count_resets (ev : list Event) : nat :=
  match ev with
  | [] => 0
  | e :: ev' => ((if is_reset e then 1 else 0) + count_resets ev')%nat
  end.

(** The trace cut at every rotation: one segment per endpoint tried. *)
Fixpoint segments (ev : list Event) : list (list Event) :=
  match ev with
  | [] => [[]]
  | e :: ev' =>
      if is_switch e then [] :: segments ev'
      else match segments ev' with
           | seg :: segs => (e :: seg) :: segs
           | [] => [[e]]
           end
  end.

Definition sleeps (seg : list Event) : list Z :=
  omap (λ e, match e with Sleep ms => Some ms | _ => None end) seg.

(** The backoff sleeps of one call, endpoint by endpoint. *)
Definition sleepsByEndpoint (ev : list Event) : list (list Z) :=
  map sleeps (segments ev).

(** [min(baseDelay * 2^k, maxDelay)]. *)
Definition backoff (baseDelay maxDelay : Z) (k : nat) : Z :=
  Z.min (baseDelay * 2 ^ Z.of_nat k) maxDelay.

(** The first [n] delays [baseDelay, min(baseDelay*2, maxDelay), ...]. *)
Definition backoffSequence (baseDelay maxDelay : Z) (n : nat) : list Z :=
  map (backoff baseDelay maxDelay) (seq 0 n).

(** The cursor points into the provider list. *)
Definition validIndex (this : ResilientProvider) : Prop :=
  (currentProviderIndex this < providers_length this)%nat.

(** Every endpoint an event names is in the provider list. *)
Definition eventInRange (n : nat) (e : Event) : Prop :=
  match e with
  | Call p _ | Switch p => (p < n)%nat
  | _ => True
  end.



(** *** The rest of the class, and more trace readers *)

(** [getProvider]: [this.providers[this.currentProviderIndex]], named
    here by its URL; [None] is JavaScript's [undefined]. *)
Definition getProvider (this : ResilientProvider) : option string :=
  rpcUrls this !! currentProviderIndex this.

(** [getNetwork], [getBlockNumber] and [call]: [executeWithRetry] under
    a fixed name. *)
Definition getNetwork {T} (this : ResilientProvider) (fn : nat → nat → Settled T)
  : list Event * ResilientProvider * Outcome T :=
  executeWithRetry fn "getNetwork" this.

Definition getBlockNumber {T} (this : ResilientProvider) (fn : nat → nat → Settled T)
  : list Event * ResilientProvider * Outcome T :=
  executeWithRetry fn "getBlockNumber" this.

Definition call {T} (this : ResilientProvider) (fn : nat → nat → Settled T)
  : list Event * ResilientProvider * Outcome T :=
  executeWithRetry fn "call" this.

Definition is_sleep (e : Event) : bool :=
  match e with Sleep _ => true | _ => false end.

Fixpoint count_sleeps (ev : list Event) : nat :=
  match ev with
  | [] => 0
  | e :: ev' => ((if is_sleep e then 1 else 0) + count_sleeps ev')%nat
  end.

Definition is_success (e : Event) : bool :=
  match e with Call _ None => true | _ => false end.

Fixpoint count_successes (ev : list Event) : nat :=
  match ev with
  | [] => 0
  | e :: ev' => ((if is_success e then 1 else 0) + count_successes ev')%nat
  end.

(** The failure of the last failed call of the trace. *)
Fixpoint lastFailure (ev : list Event) : option JsError :=
  match ev with
  | [] => None
  | e :: ev' =>
      match lastFailure ev' with
      | Some later => Some later
      | None => match e with Call _ (Some failure) => Some failure | _ => None end
      end
  end.

(** The total time slept. *)
Definition totalSleep (ev : list Event) : Z :=
  foldr Z.add 0 (sleeps ev).

End Provider.

(** ** contract.js *)

Module Contract.
Import Provider.

(** [ethers.ZeroAddress]. *)
Definition ZeroAddress : string := "0x0000000000000000000000000000000000000000".

(** The constructor of [ContractService]: [fallbackRpcUrls || [rpcUrl]]
    and the fixed retry options. The service's only mutable state is
    its resilient provider. *)
Definition new (rpcUrl : string) (fallbackRpcUrls : option (list string))
  : ResilientProvider :=
  Provider.new
    (Some (match fallbackRpcUrls with Some l => l | None => [rpcUrl] end))
    (mkOptions (Some 3%nat) (Some 30000) (Some 1000) (Some 10000)).

(** The tuple the contract's [getRequestInfo] returns. *)
Record RawRequestInfo : Type := mkRaw {
  raw_requester : string;
  raw_shares : N;
  raw_expectedAssets : N;
  raw_requestTime : N;
  raw_claimableTime : N;
  raw_expirationTime : N;
  raw_allocatedFunds : N
}.

(** The object [getRequestInfo] builds. [Number(bigint)] is the
    identity on the timestamps (exact below 2^53). *)
Record RequestInfo : Type := mkInfo {
  requester : string;
  shares : string;
  expectedAssets : string;
  requestTime : N;
  claimableTime : N;
  expirationTime : N;
  allocatedFunds : string
}.

Definition getRequestsByOwner (this : ResilientProvider)
           (fn : nat → nat → Settled (list N)) (address : string)
  : list Event * ResilientProvider * Outcome (list string) :=
  let '(ev, this', r) :=
    callContractMethod this fn "getRequestsByOwner" [address; "0"; "0"]%string in
  (ev, this',
   try_catch
     (bind r (λ requestIds, Resolved (map (λ id : N, pretty id) requestIds)))
     (λ error, Resolved [])).

Definition canClaimRequest (this : ResilientProvider)
           (fn : nat → nat → Settled bool) (requestId : string)
  : list Event * ResilientProvider * Outcome bool :=
  let '(ev, this', r) :=
    callContractMethod this fn "canClaimRequest" [requestId] in
  (ev, this', try_catch r (λ error, Resolved false)).

Definition getRequestInfo (this : ResilientProvider)
           (fn : nat → nat → Settled RawRequestInfo) (requestId : string)
  : list Event * ResilientProvider * Outcome (option RequestInfo) :=
  let '(ev, this', r) :=
    callContractMethod this fn "getRequestInfo" [requestId] in
  (ev, this',
   try_catch
     (bind r (λ raw,
        Resolved (Some {| requester := raw_requester raw;
                          shares := pretty (raw_shares raw);
                          expectedAssets := pretty (raw_expectedAssets raw);
                          requestTime := raw_requestTime raw;
                          claimableTime := raw_claimableTime raw;
                          expirationTime := raw_expirationTime raw;
                          allocatedFunds := pretty (raw_allocatedFunds raw) |})))
     (λ error, Resolved None)).

Definition isRequestInactive (this : ResilientProvider)
           (fn : nat → nat → Settled RawRequestInfo) (requestId : string)
  : list Event * ResilientProvider * Outcome bool :=
  let '(ev, this', r) := getRequestInfo this fn requestId in
  (ev, this',
   bind r (λ info,
     match info with
     | None => Resolved true
     | Some info =>
         let isClaimed := String.eqb (requester info) ZeroAddress in
         Resolved isClaimed
     end)).

End Contract.

(** ** json-store.js: JsonStore *)

Module Store.

Record Subscription : Type := mkSubscription {
  walletAddress : string;
  frequencySeconds : Z;
  active : bool;
  createdAt : Z;
  updatedAt : Z
}.

Record NotificationRecord : Type := mkRecord {
  firstNotifiedAt : Z;
  lastNotifiedAt : Z
}.

Record CompletionStatus : Type := mkStatus {
  completionSent : bool;
  lastRequestCount : Z;
  statusUpdatedAt : Z
}.

(** [this.data]. The property keys of [subscriptions] and
    [completionStatus] are the decimal strings of the chat ids;
    [String] is injective on integers and [parseInt] inverts it, so
    both objects are indexed by the chat id itself. The keys of
    [notificationHistory] are the strings [`${chatId}:${requestId}`]. *)
Record Data : Type := mkData {
  subscriptions : gmap Z Subscription;
  notificationHistory : gmap string NotificationRecord;
  completionStatus : gmap Z CompletionStatus
}.

(** What [loadData] starts from when there is no file. *)
Definition emptyData : Data := mkData ∅ ∅ ∅.

Definition historyPrefix (chatId : Z) : string := pretty chatId +:+ ":".

Definition historyKey (chatId : Z) (requestId : string) : string :=
  pretty chatId +:+ ":" +:+ requestId.

(** [key.slice(n)]. *)
Definition sliceFrom (n : nat) (s : string) : string :=
  String.substring n (String.length s - n) s.

(** [subscribe]; the two [Date.now()] readings are [now1] and [now2]. *)
Definition subscribe (now1 now2 : Z) (d : Data)
           (chatId : Z) (wallet : string) (frequency : Z) : Data :=
  {| subscriptions :=
       <[chatId := mkSubscription (toLowerCase wallet) frequency true now1 now2]>
         (subscriptions d);
     notificationHistory := notificationHistory d;
     completionStatus := delete chatId (completionStatus d) |}.

(** [getChatsForWallet]. The chats come in the map's order of
    enumeration, not in JavaScript's property order. *)
Definition getChatsForWallet (d : Data) (wallet : string) : list Z :=
  let normalizedAddress := toLowerCase wallet in
  omap (λ '(chatId, sub),
          if (active sub && String.eqb (walletAddress sub) normalizedAddress)%bool
          then Some chatId else None)
       (map_to_list (subscriptions d)).

Definition shouldNotify (now : Z) (d : Data) (chatId : Z) (requestId : string) : bool :=
  match subscriptions d !! chatId with
  | None => false
  | Some sub =>
      match notificationHistory d !! historyKey chatId requestId with
      | None => true
      | Some history =>
          let timeSinceLastNotification := now - lastNotifiedAt history in
          let frequencyMs := frequencySeconds sub * 1000 in
          frequencyMs <=? timeSinceLastNotification
      end
  end.

Definition recordNotification (now : Z) (d : Data) (chatId : Z) (requestId : string)
  : Data :=
  let key := historyKey chatId requestId in
  {| subscriptions := subscriptions d;
     notificationHistory :=
       match notificationHistory d !! key with
       | Some existing =>
           <[key := mkRecord (firstNotifiedAt existing) now]> (notificationHistory d)
       | None => <[key := mkRecord now now]> (notificationHistory d)
       end;
     completionStatus := completionStatus d |}.

(** Whether [cleanupInactiveRequests] keeps the entry under [key]. *)
Definition keptByCleanup (chatId : Z) (activeRequestIds : list string) (key : string)
  : bool :=
  let prefix := historyPrefix chatId in
  if startsWith prefix key
  then bool_decide (sliceFrom (String.length prefix) key ∈ activeRequestIds)
  else true.

Definition cleanupInactiveRequests (d : Data) (chatId : Z)
           (activeRequestIds : list string) : Data :=
  {| subscriptions := subscriptions d;
     notificationHistory :=
       filter (λ kv : string * NotificationRecord,
                 keptByCleanup chatId activeRequestIds kv.1 = true)
              (notificationHistory d);
     completionStatus := completionStatus d |}.

Definition shouldSendCompletion (now : Z) (d : Data) (chatId : Z) (requestCount : Z)
  : bool * Data :=
  let reset :=
    (requestCount =? 0,
     {| subscriptions := subscriptions d;
        notificationHistory := notificationHistory d;
        completionStatus :=
          <[chatId := mkStatus false requestCount now]> (completionStatus d) |}) in
  match completionStatus d !! chatId with
  | None => reset
  | Some status =>
      if ((lastRequestCount status =? 0) && (0 <? requestCount))%bool then reset
      else if ((requestCount =? 0) && negb (completionSent status))%bool then (true, d)
      else if negb (lastRequestCount status =? requestCount)
      then
        (false,
         {| subscriptions := subscriptions d;
            notificationHistory := notificationHistory d;
            completionStatus :=
              <[chatId := mkStatus (if 0 <? requestCount then false
                                    else completionSent status)
                                   requestCount now]>
                (completionStatus d) |})
      else (false, d)
  end.

(** [markCompletionSent]; a missing status starts from
    [{ lastRequestCount: 0 }]. *)
Definition markCompletionSent (now : Z) (d : Data) (chatId : Z) : Data :=
  let count :=
    match completionStatus d !! chatId with
    | Some status => lastRequestCount status
    | None => 0
    end in
  {| subscriptions := subscriptions d;
     notificationHistory := notificationHistory d;
     completionStatus := <[chatId := mkStatus true count now]> (completionStatus d) |}.

(** One poll cycle of the completion pathway for a chat whose wallet
    has [requestCount] active requests: [shouldSendCompletion], then
    [markCompletionSent] when it answered [true]. [now1] and [now2]
    are the clock readings of the two calls. *)
Definition completionCycle (d : Data) (chatId : Z) (cycle : Z * Z * Z) : bool * Data :=
  let '(requestCount, now1, now2) := cycle in
  let '(send, d1) := shouldSendCompletion now1 d chatId requestCount in
  (send, if send then markCompletionSent now2 d1 chatId else d1).

Fixpoint completionCycles (d : Data) (chatId : Z) (cycles : list (Z * Z * Z))
  : list bool * Data :=
  match cycles with
  | [] => ([], d)
  | c :: cycles' =>
      let '(send, d1) := completionCycle d chatId c in
      let '(sends, d2) := completionCycles d1 chatId cycles' in
      (send :: sends, d2)
  end.

(** *** The other methods of the store *)

(** What [getSubscription] hands out. *)
Record SubscriptionInfo : Type := mkSubscriptionInfo {
  info_walletAddress : string;
  info_frequencySeconds : Z;
  info_active : bool
}.

Definition getSubscription (d : Data) (chatId : Z) : option SubscriptionInfo :=
  match subscriptions d !! chatId with
  | None => None
  | Some sub =>
      Some (mkSubscriptionInfo (walletAddress sub) (frequencySeconds sub) (active sub))
  end.

(** [unsubscribe]: the answer and the data afterwards. *)
Definition unsubscribe (d : Data) (chatId : Z) : bool * Data :=
  match subscriptions d !! chatId with
  | Some _ =>
      (true,
       {| subscriptions := delete chatId (subscriptions d);
          notificationHistory :=
            filter (λ kv : string * NotificationRecord,
                      startsWith (historyPrefix chatId) kv.1 = false)
                   (notificationHistory d);
          completionStatus := delete chatId (completionStatus d) |})
  | None => (false, d)
  end.

(** [wallets.add(w)] on a [Set] read back with [Array.from]: insertion
    order, no duplicates. *)
Definition setAdd (wallets : list string) (w : string) : list string :=
  if bool_decide (w ∈ wallets) then wallets else wallets ++ [w].

(** [getAllMonitoredWallets]; the subscriptions are visited in the
    map's order of enumeration. *)
Definition getAllMonitoredWallets (d : Data) : list string :=
  foldl (λ wallets (kv : Z * Subscription),
           if active kv.2 then setAdd wallets (walletAddress kv.2) else wallets)
        [] (map_to_list (subscriptions d)).

Definition resetCompletionStatus (d : Data) (chatId : Z) : Data :=
  {| subscriptions := subscriptions d;
     notificationHistory := notificationHistory d;
     completionStatus := delete chatId (completionStatus d) |}.

Record Stats : Type := mkStats {
  totalSubscriptions : nat;
  totalWallets : nat;
  totalNotificationHistory : nat
}.

Definition getStats (d : Data) : Stats :=
  {| totalSubscriptions :=
       length (List.filter (λ kv : Z * Subscription, active kv.2)
                           (map_to_list (subscriptions d)));
     totalWallets := length (getAllMonitoredWallets d);
     totalNotificationHistory := size (notificationHistory d) |}.

(** *** Reading keys *)

(** No character of the string is a colon. *)
Fixpoint colonFree (s : string) : bool :=
  match s with
  | EmptyString => true
  | String c s' => negb (Ascii.eqb c ":") && colonFree s'
  end.

End Store.

(** ** json-store.js: PollerService *)

Module Poller.
Import Store.

(** The local wall-clock fields of [new Date()]. *)
Record WallClock : Type := mkWallClock {
  getMinutes : Z;
  getSeconds : Z;
  getMilliseconds : Z
}.

(** [Math.ceil(a / b)] for a positive [b]. *)
Definition ceilDiv (a b : Z) : Z := - ((- a) / b).

(** [%] is JavaScript's remainder, which takes the sign of the
    dividend: [Z.rem]. *)
Definition calculateDelayToNextAlignedTime (now : WallClock) : Z :=
  let currentMinute := getMinutes now in
  let currentSecond := getSeconds now in
  let currentMs := getMilliseconds now in
  let nextAlignedMinute := ceilDiv currentMinute 15 * 15 in
  let minutesUntilNext := Z.rem (nextAlignedMinute - currentMinute) 60 in
  let delay := (minutesUntilNext * 60 * 1000) - (currentSecond * 1000) - currentMs in
  delay.

(** Milliseconds since the start of the hour. *)
Definition msIntoHour (now : WallClock) : Z :=
  getMinutes now * 60000 + getSeconds now * 1000 + getMilliseconds now.

Definition wellFormed (now : WallClock) : Prop :=
  0 <= getMinutes now < 60 ∧ 0 <= getSeconds now < 60 ∧ 0 <= getMilliseconds now < 1000.

(** The two texts the poller sends; their wording is not modelled. *)
Inductive Message : Type :=
| WithdrawalReady (shortAddress : string) (requestIds : list string)
| AllClaimed.

(** The store, the number of [Date.now()] readings and of
    [sendMessage] calls so far, and what was handed to the bot (with
    whether it was delivered). *)
Record World : Type := mkWorld {
  store : Data;
  ticks : nat;
  sends : nat;
  outbox : list (Z * Message * bool)
}.

(** Computations that read and change the world and may throw. *)
Definition M (A : Type) : Type := World → Outcome A * World.

Definition ret {A} (a : A) : M A := λ w, (Resolved a, w).

Definition bindM {A B} (m : M A) (k : A → M B) : M B :=
  λ w, match m w with
       | (Resolved a, w') => k a w'
       | (Rejected e, w') => (Rejected e, w')
       end.

Definition tryM {A} (body : M A) (handler : JsError → M A) : M A :=
  λ w, match body w with
       | (Resolved a, w') => (Resolved a, w')
       | (Rejected e, w') => handler e w'
       end.

Notation "x <~ m ;; k" := (bindM m (λ x, k))
  (at level 100, m at next level, right associativity).
Notation "m ;;; k" := (bindM m (λ _, k))
  (at level 100, right associativity).

Definition withStore {A} (f : Data → A * Data) : M A :=
  λ w, let '(a, d) := f (store w) in
       (Resolved a, mkWorld d (ticks w) (sends w) (outbox w)).

Fixpoint forEach {A} (l : list A) (body : A → M unit) : M unit :=
  match l with
  | [] => ret tt
  | x :: l' => body x ;;; forEach l' body
  end.

Fixpoint filterM {A} (p : A → M bool) (l : list A) : M (list A) :=
  match l with
  | [] => ret []
  | x :: l' =>
      keep <~ p x ;;
      rest <~ filterM p l' ;;
      ret (if keep then x :: rest else rest)
  end.

Section Service.
(** [clock n]: the [n]-th reading of [Date.now()]. *)
Variable clock : nat → Z.
(** [bot n chatId msg]: what the [n]-th [bot.api.sendMessage] does;
    [None] delivers, [Some e] throws [e]. *)
Variable bot : nat → Z → Message → option JsError.

Definition dateNow : M Z :=
  λ w, (Resolved (clock (ticks w)),
        mkWorld (store w) (S (ticks w)) (sends w) (outbox w)).

Definition sendMessage (chatId : Z) (msg : Message) : M unit :=
  λ w, match bot (sends w) chatId msg with
       | None =>
           (Resolved tt,
            mkWorld (store w) (ticks w) (S (sends w))
                    (outbox w ++ [(chatId, msg, true)]))
       | Some e =>
           (Rejected e,
            mkWorld (store w) (ticks w) (S (sends w))
                    (outbox w ++ [(chatId, msg, false)]))
       end.

(** The store's methods, each with its own clock reading. *)
Definition storeShouldNotify (chatId : Z) (requestId : string) : M bool :=
  now <~ dateNow ;;
  withStore (λ d, (shouldNotify now d chatId requestId, d)).

Definition storeRecordNotification (chatId : Z) (requestId : string) : M unit :=
  now <~ dateNow ;;
  withStore (λ d, (tt, recordNotification now d chatId requestId)).

Definition storeCleanup (chatId : Z) (activeRequestIds : list string) : M unit :=
  withStore (λ d, (tt, cleanupInactiveRequests d chatId activeRequestIds)).

Definition storeShouldSendCompletion (chatId : Z) (requestCount : Z) : M bool :=
  now <~ dateNow ;;
  withStore (λ d, shouldSendCompletion now d chatId requestCount).

Definition storeMarkCompletionSent (chatId : Z) : M unit :=
  now <~ dateNow ;;
  withStore (λ d, (tt, markCompletionSent now d chatId)).

(** [`${walletAddress.slice(0, 6)}...${walletAddress.slice(-4)}`]. *)
Definition shortAddress (wallet : string) : string :=
  String.substring 0 6 wallet +:+ "..."
    +:+ String.substring (String.length wallet - 4) 4 wallet.

Definition sendNotification (chatId : Z) (wallet : string) (requestIds : list string)
  : M unit :=
  tryM (sendMessage chatId (WithdrawalReady (shortAddress wallet) requestIds))
       (λ error, ret tt).

(** The [filter] of [notifyChatsForWallet]: the claimable requests
    that are due for the chat. *)
Definition requestsToNotify (chatId : Z) (claimableRequestIds : list string)
  : M (list string) :=
  filterM (storeShouldNotify chatId) claimableRequestIds.

(** The body of the loop over chats in [notifyChatsForWallet]. *)
Definition notifyChat (wallet : string)
           (claimableRequestIds activeRequestIds : list string) (chatId : Z)
  : M unit :=
  storeCleanup chatId activeRequestIds ;;;
  due <~ requestsToNotify chatId claimableRequestIds ;;
  match due with
  | [] => ret tt
  | _ =>
      sendNotification chatId wallet due ;;;
      forEach due (storeRecordNotification chatId)
  end.

Definition notifyChatsForWallet (wallet : string)
           (claimableRequestIds activeRequestIds : list string) : M unit :=
  λ w, forEach (getChatsForWallet (store w) wallet)
               (notifyChat wallet claimableRequestIds activeRequestIds) w.

(** The body of the loop over chats in [handleAllRequestsInactive]. *)
Definition completeChat (chatId : Z) : M unit :=
  storeCleanup chatId [] ;;;
  send <~ storeShouldSendCompletion chatId 0 ;;
  if send
  then tryM (sendMessage chatId AllClaimed ;;; storeMarkCompletionSent chatId)
            (λ error, ret tt)
  else ret tt.

Definition handleAllRequestsInactive (wallet : string) : M unit :=
  λ w, forEach (getChatsForWallet (store w) wallet) completeChat w.

End Service.

(** The entry under [key] was last stamped with one of the clock
    readings [lo], ..., [hi - 1]. *)
Definition stampedDuring (clock : nat → Z) (lo hi : nat) (d : Data) (key : string)
  : Prop :=
  ∃ rec k, notificationHistory d !! key = Some rec
           ∧ lastNotifiedAt rec = clock k
           ∧ (lo ≤ k < hi)%nat.

(** *** A poll cycle *)

(** What the ledger service answers during a cycle, as the poller sees
    it: the three queries never reject, so each hands out a value.
    The answers about a request may differ from one question to the
    next; they are indexed by the wallet and by the position of the
    request in the list that is being filtered. *)
Record Ledger : Type := mkLedger {
  requestsByOwner : string → list string;
  requestInactive : string → nat → string → bool;
  requestClaimable : string → nat → string → bool
}.

(** [ids.map(async id => ...)], [Promise.all], then [filter] and [map]:
    the ids whose answer is [true], in the order of the input. *)
Fixpoint keepAt (answer : nat → string → bool) (i : nat) (ids : list string)
  : list string :=
  match ids with
  | [] => []
  | id :: ids' =>
      if answer i id then id :: keepAt answer (S i) ids'
      else keepAt answer (S i) ids'
  end.

(** The value of [contractService.filterActiveRequests(ids)]. *)
Definition filterActiveRequests (ledger : Ledger) (wallet : string)
           (requestIds : list string) : list string :=
  keepAt (λ i id, negb (requestInactive ledger wallet i id)) 0 requestIds.

(** The value of [getClaimableFromActive(activeRequestIds)]. *)
Definition getClaimableFromActive (ledger : Ledger) (wallet : string)
           (activeRequestIds : list string) : list string :=
  keepAt (requestClaimable ledger wallet) 0 activeRequestIds.

Section Cycle.
Variable clock : nat → Z.
Variable bot : nat → Z → Message → option JsError.
Variable ledger : Ledger.

Definition checkWallet (wallet : string) : M unit :=
  tryM
    (let allRequestIds := requestsByOwner ledger wallet in
     match allRequestIds with
     | [] => ret tt
     | _ =>
         let activeRequestIds := filterActiveRequests ledger wallet allRequestIds in
         match activeRequestIds with
         | [] => handleAllRequestsInactive clock bot wallet
         | _ =>
             (λ w,
                forEach (getChatsForWallet (store w) wallet)
                        (λ chatId,
                           _ <~ storeShouldSendCompletion clock chatId
                                  (Z.of_nat (length activeRequestIds)) ;;
                           ret tt) w) ;;;
             let claimableRequestIds :=
               getClaimableFromActive ledger wallet activeRequestIds in
             match claimableRequestIds with
             | [] => ret tt
             | _ =>
                 notifyChatsForWallet clock bot wallet
                                      claimableRequestIds activeRequestIds
             end
         end
     end)
    (λ error, ret tt).

(** The body of [poll] once the guard is passed. *)
Definition pollCycle : M unit :=
  tryM
    (λ w,
       match getAllMonitoredWallets (store w) with
       | [] => ret tt w
       | wallets => forEach wallets checkWallet w
       end)
    (λ error, ret tt).

(** [poll], run to its end; [isPolling] is the guard flag before and,
    in the result, after. *)
Definition poll (isPolling : bool) (w : World) : Outcome unit * World * bool :=
  if isPolling then (Resolved tt, w, true)
  else let '(r, w') := pollCycle w in (r, w', false).

End Cycle.

(** *** Timers *)

(** The timer handles and the guard flag of the service. *)
Record Scheduler : Type := mkScheduler {
  intervalId : option nat;
  timeoutId : option nat;
  isPolling : bool
}.

(** The constructor. *)
Definition newScheduler : Scheduler := mkScheduler None None false.

(** [start]; [handle] is what [setTimeout] returns. *)
Definition start (handle : nat) (s : Scheduler) : Scheduler :=
  match intervalId s, timeoutId s with
  | None, None => mkScheduler None (Some handle) (isPolling s)
  | _, _ => s
  end.

Definition stop (s : Scheduler) : Scheduler :=
  mkScheduler None None (isPolling s).

(** [poll] up to its first suspension: whether a cycle is now in
    flight, and the flag. [hasWallets] tells whether
    [getAllMonitoredWallets()] was non-empty. *)
Definition pollEnter (hasWallets : bool) (s : Scheduler) : bool * Scheduler :=
  if isPolling s then (false, s)
  else if hasWallets
       then (true, mkScheduler (intervalId s) (timeoutId s) true)
       else (false, mkScheduler (intervalId s) (timeoutId s) false).

(** The [finally] of a cycle that was in flight. *)
Definition pollLeave (s : Scheduler) : Scheduler :=
  mkScheduler (intervalId s) (timeoutId s) false.

(** The callback of the timeout armed by [start]; [handle] is what
    [setInterval] returns. *)
Definition onTimeout (hasWallets : bool) (handle : nat) (s : Scheduler)
  : bool * Scheduler :=
  let s1 := mkScheduler (intervalId s) None (isPolling s) in
  let '(started, s2) := pollEnter hasWallets s1 in
  (started, mkScheduler (Some handle) (timeoutId s2) (isPolling s2)).

(** The callback of the interval. *)
Definition onInterval (hasWallets : bool) (s : Scheduler) : bool * Scheduler :=
  pollEnter hasWallets s.

(** What can happen to the service, with the number of cycles in
    flight: calls of [start] and [stop], a timer firing while it is
    armed, a cycle in flight coming to its end. *)
Inductive schedulerStep : Scheduler * nat → Scheduler * nat → Prop :=
| step_start (handle : nat) (s : Scheduler) (inFlight : nat) :
    schedulerStep (s, inFlight) (start handle s, inFlight)
| step_stop (s : Scheduler) (inFlight : nat) :
    schedulerStep (s, inFlight) (stop s, inFlight)
| step_timeout (hasWallets : bool) (handle : nat) (s : Scheduler) (inFlight : nat) :
    is_Some (timeoutId s) →
    schedulerStep (s, inFlight)
      ((onTimeout hasWallets handle s).2,
       if (onTimeout hasWallets handle s).1 then S inFlight else inFlight)
| step_interval (hasWallets : bool) (s : Scheduler) (inFlight : nat) :
    is_Some (intervalId s) →
    schedulerStep (s, inFlight)
      ((onInterval hasWallets s).2,
       if (onInterval hasWallets s).1 then S inFlight else inFlight)
| step_cycle_ends (s : Scheduler) (inFlight : nat) :
    schedulerStep (s, S inFlight) (pollLeave s, inFlight).

(** At most one cycle is in flight, the guard flag is set exactly
    while one is, and the two timers are never armed together. *)
Definition schedulerInvariant (state : Scheduler * nat) : Prop :=
  (state.2 ≤ 1)%nat
  ∧ (isPolling state.1 = true ↔ state.2 = 1%nat)
  ∧ ¬ (is_Some (intervalId state.1) ∧ is_Some (timeoutId state.1)).

(** *** Reading what a run did *)

Definition recipient (entry : Z * Message * bool) : Z := entry.1.1.

Definition message (entry : Z * Message * bool) : Message := entry.1.2.

(** What was handed to the bot between [w] and [w']. *)
Definition newMessages (w w' : World) : list (Z * Message * bool) :=
  drop (length (outbox w)) (outbox w').

(** Request [r] was announced to the chat between [w] and [w']. *)
Definition announced (w w' : World) (chatId : Z) (r : string) : Prop :=
  ∃ short due ok,
    (chatId, WithdrawalReady short due, ok) ∈ newMessages w w' ∧ r ∈ due.

(** Whether the [n]-th [sendMessage] goes through. *)
Definition delivered (bot : nat → Z → Message → option JsError)
           (n : nat) (chatId : Z) (msg : Message) : bool :=
  match bot n chatId msg with None => true | Some _ => false end.

(** Between [w] and [w'] the messages [new] were handed to the bot and
    the subscriptions were left alone. *)
Definition sent (w w' : World) (new : list (Z * Message * bool)) : Prop :=
  outbox w' = outbox w ++ new
  ∧ subscriptions (store w') = subscriptions (store w)
  ∧ sends w' = (sends w + length new)%nat.


End Poller.

(** ** Concrete inputs used to exercise the statements below *)

Module Demo.
Import Provider.

(** Two endpoints, three attempts each, delays 100 ms capped at 250 ms. *)
Definition provider : ResilientProvider :=
  Provider.new (Some ["https://a.example"; "https://b.example"]%string)
               (mkOptions (Some 3%nat) None (Some 100) (Some 250)).

Definition alwaysFails : nat → nat → Settled nat :=
  λ _ _, Rejects (mkError (Some "socket hang up"%string)).

(** Hangs first, is then reverted on endpoint 0, succeeds on endpoint 1. *)
Definition revertedThenFine : nat → nat → Settled nat :=
  λ i p, if (i =? 1)%nat then Rejects (mkError (Some "Execution Reverted: x"%string))
         else if (p =? 1)%nat then Fulfils 7%nat else Hangs.

(** Chat 42 follows a wallet with the 24 h frequency; chat 7 was
    subscribed with a frequency of zero seconds. *)
Definition store : Store.Data :=
  Store.subscribe 1000 1000
    (Store.subscribe 1000 1000 Store.emptyData 42 "0xABCDEF0123456789" 86400)
    7 "0xabcdef0123456789" 0.

(** The bot refuses every message. *)
Definition blockedBot : nat → Z → Poller.Message → option JsError :=
  λ _ _ _, Some (mkError (Some "403: Forbidden: bot was blocked by the user"%string)).

(** One reading of the clock per second. *)
Definition clock : nat → Z := λ n, 1000 * Z.of_nat n.

Definition world : Poller.World := Poller.mkWorld store 0 0 [].


(** A ledger with requests 1, 2 and 3 for every wallet: request 1 is
    claimed, request 2 is active and claimable, request 3 is active and
    not yet claimable. *)
Definition ledger : Poller.Ledger :=
  Poller.mkLedger (λ _, ["1"; "2"; "3"]%string)
                  (λ _ _ id, String.eqb id "1")
                  (λ _ _ id, String.eqb id "2").

(** The store after chat 42 was told about request 9 at time 5000. *)
Definition notified : Store.Data :=
  Store.recordNotification 5000 store 42 "9".

End Demo.

(** * Properties *)

(** ** The resilient provider *)

Module ProviderProps.
Import Provider.

Lemma set_index_self (this : ResilientProvider) :
  set_index this (currentProviderIndex this) = this.
Proof. by destruct this. Qed.

Lemma count_calls_app (ev1 ev2 : list Event) :
  count_calls (ev1 ++ ev2) = (count_calls ev1 + count_calls ev2)%nat.
Proof. induction ev1 as [|e ev1 IH]; simpl; [done|]. rewrite IH. lia. Qed.

Section AllAttemptsFail.
Context {T : Type}.
Variable fn : nat → nat → Settled T.
Variable operationName : string.
Variable this : ResilientProvider.

(** Every invocation fails, with an error that may be retried. *)
Hypothesis always_retryable :
  ∀ i p, ∃ e, attemptOutcome fn operationName this i p = Rejected e
              ∧ isNonRetryableError e = false.

Lemma attemptLoop_all_fail (provider remaining : nat) :
  ∀ (attempt cursor : nat) (st : Locals),
    (attempt + remaining = maxRetries this)%nat →
    ∃ ev st',
      attemptLoop fn operationName provider remaining attempt
                  (set_index this cursor) st
      = (ev, set_index this cursor, st', None)
      ∧ count_calls ev = remaining
      ∧ invocations st' = (invocations st + remaining)%nat
      ∧ match remaining with
        | O => lastError st' = lastError st ∧ ev = []
        | S r =>
            ∃ e, lastError st' = Some e
                 ∧ attemptOutcome fn operationName this (invocations st + r) provider
                   = Rejected e
                 ∧ last ev = Some (Call provider (Some e))
        end.
Proof.
  induction remaining as [|r IH]; intros attempt cursor st Hsum.
  - exists [], st. simpl. repeat split; lia.
  - destruct (always_retryable (invocations st) provider) as (e & He & Hre).
    cbn [attemptLoop].
    change (attemptOutcome fn operationName (set_index this cursor))
      with (attemptOutcome fn operationName this).
    rewrite He, Hre.
    change (maxRetries (set_index this cursor)) with (maxRetries this).
    destruct (attempt <? maxRetries this - 1)%nat eqn:Hlt.
    + apply Nat.ltb_lt in Hlt.
      edestruct (IH (S attempt) cursor
                    (mkLocals (Some e)
                       (Z.min (delay st * 2) (maxRetryDelay (set_index this cursor)))
                       (S (invocations st)))) as (ev & st' & Hrun & Hcnt & Hinv & Hlast);
        [lia|].
      rewrite Hrun. eexists _, st'. split; [reflexivity|].
      simpl in Hinv. simpl. repeat split; [lia|lia|].
      destruct r as [|r'].
      * lia.
      * destruct Hlast as (e' & Hl & Ho & Hev). exists e'.
        simpl in Ho. replace (invocations st + S r')%nat
          with (S (invocations st + r'))%nat by lia.
        repeat split; [done|done|].
        destruct ev as [|x ev]; [done|]. exact Hev.
    + apply Nat.ltb_ge in Hlt.
      edestruct (IH (S attempt) cursor
                    (mkLocals (Some e) (delay st) (S (invocations st))))
        as (ev & st' & Hrun & Hcnt & Hinv & Hlast); [lia|].
      rewrite Hrun. eexists _, st'. split; [reflexivity|].
      simpl in Hinv. simpl. repeat split; [lia|lia|].
      destruct r as [|r'].
      * destruct Hlast as [Hl ->]. exists e. simpl in Hl.
        rewrite Nat.add_0_r. done.
      * destruct Hlast as (e' & Hl & Ho & Hev). exists e'.
        simpl in Ho. replace (invocations st + S r')%nat
          with (S (invocations st + r'))%nat by lia.
        repeat split; [done|done|].
        destruct ev as [|x ev]; [done|]. exact Hev.
Qed.

Lemma providerLoop_all_fail (remaining : nat) :
  ∀ (providerAttempt cursor : nat) (st : Locals),
    (1 ≤ maxRetries this)%nat →
    (providerAttempt + remaining = providers_length this)%nat →
    ∃ ev cursor' lastErr,
      providerLoop fn operationName remaining providerAttempt
                   (set_index this cursor) st
      = (ev, set_index this cursor',
         Rejected (mkError (Some
           (operationName +:+ " failed after trying all "
              +:+ pretty (providers_length this) +:+ " providers: "
              +:+ or_string (lastErr ≫= message) "Unknown error"))))
      ∧ count_calls ev = (remaining * maxRetries this)%nat
      ∧ match remaining with
        | O => lastErr = lastError st ∧ ev = []
        | S _ =>
            ∃ e, lastErr = Some e
                 ∧ attemptOutcome fn operationName this
                     (invocations st + remaining * maxRetries this - 1) cursor'
                   = Rejected e
                 ∧ last ev = Some (Call cursor' (Some e))
        end.
Proof.
  induction remaining as [|r IH]; intros providerAttempt cursor st HM Hsum.
  - exists [], cursor, (lastError st). simpl. done.
  - cbn [providerLoop].
    change (maxRetries (set_index this cursor)) with (maxRetries this).
    change (currentProviderIndex (set_index this cursor)) with cursor.
    destruct (attemptLoop_all_fail cursor (maxRetries this) 0 cursor st)
      as (ev & st1 & Hrun & Hcnt & Hinv & Hlast); [lia|].
    rewrite Hrun.
    change (providers_length (set_index this cursor)) with (providers_length this).
    destruct (maxRetries this) as [|m] eqn:HMeq; [lia|].
    destruct Hlast as (e & Hl & Ho & Hev).
    destruct (providerAttempt <? providers_length this - 1)%nat eqn:Hlt.
    + apply Nat.ltb_lt in Hlt.
      unfold switchToNextProvider.
      set (c2 := ((currentProviderIndex (set_index this cursor) + 1)
                    `mod` providers_length (set_index this cursor))%nat).
      change (set_index (set_index this cursor) c2) with (set_index this c2).
      edestruct (IH (S providerAttempt) c2
                    (mkLocals (lastError st1) (retryDelay (set_index this c2))
                              (invocations st1)))
        as (ev' & cursor' & lastErr & Hrun' & Hcnt' & Hlast'); [lia|lia|].
      rewrite Hrun'. exists (ev ++ Switch c2 :: ev'), cursor', lastErr.
      split; [reflexivity|]. split.
      { rewrite count_calls_app. simpl. lia. }
      destruct r as [|r']; [lia|].
      destruct Hlast' as (e' & Hl' & Ho' & Hev'). exists e'.
      split; [done|]. split.
      * simpl in Ho'. rewrite Hinv in Ho'.
        replace (invocations st + S (S r') * S m - 1)%nat
          with (invocations st + S m + S r' * S m - 1)%nat by lia.
        exact Ho'.
      * destruct ev' as [|x ev']; [done|].
        rewrite last_app. simpl in Hev'. simpl. by rewrite Hev'.
    + apply Nat.ltb_ge in Hlt.
      assert (r = 0)%nat as -> by lia.
      simpl. exists (ev ++ []), cursor, (lastError st1).
      split; [reflexivity|]. rewrite app_nil_r. split; [lia|].
      exists e. split; [done|]. split; [|done].
      replace (invocations st + S (m + 0) - 1)%nat with (invocations st + m)%nat by lia.
      exact Ho.
Qed.

End AllAttemptsFail.

(** C1. With N >= 1 endpoints and M >= 1 attempts per endpoint, an
    operation that fails with a retryable error at every invocation is
    invoked exactly N*M times; the call is then rejected with the
    aggregate error, whose message carries the number of endpoints
    and the message of the last failure observed (that of the final
    invocation), or "Unknown error" when that message is missing or
    empty. *)
Theorem executeWithRetry_exhausts_all_endpoints
        {T : Type} (fn : nat → nat → Settled T) (operationName : string)
        (this : ResilientProvider) :
  (1 ≤ providers_length this)%nat →
  (1 ≤ maxRetries this)%nat →
  (∀ i p, ∃ e, attemptOutcome fn operationName this i p = Rejected e
               ∧ isNonRetryableError e = false) →
  ∃ ev this' e_last,
    executeWithRetry fn operationName this
    = (ev, this',
       Rejected (mkError (Some
         (operationName +:+ " failed after trying all "
            +:+ pretty (providers_length this) +:+ " providers: "
            +:+ or_string (message e_last) "Unknown error"))))
    ∧ count_calls ev = (providers_length this * maxRetries this)%nat
    ∧ attemptOutcome fn operationName this
        (providers_length this * maxRetries this - 1) (currentProviderIndex this')
      = Rejected e_last
    ∧ last ev = Some (Call (currentProviderIndex this') (Some e_last)).
Proof.
  intros HN HM Hfail. unfold executeWithRetry.
  destruct (providerLoop_all_fail fn operationName this Hfail
              (providers_length this) 0 (currentProviderIndex this)
              (mkLocals None (retryDelay this) 0) HM eq_refl)
    as (ev & cursor' & lastErr & Hrun & Hcnt & Hlast).
  rewrite set_index_self in Hrun.
  destruct (providers_length this) as [|n] eqn:HNeq; [lia|].
  destruct Hlast as (e & -> & Ho & Hev).
  exists ev, (set_index this cursor'), e. rewrite Hrun. simpl in *.
  repeat split; done.
Qed.

Lemma executeWithRetry_exhausts_all_endpoints_witness :
  ∃ ev this' e_last,
    executeWithRetry Demo.alwaysFails "call" Demo.provider
    = (ev, this',
       Rejected (mkError (Some
         ("call" +:+ " failed after trying all "
            +:+ pretty (providers_length Demo.provider) +:+ " providers: "
            +:+ or_string (message e_last) "Unknown error"))))
    ∧ count_calls ev = (providers_length Demo.provider * maxRetries Demo.provider)%nat
    ∧ attemptOutcome Demo.alwaysFails "call" Demo.provider
        (providers_length Demo.provider * maxRetries Demo.provider - 1)
        (currentProviderIndex this')
      = Rejected e_last
    ∧ last ev = Some (Call (currentProviderIndex this') (Some e_last)).
Proof.
  apply (executeWithRetry_exhausts_all_endpoints Demo.alwaysFails "call" Demo.provider).
  - vm_compute. lia.
  - vm_compute. lia.
  - intros i p. eexists. split; reflexivity.
Defined.

(** *** Backoff *)

Lemma backoff_step (base max : Z) (k : nat) :
  base <= max →
  Z.min (backoff base max k * 2) max = backoff base max (S k).
Proof.
  intros Hle. unfold backoff.
  rewrite Nat2Z.inj_succ, Z.pow_succ_r by lia.
  assert (0 < 2 ^ Z.of_nat k) as Hpos by (apply Z.pow_pos_nonneg; lia).
  set (x := 2 ^ Z.of_nat k) in *.
  destruct (Z_le_gt_dec 0 max) as [Hmax|Hmax].
  - lia.
  - assert (base * x <= base) by nia. lia.
Qed.

Lemma backoff_0 (base max : Z) : base <= max → backoff base max 0 = base.
Proof. intros. unfold backoff. simpl. lia. Qed.


Lemma segments_no_switch (ev : list Event) :
  count_switches ev = 0%nat → segments ev = [ev].
Proof.
  induction ev as [|e ev IH]; simpl; [done|].
  destruct (is_switch e); [lia|]. intros H. by rewrite IH.
Qed.

Lemma segments_app_switch (ev rest : list Event) (c : nat) :
  count_switches ev = 0%nat →
  segments (ev ++ Switch c :: rest) = ev :: segments rest.
Proof.
  induction ev as [|e ev IH]; simpl; [done|].
  destruct (is_switch e); [lia|]. intros H. by rewrite IH.
Qed.

Lemma count_switches_app (ev1 ev2 : list Event) :
  count_switches (ev1 ++ ev2) = (count_switches ev1 + count_switches ev2)%nat.
Proof. induction ev1 as [|e ev1 IH]; simpl; [done|]. rewrite IH. lia. Qed.

(** The sleeps of one endpoint's attempts continue the backoff
    sequence from the delay the loop is entered with. *)
Lemma attemptLoop_sleeps {T} (fn : nat → nat → Settled T) (operationName : string)
      (provider remaining : nat) :
  ∀ attempt this st k ev this' st' r,
    retryDelay this <= maxRetryDelay this →
    delay st = backoff (retryDelay this) (maxRetryDelay this) k →
    attemptLoop fn operationName provider remaining attempt this st
    = (ev, this', st', r) →
    count_switches ev = 0%nat
    ∧ ∃ n, sleeps ev
           = map (backoff (retryDelay this) (maxRetryDelay this)) (seq k n)
           ∧ (n ≤ maxRetries this - 1 - attempt)%nat.
Proof.
  induction remaining as [|rem IH]; intros attempt this st k ev this' st' r Hle Hd Hrun.
  - simpl in Hrun. injection Hrun as <- <- <- <-. split; [done|]. exists 0%nat.
    split; [done|lia].
  - cbn [attemptLoop] in Hrun.
    destruct (attemptOutcome fn operationName this (invocations st) provider)
      as [v|e].
    + destruct (currentProviderIndex this =? 0)%nat;
        injection Hrun as <- <- <- <-; (split; [done|]); exists 0%nat;
        (split; [done|lia]).
    + destruct (isNonRetryableError e).
      { injection Hrun as <- <- <- <-. split; [done|]. exists 0%nat.
        split; [done|lia]. }
      destruct (attempt <? maxRetries this - 1)%nat eqn:Hlt.
      * apply Nat.ltb_lt in Hlt.
        destruct (attemptLoop fn operationName provider rem (S attempt) this _)
          as [[[ev1 this1] st1] r1] eqn:Hrec.
        injection Hrun as <- <- <- <-.
        apply (IH _ _ _ (S k)) in Hrec as (Hsw & n & Hsl & Hn); [|done|].
        2:{ simpl. rewrite Hd. by apply backoff_step. }
        split; [done|]. exists (S n). split; [|lia].
        cbn. rewrite Hd. f_equal. exact Hsl.
      * destruct (attemptLoop fn operationName provider rem (S attempt) this _)
          as [[[ev1 this1] st1] r1] eqn:Hrec.
        injection Hrun as <- <- <- <-.
        apply (IH _ _ _ k) in Hrec as (Hsw & n & Hsl & Hn); [|done|done].
        split; [done|]. exists n. split; [|lia]. exact Hsl.
Qed.

(** Leaving the inner loop without a result leaves the provider
    untouched; returning a result leaves the cursor on the primary. *)
Lemma attemptLoop_this {T} (fn : nat → nat → Settled T) (operationName : string)
      (provider remaining : nat) :
  ∀ attempt this st ev this' st' r,
    attemptLoop fn operationName provider remaining attempt this st
    = (ev, this', st', r) →
    match r with
    | None => this' = this
    | Some _ => this' = set_index this 0
    end.
Proof.
  induction remaining as [|rem IH]; intros attempt this st ev this' st' r Hrun.
  - simpl in Hrun. by injection Hrun as <- <- <- <-.
  - cbn [attemptLoop] in Hrun.
    destruct (attemptOutcome fn operationName this (invocations st) provider)
      as [v|e].
    + destruct (currentProviderIndex this =? 0)%nat eqn:H0;
        injection Hrun as <- <- <- <-; [|done].
      apply Nat.eqb_eq in H0. rewrite <- H0. symmetry. apply set_index_self.
    + destruct (isNonRetryableError e).
      { by injection Hrun as <- <- <- <-. }
      destruct (attempt <? maxRetries this - 1)%nat;
        destruct (attemptLoop fn operationName provider rem (S attempt) this _)
          as [[[ev1 this1] st1] r1] eqn:Hrec;
        injection Hrun as <- <- <- <-; by apply IH in Hrec.
Qed.




(** *** The cursor *)

Lemma count_resets_app (ev1 ev2 : list Event) :
  count_resets (ev1 ++ ev2) = (count_resets ev1 + count_resets ev2)%nat.
Proof. induction ev1 as [|e ev1 IH]; simpl; [done|]. rewrite IH. lia. Qed.

(** The shape of one endpoint's attempts: they all go to [provider];
    a result is returned right after the successful call, and after
    the single reset when the cursor was not on the primary. *)
Lemma attemptLoop_shape {T} (fn : nat → nat → Settled T) (operationName : string)
      (provider remaining : nat) (n : nat) :
  ∀ attempt this st ev this' st' r,
    (provider < n)%nat →
    attemptLoop fn operationName provider remaining attempt this st
    = (ev, this', st', r) →
    Forall (eventInRange n) ev
    ∧ match r with
      | None => count_resets ev = 0%nat
      | Some _ =>
          ∃ pre, ev = pre ++ Call provider None
                        :: (if (currentProviderIndex this =? 0)%nat
                            then [] else [ResetPrimary])
                 ∧ count_resets pre = 0%nat
      end
    ∧ ((1 ≤ remaining)%nat → ∃ f tl, ev = Call provider f :: tl).
Proof.
  induction remaining as [|rem IH]; intros attempt this st ev this' st' r Hp Hrun.
  - simpl in Hrun. injection Hrun as <- <- <- <-. repeat split; [done|lia].
  - cbn [attemptLoop] in Hrun.
    destruct (attemptOutcome fn operationName this (invocations st) provider)
      as [v|e].
    + destruct (currentProviderIndex this =? 0)%nat eqn:H0;
        injection Hrun as <- <- <- <-.
      * split; [by repeat constructor|]. split; [by exists []|]. eauto.
      * split; [by repeat constructor|]. split; [by exists []|]. eauto.
    + destruct (isNonRetryableError e).
      { injection Hrun as <- <- <- <-.
        split; [by repeat constructor|]. split; [done|]. eauto. }
      destruct (attempt <? maxRetries this - 1)%nat;
        destruct (attemptLoop fn operationName provider rem (S attempt) this _)
          as [[[ev1 this1] st1] r1] eqn:Hrec;
        injection Hrun as <- <- <- <-;
        apply IH in Hrec as (Hrange & Hres & _); try done.
      * split; [by repeat constructor|]. split; [|eauto].
        destruct r1; [|done]. destruct Hres as (pre & -> & Hpre).
        by exists (Call provider (Some e) :: Sleep (delay st) :: pre).
      * split; [by repeat constructor|]. split; [|eauto].
        destruct r1; [|done]. destruct Hres as (pre & -> & Hpre).
        by exists (Call provider (Some e) :: pre).
Qed.

Lemma switchToNextProvider_valid (this : ResilientProvider) :
  validIndex this → validIndex (switchToNextProvider this).
Proof.
  unfold validIndex, switchToNextProvider, providers_length. simpl. intros H.
  apply Nat.mod_upper_bound. lia.
Qed.

Lemma providerLoop_cursor {T} (fn : nat → nat → Settled T) (operationName : string)
      (remaining : nat) :
  ∀ providerAttempt this st ev this' out,
    validIndex this →
    providerLoop fn operationName remaining providerAttempt this st
    = (ev, this', out) →
    validIndex this'
    ∧ this' = set_index this (currentProviderIndex this')
    ∧ Forall (eventInRange (providers_length this)) ev
    ∧ (∀ v, out = Resolved v →
         currentProviderIndex this' = 0%nat
         ∧ ∃ pre p, ev = pre ++ Call p None
                      :: (if (p =? 0)%nat then [] else [ResetPrimary])
                    ∧ count_resets pre = 0%nat)
    ∧ ((1 ≤ remaining)%nat → (1 ≤ maxRetries this)%nat →
       ∃ f tl, ev = Call (currentProviderIndex this) f :: tl).
Proof.
  induction remaining as [|rem IH];
    intros providerAttempt this st ev this' out Hvalid Hrun.
  - simpl in Hrun. injection Hrun as <- <- <-.
    split; [done|]. split; [by rewrite set_index_self|].
    split; [done|]. split; [done|lia].
  - cbn [providerLoop] in Hrun.
    destruct (attemptLoop fn operationName (currentProviderIndex this)
                          (maxRetries this) 0 this st)
      as [[[ev1 this1] st1] r1] eqn:Hin.
    pose proof (attemptLoop_this _ _ _ _ _ _ _ _ _ _ _ Hin) as Hthis.
    apply (attemptLoop_shape _ _ _ _ (providers_length this)) in Hin
      as (Hrange & Hres & Hfirst); [|exact Hvalid].
    destruct r1 as [v|].
    + injection Hrun as <- <- <-. subst this1.
      split; [unfold validIndex in *; simpl; unfold providers_length in *; simpl; lia|].
      split; [done|]. split; [done|]. split; [|intros; by apply Hfirst].
      intros v' _. split; [done|].
      destruct Hres as (pre & -> & Hpre). by exists pre, (currentProviderIndex this).
    + subst this1.
      destruct (providerAttempt <? providers_length this - 1)%nat.
      * destruct (providerLoop fn operationName rem (S providerAttempt) _ _)
          as [[ev2 this2] out2] eqn:Hrec.
        injection Hrun as <- <- <-.
        apply IH in Hrec as (Hv & Hcfg & Hrange2 & Hok & _);
          [|by apply switchToNextProvider_valid].
        split; [done|]. split; [by rewrite Hcfg|].
        split.
        { apply Forall_app. split; [done|]. constructor; [|done].
          apply (switchToNextProvider_valid this Hvalid). }
        split.
        { intros v ->. destruct (Hok v eq_refl) as (H0 & pre & p & -> & Hpre).
          split; [done|].
          exists (ev1 ++ Switch (currentProviderIndex (switchToNextProvider this))
                    :: pre), p.
          split; [by rewrite <- app_assoc|].
          rewrite count_resets_app. simpl. lia. }
        intros _ HM. destruct Hfirst as (f & tl & ->); [done|]. simpl. eauto.
      * destruct (providerLoop fn operationName rem (S providerAttempt) this st1)
          as [[ev2 this2] out2] eqn:Hrec.
        injection Hrun as <- <- <-.
        apply IH in Hrec as (Hv & Hcfg & Hrange2 & Hok & _); [|done].
        split; [done|]. split; [done|].
        split; [by apply Forall_app|].
        split.
        { intros v ->. destruct (Hok v eq_refl) as (H0 & pre & p & -> & Hpre).
          split; [done|]. exists (ev1 ++ pre), p.
          split; [by rewrite <- app_assoc|].
          rewrite count_resets_app. lia. }
        intros _ HM. destruct Hfirst as (f & tl & ->); [done|]. simpl. eauto.
Qed.

Lemma executeWithRetry_valid {T} (fn : nat → nat → Settled T)
      (operationName : string) (this : ResilientProvider) :
  validIndex this → validIndex (executeWithRetry fn operationName this).1.2.
Proof.
  intros Hvalid.
  destruct (executeWithRetry fn operationName this) as [[ev this'] out] eqn:Hrun.
  unfold executeWithRetry in Hrun. by apply providerLoop_cursor in Hrun as (? & _).
Qed.




(** *** Errors that are not retried *)




Lemma attemptLoop_no_switch {T} (fn : nat → nat → Settled T) (operationName : string)
      (provider remaining : nat) :
  ∀ attempt this st ev this' st' r,
    attemptLoop fn operationName provider remaining attempt this st
    = (ev, this', st', r) →
    count_switches ev = 0%nat.
Proof.
  induction remaining as [|rem IH]; intros attempt this st ev this' st' r Hrun.
  - simpl in Hrun. by injection Hrun as <- <- <- <-.
  - cbn [attemptLoop] in Hrun.
    destruct (attemptOutcome fn operationName this (invocations st) provider)
      as [v|e].
    + by destruct (currentProviderIndex this =? 0)%nat;
        injection Hrun as <- <- <- <-.
    + destruct (isNonRetryableError e).
      { by injection Hrun as <- <- <- <-. }
      destruct (attempt <? maxRetries this - 1)%nat;
        destruct (attemptLoop fn operationName provider rem (S attempt) this _)
          as [[[ev1 this1] st1] r1] eqn:Hrec;
        injection Hrun as <- <- <- <-; simpl; by eapply IH.
Qed.









(** The classification at work on a few messages. *)
Example isNonRetryableError_examples :
  isNonRetryableError (mkError (Some "invalid address (argument=...)")) = true
  ∧ isNonRetryableError (mkError (Some "Invalid Argument")) = true
  ∧ isNonRetryableError (mkError (Some "missing argument: owner")) = true
  ∧ isNonRetryableError (mkError (Some "execution reverted")) = true
  ∧ isNonRetryableError (mkError (Some "CALL EXCEPTION")) = true
  ∧ isNonRetryableError (mkError (Some "getNetwork timeout after 30000ms")) = false
  ∧ isNonRetryableError (mkError (Some "429 Too Many Requests")) = false
  ∧ isNonRetryableError (mkError None) = false.
Proof. vm_compute. done. Qed.

End ProviderProps.

(** ** The ledger queries *)

Module ContractProps.
Import Provider Contract.

(** C5. The three queries never reject: whatever the remote calls do,
    each returns a value, and when the resilient call underneath ends
    in failure that value is the conservative default: no request
    ids, not claimable, no detail. *)
Theorem ledger_queries_absorb_failure
        (this : ResilientProvider)
        (fnIds : nat → nat → Settled (list N))
        (fnClaim : nat → nat → Settled bool)
        (fnInfo : nat → nat → Settled RawRequestInfo)
        (address requestId : string) :
  (∃ ids, (getRequestsByOwner this fnIds address).2 = Resolved ids
          ∧ ∀ e, (callContractMethod this fnIds "getRequestsByOwner"
                    [address; "0"; "0"]%string).2 = Rejected e → ids = [])
  ∧ (∃ b, (canClaimRequest this fnClaim requestId).2 = Resolved b
          ∧ ∀ e, (callContractMethod this fnClaim "canClaimRequest"
                    [requestId]).2 = Rejected e → b = false)
  ∧ (∃ info, (getRequestInfo this fnInfo requestId).2 = Resolved info
             ∧ ∀ e, (callContractMethod this fnInfo "getRequestInfo"
                       [requestId]).2 = Rejected e → info = None).
Proof.
  unfold getRequestsByOwner, canClaimRequest, getRequestInfo.
  repeat split.
  - destruct (callContractMethod this fnIds _ _) as [[ev this'] [ids|e]]; simpl.
    + eexists. split; [reflexivity|]. intros e. discriminate.
    + by exists [].
  - destruct (callContractMethod this fnClaim _ _) as [[ev this'] [b|e]]; simpl.
    + exists b. split; [reflexivity|]. intros e. discriminate.
    + by exists false.
  - destruct (callContractMethod this fnInfo _ _) as [[ev this'] [raw|e]]; simpl.
    + eexists. split; [reflexivity|]. intros e. discriminate.
    + by exists None.
Qed.

(** C6. [isRequestInactive] answers [true] exactly when the detail is
    [null] or its requester is the zero address, and [false]
    otherwise. The detail is [null] exactly when the fetch failed, so
    a failed fetch and a claimed request give the caller the same
    answer. *)
Theorem isRequestInactive_classification
        (this : ResilientProvider) (fn : nat → nat → Settled RawRequestInfo)
        (requestId : string) :
  ∃ info b,
    (getRequestInfo this fn requestId).2 = Resolved info
    ∧ (isRequestInactive this fn requestId).2 = Resolved b
    ∧ (b = true ↔ info = None ∨ ∃ i, info = Some i ∧ requester i = ZeroAddress)
    ∧ (info = None ↔
       ∃ e, (callContractMethod this fn "getRequestInfo" [requestId]).2 = Rejected e)
    ∧ (∀ raw, (callContractMethod this fn "getRequestInfo" [requestId]).2
              = Resolved raw →
              ∃ i, info = Some i ∧ requester i = raw_requester raw).
Proof.
  unfold isRequestInactive, getRequestInfo.
  destruct (callContractMethod this fn _ _) as [[ev this'] [raw|e]]; simpl.
  - eexists _, _. split; [reflexivity|]. split; [reflexivity|].
    split; [|split].
    + rewrite String.eqb_eq. split.
      * intros H. right. eexists. split; [reflexivity|]. exact H.
      * intros [?|(i & [= <-] & H)]; [done|exact H].
    + split; [done|]. intros [e' ?]. done.
    + intros raw' [= <-]. eexists. split; reflexivity.
  - exists None, true. split; [done|]. split; [done|].
    split; [|split].
    + split; [by left|done].
    + split; [eauto|done].
    + intros raw. discriminate.
Qed.

End ContractProps.

(** ** The store *)

Module StoreProps.
Import Store.

(** C7, as stated, fails for a chat whose frequency is zero seconds:
    right after [recordNotification], at the same clock reading,
    [shouldNotify] is already true again. *)
Lemma shouldNotify_true_right_after_record_at_zero_frequency :
  frequencySeconds <$> subscriptions Demo.store !! 7 = Some 0
  ∧ shouldNotify 5000 (recordNotification 5000 Demo.store 7 "9") 7 "9" ≠ false.
Proof. vm_compute. split; [reflexivity|discriminate]. Qed.

(** C7, amended. For a subscribed chat: [shouldNotify] is true when
    there is no record for the pair; after [recordNotification] at
    time [t0] it is true at time [t] exactly when
    [t - t0 >= frequencySeconds * 1000]; so, when the frequency is
    positive, it is false immediately after the record. *)
Theorem shouldNotify_dedup
        (d : Data) (chatId : Z) (sub : Subscription) (requestId : string) :
  subscriptions d !! chatId = Some sub →
  (notificationHistory d !! historyKey chatId requestId = None →
   ∀ now, shouldNotify now d chatId requestId = true)
  ∧ (∀ t0 t,
       shouldNotify t (recordNotification t0 d chatId requestId) chatId requestId = true
       ↔ frequencySeconds sub * 1000 <= t - t0)
  ∧ (0 < frequencySeconds sub →
     ∀ t0,
       shouldNotify t0 (recordNotification t0 d chatId requestId) chatId requestId
       = false).
Proof.
  intros Hsub.
  assert (∀ t0 t,
            shouldNotify t (recordNotification t0 d chatId requestId) chatId requestId
            = (frequencySeconds sub * 1000 <=? t - t0)) as Hafter.
  { intros t0 t. unfold shouldNotify, recordNotification. simpl. rewrite Hsub.
    destruct (notificationHistory d !! historyKey chatId requestId);
      by rewrite lookup_insert_eq. }
  split; [|split].
  - intros Hnone now. unfold shouldNotify. by rewrite Hsub, Hnone.
  - intros t0 t. rewrite Hafter. apply Z.leb_le.
  - intros Hpos t0. rewrite Hafter. apply Z.leb_gt. lia.
Qed.

Lemma shouldNotify_dedup_witness :
  subscriptions Demo.store !! 42
  = Some (mkSubscription "0xabcdef0123456789" 86400 true 1000 1000)
  ∧ ((notificationHistory Demo.store !! historyKey 42 "9" = None →
      ∀ now, shouldNotify now Demo.store 42 "9" = true)
     ∧ (∀ t0 t,
          shouldNotify t (recordNotification t0 Demo.store 42 "9") 42 "9" = true
          ↔ frequencySeconds (mkSubscription "0xabcdef0123456789" 86400 true 1000 1000)
            * 1000 <= t - t0)
     ∧ (0 < frequencySeconds (mkSubscription "0xabcdef0123456789" 86400 true 1000 1000) →
        ∀ t0,
          shouldNotify t0 (recordNotification t0 Demo.store 42 "9") 42 "9" = false)).
Proof.
  assert (subscriptions Demo.store !! 42
          = Some (mkSubscription "0xabcdef0123456789" 86400 true 1000 1000)) as Hsub
      by (vm_compute; reflexivity).
  split; [exact Hsub|].
  exact (shouldNotify_dedup Demo.store 42 _ "9" Hsub).
Defined.

(** C8. Starting without a completion status, the active counts
    3, 0, 0, 3, 0 make [shouldSendCompletion] answer
    false, true, false, false, true: true exactly twice, once at the
    start of each run of zero counts and never on the repeated zero. *)
Theorem completion_sent_once_per_episode
        (d : Data) (chatId : Z) (t1 t2 t3 t4 t5 t6 t7 t8 t9 t10 : Z) :
  completionStatus d !! chatId = None →
  (completionCycles d chatId
     [(3, t1, t2); (0, t3, t4); (0, t5, t6); (3, t7, t8); (0, t9, t10)]).1
  = [false; true; false; false; true]
  ∧ length (filter (λ b : bool, b = true)
              (completionCycles d chatId
                 [(3, t1, t2); (0, t3, t4); (0, t5, t6); (3, t7, t8); (0, t9, t10)]).1)
    = 2%nat.
Proof.
  intros Hnone.
  assert ((completionCycles d chatId
             [(3, t1, t2); (0, t3, t4); (0, t5, t6); (3, t7, t8); (0, t9, t10)]).1
          = [false; true; false; false; true]) as ->; [|done].
  cbn [completionCycles completionCycle].
  unfold shouldSendCompletion at 1. rewrite Hnone. cbn.
  unfold shouldSendCompletion at 1. cbn. rewrite lookup_insert_eq. cbn.
  unfold shouldSendCompletion at 1, markCompletionSent at 1. cbn.
  rewrite !lookup_insert_eq. cbn.
  unfold shouldSendCompletion at 1. cbn. rewrite !lookup_insert_eq. cbn.
  unfold shouldSendCompletion at 1. cbn. rewrite !lookup_insert_eq. cbn.
  reflexivity.
Qed.

Lemma completion_sent_once_per_episode_witness :
  (completionCycles Demo.store 42
     [(3, 1, 2); (0, 3, 4); (0, 5, 6); (3, 7, 8); (0, 9, 10)]).1
  = [false; true; false; false; true]
  ∧ length (filter (λ b : bool, b = true)
              (completionCycles Demo.store 42
                 [(3, 1, 2); (0, 3, 4); (0, 5, 6); (3, 7, 8); (0, 9, 10)]).1)
    = 2%nat.
Proof.
  apply (completion_sent_once_per_episode Demo.store 42 1 2 3 4 5 6 7 8 9 10).
  vm_compute. reflexivity.
Defined.

End StoreProps.

(** ** The poller *)

Module PollerProps.
Import Store Poller.

(** *** Alignment of the first poll *)

(** Whatever the time, the delay leads to a multiple of 15 minutes. *)
Lemma calculateDelay_lands_on_grid (now : WallClock) :
  (msIntoHour now + calculateDelayToNextAlignedTime now) `mod` 900000 = 0.
Proof.
  unfold msIntoHour, calculateDelayToNextAlignedTime, ceilDiv.
  set (m := getMinutes now).
  pose proof (Z.div_mod (- m) 15 ltac:(lia)) as Hdm.
  pose proof (Z.mod_pos_bound (- m) 15 ltac:(lia)) as Hr.
  replace (- ((- m) `div` 15) * 15 - m) with ((- m) `mod` 15) by lia.
  rewrite Z.rem_small by lia.
  replace (m * 60000 + getSeconds now * 1000 + getMilliseconds now
           + ((- m) `mod` 15 * 60 * 1000 - getSeconds now * 1000 - getMilliseconds now))
    with ((- ((- m) `div` 15)) * 900000) by lia.
  apply Z.mod_mul. lia.
Qed.

(** Off the grid minutes the delay is positive and at most 15 minutes:
    the boundary reached is the next one. *)
Lemma calculateDelay_next_boundary (now : WallClock) :
  wellFormed now →
  getMinutes now `mod` 15 ≠ 0 →
  0 < calculateDelayToNextAlignedTime now <= 900000.
Proof.
  intros (Hm & Hs & Hms) Hoff.
  unfold calculateDelayToNextAlignedTime, ceilDiv.
  set (m := getMinutes now) in *.
  pose proof (Z.div_mod (- m) 15 ltac:(lia)) as Hdm.
  pose proof (Z.mod_pos_bound (- m) 15 ltac:(lia)) as Hr.
  replace (- ((- m) `div` 15) * 15 - m) with ((- m) `mod` 15) by lia.
  rewrite Z.rem_small by lia.
  assert ((- m) `mod` 15 ≠ 0) as Hne.
  { intros H0. apply Hoff. apply Z.mod_divide in H0 as [q Hq]; [|lia].
    apply Z.mod_divide; [lia|]. exists (- q). lia. }
  lia.
Qed.

(** At :07:42 the delay leads exactly to :15:00. *)
Example calculateDelay_at_07_42 (ms : Z) :
  calculateDelayToNextAlignedTime (mkWallClock 7 42 ms) = 438000 - ms
  ∧ msIntoHour (mkWallClock 7 42 ms)
    + calculateDelayToNextAlignedTime (mkWallClock 7 42 ms) = 15 * 60000.
Proof.
  unfold msIntoHour, calculateDelayToNextAlignedTime. cbn [getMinutes getSeconds getMilliseconds].
  change (ceilDiv 7 15) with 1. change (Z.rem (1 * 15 - 7) 60) with 8. lia.
Qed.

(** C9 fails on the code: thirty seconds past a boundary, at :15:30,
    the computed delay is negative, -30000 ms; it points back at
    :15:00, the boundary already passed, not at :30:00. *)
Theorem calculateDelay_negative_just_after_boundary :
  wellFormed (mkWallClock 15 30 0)
  ∧ calculateDelayToNextAlignedTime (mkWallClock 15 30 0) = -30000
  ∧ ¬ 0 <= calculateDelayToNextAlignedTime (mkWallClock 15 30 0)
  ∧ msIntoHour (mkWallClock 15 30 0)
    + calculateDelayToNextAlignedTime (mkWallClock 15 30 0) = 15 * 60000.
Proof. vm_compute. repeat split; try discriminate; auto. Qed.

(** The same holds at every time on a grid minute but not on the
    boundary itself. *)
Lemma calculateDelay_negative_on_grid_minute (now : WallClock) :
  wellFormed now →
  getMinutes now `mod` 15 = 0 →
  calculateDelayToNextAlignedTime now
  = - (getSeconds now * 1000 + getMilliseconds now).
Proof.
  intros (Hm & Hs & Hms) Hon.
  unfold calculateDelayToNextAlignedTime, ceilDiv.
  set (m := getMinutes now) in *.
  pose proof (Z.div_mod (- m) 15 ltac:(lia)) as Hdm.
  pose proof (Z.mod_pos_bound (- m) 15 ltac:(lia)) as Hr.
  replace (- ((- m) `div` 15) * 15 - m) with ((- m) `mod` 15) by lia.
  rewrite Z.rem_small by lia.
  assert ((- m) `mod` 15 = 0) as ->; [|lia].
  apply Z.mod_divide in Hon as [q Hq]; [|lia].
  apply Z.mod_divide; [lia|]. exists (- q). lia.
Qed.

(** *** Notifications *)

Lemma world_eta (w : World) : mkWorld (store w) (ticks w) (sends w) (outbox w) = w.
Proof. by destruct w. Qed.

(** [sendNotification] never throws and leaves the store and the
    clock alone; the message is in the outbox, delivered or not. *)
Lemma sendNotification_swallows (bot : nat → Z → Message → option JsError)
      (chatId : Z) (wallet : string) (requestIds : list string) (w : World) :
  sendNotification bot chatId wallet requestIds w
  = (Resolved tt,
     mkWorld (store w) (ticks w) (S (sends w))
             (outbox w ++ [(chatId, WithdrawalReady (shortAddress wallet) requestIds,
                            match bot (sends w) chatId
                                    (WithdrawalReady (shortAddress wallet) requestIds)
                            with None => true | Some _ => false end)])).
Proof.
  unfold sendNotification, tryM, sendMessage.
  by destruct (bot (sends w) chatId _).
Qed.

Lemma storeShouldNotify_run (clock : nat → Z) (chatId : Z) (r : string) (w : World) :
  storeShouldNotify clock chatId r w
  = (Resolved (shouldNotify (clock (ticks w)) (store w) chatId r),
     mkWorld (store w) (S (ticks w)) (sends w) (outbox w)).
Proof. reflexivity. Qed.

Lemma storeRecordNotification_run (clock : nat → Z) (chatId : Z) (r : string)
      (w : World) :
  storeRecordNotification clock chatId r w
  = (Resolved tt,
     mkWorld (recordNotification (clock (ticks w)) (store w) chatId r)
             (S (ticks w)) (sends w) (outbox w)).
Proof. reflexivity. Qed.

Lemma bindM_run {A B} (m : M A) (k : A → M B) (w : World) :
  bindM m k w
  = match m w with
    | (Resolved a, w') => k a w'
    | (Rejected e, w') => (Rejected e, w')
    end.
Proof. reflexivity. Qed.

(** The filter only reads the store; it takes one clock reading per
    candidate. *)
Lemma requestsToNotify_run (clock : nat → Z) (chatId : Z) (l : list string) :
  ∀ w, ∃ due,
    requestsToNotify clock chatId l w
    = (Resolved due,
       mkWorld (store w) (ticks w + length l) (sends w) (outbox w)).
Proof.
  unfold requestsToNotify.
  induction l as [|r l IH]; intros w.
  - exists []. simpl. unfold ret. by rewrite Nat.add_0_r, world_eta.
  - cbn [filterM]. rewrite bindM_run, storeShouldNotify_run, bindM_run.
    destruct (IH (mkWorld (store w) (S (ticks w)) (sends w) (outbox w)))
      as (rest & Hrest).
    rewrite Hrest. eexists. unfold ret. cbn [length store ticks sends outbox].
    f_equal. f_equal. lia.
Qed.

Lemma requestsToNotify_same (clock : nat → Z) (chatId : Z) (l : list string) :
  ∀ w1 w2, store w1 = store w2 → ticks w1 = ticks w2 →
           (requestsToNotify clock chatId l w1).1
           = (requestsToNotify clock chatId l w2).1.
Proof.
  unfold requestsToNotify.
  induction l as [|r l IH]; intros w1 w2 Hs Ht; [done|].
  cbn [filterM]. rewrite !bindM_run, !storeShouldNotify_run, !bindM_run.
  rewrite Hs, Ht.
  set (w1' := mkWorld (store w2) (S (ticks w2)) (sends w1) (outbox w1)).
  set (w2' := mkWorld (store w2) (S (ticks w2)) (sends w2) (outbox w2)).
  pose proof (IH w1' w2' eq_refl eq_refl) as Hsame.
  destruct (requestsToNotify_run clock chatId l w1') as (d1 & H1).
  destruct (requestsToNotify_run clock chatId l w2') as (d2 & H2).
  unfold requestsToNotify in H1, H2. rewrite H1, H2 in *. simpl in Hsame.
  by injection Hsame as ->.
Qed.

Lemma recordNotification_stamps (clock : nat → Z) (lo t : nat) (d : Data)
      (chatId : Z) (requestId : string) :
  (lo ≤ t)%nat →
  stampedDuring clock lo (S t)
    (recordNotification (clock t) d chatId requestId) (historyKey chatId requestId).
Proof.
  intros Hlo. unfold stampedDuring, recordNotification. simpl.
  destruct (notificationHistory d !! historyKey chatId requestId) as [old|];
    rewrite lookup_insert_eq; eexists _, t; (split; [reflexivity|]);
    (split; [done|lia]).
Qed.

Lemma recordNotification_keeps (clock : nat → Z) (lo hi t : nat) (d : Data)
      (chatId : Z) (requestId key : string) :
  (lo ≤ t)%nat → (hi ≤ S t)%nat →
  stampedDuring clock lo hi d key →
  stampedDuring clock lo (S t) (recordNotification (clock t) d chatId requestId) key.
Proof.
  intros Hlo Hhi (rec & k & Hrec & Hk & Hrange).
  destruct (decide (key = historyKey chatId requestId)) as [->|Hne].
  - by apply recordNotification_stamps.
  - unfold stampedDuring, recordNotification. simpl.
    exists rec, k.
    destruct (notificationHistory d !! historyKey chatId requestId) as [old|];
      rewrite lookup_insert_ne by done; (split; [done|]); (split; [done|lia]).
Qed.

(** Recording a batch: every id of the batch ends up stamped with a
    clock reading taken during the loop, and nothing else changes in
    the world but the history and the clock. *)
Lemma recordAll_run (clock : nat → Z) (chatId : Z) (due : list string) :
  ∀ (lo : nat) (w : World),
    (lo ≤ ticks w)%nat →
    ∃ d',
      forEach due (storeRecordNotification clock chatId) w
      = (Resolved tt, mkWorld d' (ticks w + length due) (sends w) (outbox w))
      ∧ subscriptions d' = subscriptions (store w)
      ∧ (∀ key, stampedDuring clock lo (ticks w) (store w) key →
                stampedDuring clock lo (ticks w + length due) d' key)
      ∧ (∀ r, r ∈ due →
              stampedDuring clock lo (ticks w + length due) d' (historyKey chatId r)).
Proof.
  induction due as [|r due IH]; intros lo w Hlo.
  - exists (store w). simpl. unfold ret. rewrite Nat.add_0_r, world_eta.
    split; [done|]. split; [done|]. split; [done|]. intros r Hr. by inversion Hr.
  - cbn [forEach]. rewrite bindM_run, storeRecordNotification_run.
    set (w1 := mkWorld (recordNotification (clock (ticks w)) (store w) chatId r)
                       (S (ticks w)) (sends w) (outbox w)).
    destruct (IH lo w1 ltac:(simpl; lia)) as (d' & Hrun & Hsubs & Hkeep & Hnew).
    rewrite Hrun. exists d'. cbn [length store ticks sends outbox w1] in *.
    replace (S (ticks w) + length due)%nat with (ticks w + S (length due))%nat in * by lia.
    split; [done|]. split; [done|]. split.
    + intros key Hkey. apply Hkeep.
      eapply recordNotification_keeps; [done| |exact Hkey]. lia.
    + intros r' Hr'. apply elem_of_cons in Hr' as [->|Hr'].
      * apply Hkeep. by apply recordNotification_stamps.
      * by apply Hnew.
Qed.

Lemma recordAll_same (clock : nat → Z) (chatId : Z) (due : list string) :
  ∀ w1 w2, store w1 = store w2 → ticks w1 = ticks w2 →
           store (forEach due (storeRecordNotification clock chatId) w1).2
           = store (forEach due (storeRecordNotification clock chatId) w2).2
           ∧ ticks (forEach due (storeRecordNotification clock chatId) w1).2
             = ticks (forEach due (storeRecordNotification clock chatId) w2).2.
Proof.
  induction due as [|r due IH]; intros w1 w2 Hs Ht; [done|].
  cbn [forEach]. rewrite !bindM_run, !storeRecordNotification_run.
  rewrite Hs, Ht. by apply IH.
Qed.

(** One chat of [notifyChatsForWallet], step by step. *)
Lemma notifyChat_run (clock : nat → Z) (bot : nat → Z → Message → option JsError)
      (wallet : string) (claimable active : list string) (chatId : Z) (w : World) :
  let d1 := cleanupInactiveRequests (store w) chatId active in
  let t1 := (ticks w + length claimable)%nat in
  ∃ due d',
    requestsToNotify clock chatId claimable
      (mkWorld d1 (ticks w) (sends w) (outbox w))
    = (Resolved due, mkWorld d1 t1 (sends w) (outbox w))
    ∧ notifyChat clock bot wallet claimable active chatId w
      = (Resolved tt,
         match due with
         | [] => mkWorld d1 t1 (sends w) (outbox w)
         | _ =>
             mkWorld d' (t1 + length due) (S (sends w))
               (outbox w
                ++ [(chatId, WithdrawalReady (shortAddress wallet) due,
                     match bot (sends w) chatId
                             (WithdrawalReady (shortAddress wallet) due)
                     with None => true | Some _ => false end)])
         end)
    ∧ store (forEach due (storeRecordNotification clock chatId)
               (mkWorld d1 t1 0 [])).2 = d'
    ∧ subscriptions d' = subscriptions (store w)
    ∧ ∀ r, r ∈ due →
           stampedDuring clock (ticks w) (t1 + length due) d' (historyKey chatId r).
Proof.
  intros d1 t1.
  destruct (requestsToNotify_run clock chatId claimable
              (mkWorld d1 (ticks w) (sends w) (outbox w))) as (due & Hdue).
  cbn [store ticks sends outbox] in Hdue. fold t1 in Hdue.
  set (msg := WithdrawalReady (shortAddress wallet) due).
  set (w2 := mkWorld d1 t1 (S (sends w))
               (outbox w ++ [(chatId, msg,
                              match bot (sends w) chatId msg
                              with None => true | Some _ => false end)])).
  destruct (recordAll_run clock chatId due (ticks w) w2 ltac:(simpl; lia))
    as (d' & Hrec & Hsubs & _ & Hnew).
  exists due, d'. split; [exact Hdue|]. split; [|split; [|split]].
  - unfold notifyChat. rewrite bindM_run.
    change (storeCleanup chatId active w)
      with (Resolved tt, mkWorld d1 (ticks w) (sends w) (outbox w)).
    cbv beta iota. rewrite bindM_run, Hdue. cbv beta iota.
    destruct due as [|r due]; [done|].
    rewrite bindM_run, sendNotification_swallows.
    cbn [store ticks sends outbox].
    fold msg. fold w2. by rewrite Hrec.
  - destruct (recordAll_same clock chatId due (mkWorld d1 t1 0 []) w2 eq_refl eq_refl)
      as [-> _]. by rewrite Hrec.
  - exact Hsubs.
  - exact Hnew.
Qed.

(** What [notifyChat] leaves in the store and on the clock does not
    depend on the bot. *)
Lemma notifyChat_same (clock : nat → Z) (bot1 bot2 : nat → Z → Message → option JsError)
      (wallet : string) (claimable active : list string) (chatId : Z) (w1 w2 : World) :
  store w1 = store w2 → ticks w1 = ticks w2 →
  (notifyChat clock bot1 wallet claimable active chatId w1).1 = Resolved tt
  ∧ (notifyChat clock bot2 wallet claimable active chatId w2).1 = Resolved tt
  ∧ store (notifyChat clock bot1 wallet claimable active chatId w1).2
    = store (notifyChat clock bot2 wallet claimable active chatId w2).2
  ∧ ticks (notifyChat clock bot1 wallet claimable active chatId w1).2
    = ticks (notifyChat clock bot2 wallet claimable active chatId w2).2.
Proof.
  intros Hs Ht.
  destruct (notifyChat_run clock bot1 wallet claimable active chatId w1)
    as (due1 & d1 & Hdue1 & Hrun1 & Hd1 & _).
  destruct (notifyChat_run clock bot2 wallet claimable active chatId w2)
    as (due2 & d2 & Hdue2 & Hrun2 & Hd2 & _).
  rewrite Hrun1, Hrun2.
  pose proof (requestsToNotify_same clock chatId claimable
                (mkWorld (cleanupInactiveRequests (store w1) chatId active)
                         (ticks w1) (sends w1) (outbox w1))
                (mkWorld (cleanupInactiveRequests (store w2) chatId active)
                         (ticks w2) (sends w2) (outbox w2))) as Hsame.
  rewrite Hdue1, Hdue2 in Hsame. simpl in Hsame.
  rewrite Hs, Ht in Hsame. specialize (Hsame eq_refl eq_refl).
  injection Hsame as ->.
  rewrite Hs, Ht in Hd1. rewrite Hd1 in Hd2. subst d2.
  split; [done|]. split; [done|].
  destruct due2; simpl; rewrite ?Hs, ?Ht; done.
Qed.

Lemma notifyChats_same (clock : nat → Z) (bot1 bot2 : nat → Z → Message → option JsError)
      (wallet : string) (claimable active : list string) (chats : list Z) :
  ∀ w1 w2, store w1 = store w2 → ticks w1 = ticks w2 →
           store (forEach chats (notifyChat clock bot1 wallet claimable active) w1).2
           = store (forEach chats (notifyChat clock bot2 wallet claimable active) w2).2.
Proof.
  induction chats as [|c chats IH]; intros w1 w2 Hs Ht; [done|].
  cbn [forEach]. rewrite !bindM_run.
  destruct (notifyChat_same clock bot1 bot2 wallet claimable active c w1 w2 Hs Ht)
    as (H1 & H2 & Hs' & Ht').
  destruct (notifyChat clock bot1 wallet claimable active c w1) as [[[]|?] w1'];
    [|done].
  destruct (notifyChat clock bot2 wallet claimable active c w2) as [[[]|?] w2'];
    [|done].
  by apply IH.
Qed.

(** C10. Suppose the batched notification for a chat throws when it
    is delivered. [sendNotification] swallows the error, so
    [notifyChat] (the loop body of [notifyChatsForWallet]) completes;
    the message is in the outbox as not delivered; and every due
    request id has a history record stamped during this call, so that
    [shouldNotify] stays false until the chat's frequency has elapsed
    since that stamp. The store ends up the same as with a bot that
    delivers everything, for the chat and for the whole of
    [notifyChatsForWallet]. *)
Theorem failed_delivery_still_recorded
        (clock : nat → Z) (bot : nat → Z → Message → option JsError)
        (wallet : string) (claimable active : list string)
        (chatId : Z) (w : World) (e : JsError) :
  let due :=
    match (requestsToNotify clock chatId claimable
             (storeCleanup chatId active w).2).1 with
    | Resolved l => l
    | Rejected _ => []
    end in
  let w' := (notifyChat clock bot wallet claimable active chatId w).2 in
  due ≠ [] →
  bot (sends w) chatId (WithdrawalReady (shortAddress wallet) due) = Some e →
  (∀ w0, (sendNotification bot chatId wallet due w0).1 = Resolved tt)
  ∧ (notifyChat clock bot wallet claimable active chatId w).1 = Resolved tt
  ∧ outbox w'
    = outbox w ++ [(chatId, WithdrawalReady (shortAddress wallet) due, false)]
  ∧ (∀ r, r ∈ due →
       ∃ rec k,
         notificationHistory (store w') !! historyKey chatId r = Some rec
         ∧ lastNotifiedAt rec = clock k
         ∧ (ticks w ≤ k < ticks w')%nat
         ∧ ∀ sub t,
             subscriptions (store w') !! chatId = Some sub →
             t - clock k < frequencySeconds sub * 1000 →
             shouldNotify t (store w') chatId r = false)
  ∧ store w'
    = store (notifyChat clock (λ _ _ _, None) wallet claimable active chatId w).2
  ∧ store (notifyChatsForWallet clock bot wallet claimable active w).2
    = store (notifyChatsForWallet clock (λ _ _ _, None)
               wallet claimable active w).2.
Proof.
  intros due w'.
  destruct (notifyChat_run clock bot wallet claimable active chatId w)
    as (due0 & d' & Hdue & Hrun & _ & Hsubs & Hnew).
  assert (due = due0) as Hd.
  { unfold due.
    change (storeCleanup chatId active w).2
      with (mkWorld (cleanupInactiveRequests (store w) chatId active)
                    (ticks w) (sends w) (outbox w)).
    by rewrite Hdue. }
  clearbody due. subst due0. intros Hne Hbot.
  assert (w' = mkWorld d' (ticks w + length claimable + length due) (S (sends w))
                 (outbox w
                  ++ [(chatId, WithdrawalReady (shortAddress wallet) due, false)]))
    as Hw'.
  { unfold w'. rewrite Hrun. simpl. rewrite Hbot. by destruct due. }
  clearbody w'. subst w'. cbn [store ticks sends outbox].
  split; [|split; [|split; [|split; [|split]]]].
  - intros w0. by rewrite sendNotification_swallows.
  - by rewrite Hrun.
  - done.
  - intros r Hr. destruct (Hnew r Hr) as (rec & k & Hrec & Hk & Hrange).
    exists rec, k. split; [done|]. split; [done|]. split; [lia|].
    intros sub t Hsub Hlt. unfold shouldNotify. rewrite Hsub, Hrec, Hk.
    apply Z.leb_gt. lia.
  - destruct (notifyChat_same clock bot (λ _ _ _, None) wallet claimable active
                chatId w w eq_refl eq_refl) as (_ & _ & <- & _).
    by rewrite Hrun; destruct due.
  - unfold notifyChatsForWallet. by apply notifyChats_same.
Qed.

Lemma failed_delivery_still_recorded_witness :
  let due :=
    match (requestsToNotify Demo.clock 42 ["1"; "2"]%string
             (storeCleanup 42 ["1"; "2"; "3"]%string Demo.world).2).1 with
    | Resolved l => l
    | Rejected _ => []
    end in
  let w' := (notifyChat Demo.clock Demo.blockedBot "0xABCDEF0123456789"
               ["1"; "2"]%string ["1"; "2"; "3"]%string 42 Demo.world).2 in
  (∀ w0, (sendNotification Demo.blockedBot 42 "0xABCDEF0123456789" due w0).1
         = Resolved tt)
  ∧ (notifyChat Demo.clock Demo.blockedBot "0xABCDEF0123456789"
       ["1"; "2"]%string ["1"; "2"; "3"]%string 42 Demo.world).1 = Resolved tt
  ∧ outbox w'
    = outbox Demo.world
      ++ [(42, WithdrawalReady (shortAddress "0xABCDEF0123456789") due, false)]
  ∧ (∀ r, r ∈ due →
       ∃ rec k,
         notificationHistory (store w') !! historyKey 42 r = Some rec
         ∧ lastNotifiedAt rec = Demo.clock k
         ∧ (ticks Demo.world ≤ k < ticks w')%nat
         ∧ ∀ sub t,
             subscriptions (store w') !! 42 = Some sub →
             t - Demo.clock k < frequencySeconds sub * 1000 →
             shouldNotify t (store w') 42 r = false)
  ∧ store w'
    = store (notifyChat Demo.clock (λ _ _ _, None) "0xABCDEF0123456789"
               ["1"; "2"]%string ["1"; "2"; "3"]%string 42 Demo.world).2
  ∧ store (notifyChatsForWallet Demo.clock Demo.blockedBot "0xABCDEF0123456789"
             ["1"; "2"]%string ["1"; "2"; "3"]%string Demo.world).2
    = store (notifyChatsForWallet Demo.clock (λ _ _ _, None) "0xABCDEF0123456789"
               ["1"; "2"]%string ["1"; "2"; "3"]%string Demo.world).2.
Proof.
  apply (failed_delivery_still_recorded Demo.clock Demo.blockedBot
           "0xABCDEF0123456789" ["1"; "2"]%string ["1"; "2"; "3"]%string
           42 Demo.world
           (mkError (Some "403: Forbidden: bot was blocked by the user"%string))).
  - vm_compute. discriminate.
  - reflexivity.
Defined.

(** *** Completion *)

Lemma storeShouldSendCompletion_run (clock : nat → Z) (chatId requestCount : Z)
      (w : World) :
  storeShouldSendCompletion clock chatId requestCount w
  = (Resolved (shouldSendCompletion (clock (ticks w)) (store w) chatId requestCount).1,
     mkWorld (shouldSendCompletion (clock (ticks w)) (store w) chatId requestCount).2
             (S (ticks w)) (sends w) (outbox w)).
Proof.
  unfold storeShouldSendCompletion. rewrite bindM_run.
  unfold dateNow, withStore. cbn [store ticks sends outbox].
  by destruct (shouldSendCompletion (clock (ticks w)) (store w) chatId requestCount).
Qed.

Lemma storeMarkCompletionSent_run (clock : nat → Z) (chatId : Z) (w : World) :
  storeMarkCompletionSent clock chatId w
  = (Resolved tt,
     mkWorld (markCompletionSent (clock (ticks w)) (store w) chatId)
             (S (ticks w)) (sends w) (outbox w)).
Proof. reflexivity. Qed.

(** With a bot that delivers, one chat of [handleAllRequestsInactive]
    does to the store what a zero-count cycle of the completion pathway
    does, after the history of the chat has been emptied. *)
Lemma completeChat_delivering (clock : nat → Z)
      (bot : nat → Z → Message → option JsError) (chatId : Z) (w : World) :
  bot (sends w) chatId AllClaimed = None →
  (completeChat clock bot chatId w).1 = Resolved tt
  ∧ store (completeChat clock bot chatId w).2
    = (completionCycle (cleanupInactiveRequests (store w) chatId []) chatId
         (0, clock (ticks w), clock (S (ticks w)))).2.
Proof.
  intros Hbot. unfold completeChat, completionCycle.
  rewrite bindM_run.
  change (storeCleanup chatId [] w)
    with (Resolved tt,
          mkWorld (cleanupInactiveRequests (store w) chatId [])
                  (ticks w) (sends w) (outbox w)).
  cbv beta iota. rewrite bindM_run, storeShouldSendCompletion_run.
  cbn [store ticks sends outbox].
  destruct (shouldSendCompletion (clock (ticks w))
              (cleanupInactiveRequests (store w) chatId []) chatId 0)
    as [[|] d1]; cbn [fst snd]; [|split; reflexivity].
  unfold tryM. rewrite !bindM_run. unfold sendMessage.
  cbn [store ticks sends outbox]. rewrite !Hbot.
  rewrite !storeMarkCompletionSent_run. split; reflexivity.
Qed.

(** When the delivery throws, the completion is not marked as sent, so
    the next zero-count cycle tries again. *)
Lemma completeChat_failed_delivery (clock : nat → Z)
      (bot : nat → Z → Message → option JsError) (chatId : Z) (w : World)
      (e : JsError) :
  bot (sends w) chatId AllClaimed = Some e →
  (completeChat clock bot chatId w).1 = Resolved tt
  ∧ store (completeChat clock bot chatId w).2
    = (shouldSendCompletion (clock (ticks w))
         (cleanupInactiveRequests (store w) chatId []) chatId 0).2.
Proof.
  intros Hbot. unfold completeChat.
  rewrite bindM_run.
  change (storeCleanup chatId [] w)
    with (Resolved tt,
          mkWorld (cleanupInactiveRequests (store w) chatId [])
                  (ticks w) (sends w) (outbox w)).
  cbv beta iota. rewrite bindM_run, storeShouldSendCompletion_run.
  cbn [store ticks sends outbox].
  destruct (shouldSendCompletion (clock (ticks w))
              (cleanupInactiveRequests (store w) chatId []) chatId 0)
    as [[|] d1]; cbn [fst snd]; [|split; reflexivity].
  unfold tryM. rewrite !bindM_run. unfold sendMessage.
  cbn [store ticks sends outbox]. rewrite !Hbot. split; reflexivity.
Qed.

End PollerProps.

(** * Further properties *)

(** ** Strings and keys *)

Module KeyFacts.
Import Store.

Lemma app_cons (c : ascii) (a b : string) : String c a +:+ b = String c (a +:+ b).
Proof. reflexivity. Qed.

Lemma app_assoc_colon (a r : string) : a +:+ ":" +:+ r = (a +:+ ":") +:+ r.
Proof.
  induction a as [|c a IH]; [reflexivity|].
  change (String c (a +:+ ":" +:+ r) = String c ((a +:+ ":") +:+ r)). by rewrite IH.
Qed.

Lemma toLowerCase_app (a b : string) :
  toLowerCase (a +:+ b) = toLowerCase a +:+ toLowerCase b.
Proof.
  induction a as [|c a IH]; [reflexivity|].
  rewrite app_cons. cbn [toLowerCase]. rewrite app_cons. by rewrite IH.
Qed.

Lemma lower_ascii_idemp (c : ascii) : lower_ascii (lower_ascii c) = lower_ascii c.
Proof.
  unfold lower_ascii at 2 3.
  destruct ((65 <=? nat_of_ascii c)%nat && (nat_of_ascii c <=? 90)%nat)%bool eqn:Hup.
  - apply andb_true_iff in Hup as [H1 H2].
    apply Nat.leb_le in H1. apply Nat.leb_le in H2.
    unfold lower_ascii. rewrite nat_ascii_embedding by lia.
    replace ((nat_of_ascii c + 32 <=? 90)%nat) with false
      by (symmetry; apply Nat.leb_gt; lia).
    by rewrite andb_false_r.
  - unfold lower_ascii. by rewrite Hup.
Qed.

Lemma toLowerCase_idemp (s : string) : toLowerCase (toLowerCase s) = toLowerCase s.
Proof.
  induction s as [|c s IH]; [reflexivity|].
  cbn [toLowerCase]. by rewrite lower_ascii_idemp, IH.
Qed.

Lemma prefix_app (p s : string) : String.prefix p (p +:+ s) = true.
Proof.
  induction p as [|c p IH]; [by destruct s|].
  rewrite app_cons. cbn [String.prefix].
  destruct (ascii_dec c c); [exact IH|congruence].
Qed.

Lemma substring_all (s : string) : String.substring 0 (String.length s) s = s.
Proof. induction s as [|c s IH]; [reflexivity|]. cbn. by rewrite IH. Qed.

Lemma string_length_app (a b : string) :
  String.length (a +:+ b) = (String.length a + String.length b)%nat.
Proof.
  induction a as [|c a IH]; [reflexivity|]. rewrite app_cons. cbn. by rewrite IH.
Qed.

Lemma sliceFrom_app (p s : string) : sliceFrom (String.length p) (p +:+ s) = s.
Proof.
  unfold sliceFrom. rewrite string_length_app.
  replace (String.length p + String.length s - String.length p)%nat
    with (String.length s) by lia.
  induction p as [|c p IH]; [apply substring_all|].
  rewrite app_cons. exact IH.
Qed.

(** A colon-free string followed by a colon is a prefix of another such
    string (followed by anything) only when the two are the same. *)
Lemma prefix_colon (a b r : string) :
  colonFree a = true → colonFree b = true →
  String.prefix (a +:+ ":") (b +:+ ":" +:+ r) = true → a = b.
Proof.
  revert b. induction a as [|c a IH]; intros [|c' b] Ha Hb Hpre.
  - done.
  - change (String.prefix (String ":" "") (String c' (b +:+ ":" +:+ r)) = true) in Hpre.
    cbn [String.prefix] in Hpre.
    destruct (ascii_dec ":" c') as [<-|]; [|discriminate]. cbn in Hb. discriminate.
  - change (String.prefix (String c (a +:+ ":")) (String ":" r) = true) in Hpre.
    cbn [String.prefix] in Hpre.
    destruct (ascii_dec c ":") as [->|]; [|discriminate]. cbn in Ha. discriminate.
  - change (String.prefix (String c (a +:+ ":")) (String c' (b +:+ ":" +:+ r)) = true)
      in Hpre.
    cbn [String.prefix] in Hpre.
    destruct (ascii_dec c c') as [<-|]; [|discriminate].
    cbn [colonFree] in Ha, Hb.
    apply andb_true_iff in Ha as [_ Ha]. apply andb_true_iff in Hb as [_ Hb].
    f_equal. by apply IH.
Qed.

Lemma pretty_N_go_colonFree (x : N) :
  ∀ s, colonFree s = true → colonFree (pretty_N_go x s) = true.
Proof.
  induction (N.lt_wf_0 x) as [x _ IH]; intros s Hs.
  assert (x = 0 ∨ 0 < x)%N as [->|Hpos] by lia.
  - by rewrite pretty_N_go_0.
  - rewrite pretty_N_go_step by done. apply IH.
    { by apply N.div_lt. }
    cbn [colonFree]. rewrite Hs, andb_true_r.
    unfold pretty_N_char. by repeat case_match.
Qed.

Lemma pretty_Z_colonFree (z : Z) : colonFree (pretty z) = true.
Proof.
  assert (∀ p : positive, colonFree (pretty p) = true) as Hpos.
  { intros p. unfold pretty, pretty_positive, pretty, pretty_N.
    case_decide; [done|]. by apply pretty_N_go_colonFree. }
  destruct z as [|p|p]; unfold pretty, pretty_Z; [done|apply Hpos|].
  rewrite app_cons. cbn [colonFree]. apply Hpos.
Qed.

(** The keys of the notification history tell chats and requests
    apart. *)
Lemma historyKey_inj (c c' : Z) (r r' : string) :
  historyKey c r = historyKey c' r' → c = c' ∧ r = r'.
Proof.
  unfold historyKey. intros Heq.
  assert (pretty c = pretty c') as Hc.
  { apply (prefix_colon _ _ r'); [apply pretty_Z_colonFree..|].
    rewrite <- Heq, app_assoc_colon. apply prefix_app. }
  rewrite Hc in Heq. apply (inj (String.app _)) in Heq.
  change (String ":" r = String ":" r') in Heq. injection Heq as Hr.
  split; [by apply (inj pretty)|exact Hr].
Qed.

Lemma startsWith_historyKey (c c' : Z) (r : string) :
  startsWith (historyPrefix c) (historyKey c' r) = bool_decide (c = c').
Proof.
  unfold startsWith, historyPrefix, historyKey.
  case_bool_decide as Hc.
  - subst c'. rewrite app_assoc_colon. apply prefix_app.
  - destruct (String.prefix _ _) eqn:Hpre; [|done].
    apply prefix_colon in Hpre; [|apply pretty_Z_colonFree..].
    destruct Hc. by apply (inj pretty).
Qed.

Lemma sliceFrom_historyKey (c : Z) (r : string) :
  sliceFrom (String.length (historyPrefix c)) (historyKey c r) = r.
Proof.
  unfold historyPrefix, historyKey. rewrite app_assoc_colon. apply sliceFrom_app.
Qed.

End KeyFacts.

(** ** More on the store *)

Module StoreFacts.
Import Store KeyFacts.

(** X1. What [subscribe] stores is what [getSubscription] reads back, with
    the wallet in lower case; the other chats are as before, the chat's
    completion status is gone and the notification history is kept. *)
Theorem subscribe_roundtrip
        (now1 now2 : Z) (d : Data) (chatId : Z) (wallet : string) (frequency : Z) :
  let d' := subscribe now1 now2 d chatId wallet frequency in
  getSubscription d' chatId
  = Some (mkSubscriptionInfo (toLowerCase wallet) frequency true)
  ∧ (∀ other, other ≠ chatId →
       getSubscription d' other = getSubscription d other
       ∧ completionStatus d' !! other = completionStatus d !! other)
  ∧ completionStatus d' !! chatId = None
  ∧ notificationHistory d' = notificationHistory d.
Proof.
  unfold getSubscription, subscribe. simpl. repeat split.
  - by rewrite lookup_insert_eq.
  - by rewrite lookup_insert_ne.
  - by rewrite lookup_delete_ne.
  - by rewrite lookup_delete_eq.
Qed.

(** X2. Subscribing again, for instance to change the frequency, keeps the
    notification records: a request already announced is due again only
    when the new frequency has elapsed since the old announcement. *)
Theorem resubscribe_keeps_history
        (now1 now2 : Z) (d : Data) (chatId : Z) (wallet : string) (frequency : Z)
        (requestId : string) (rec : NotificationRecord) (t : Z) :
  notificationHistory d !! historyKey chatId requestId = Some rec →
  shouldNotify t (subscribe now1 now2 d chatId wallet frequency) chatId requestId
  = (frequency * 1000 <=? t - lastNotifiedAt rec).
Proof.
  intros Hrec. unfold shouldNotify, subscribe. simpl.
  by rewrite lookup_insert_eq, Hrec.
Qed.

Lemma resubscribe_keeps_history_witness :
  shouldNotify 6000 (subscribe 5500 5500 Demo.notified 42 "0xABCDEF0123456789" 21600)
               42 "9"
  = (21600 * 1000 <=? 6000 - lastNotifiedAt (mkRecord 5000 5000)).
Proof.
  apply (resubscribe_keeps_history 5500 5500 Demo.notified 42 "0xABCDEF0123456789"
           21600 "9" (mkRecord 5000 5000) 6000).
  vm_compute. reflexivity.
Defined.

(** X3. [unsubscribe] on a chat that is not subscribed answers [false] and
    changes nothing. On a subscribed chat it answers [true] and removes
    the subscription, the completion status and every notification
    record of the chat, and nothing of any other chat. *)
Theorem unsubscribe_removes_the_chat_only (d : Data) (chatId : Z) :
  (subscriptions d !! chatId = None → unsubscribe d chatId = (false, d))
  ∧ (is_Some (subscriptions d !! chatId) →
     (unsubscribe d chatId).1 = true
     ∧ getSubscription (unsubscribe d chatId).2 chatId = None
     ∧ completionStatus (unsubscribe d chatId).2 !! chatId = None
     ∧ (∀ requestId,
          notificationHistory (unsubscribe d chatId).2 !! historyKey chatId requestId
          = None)
     ∧ ∀ other, other ≠ chatId →
         getSubscription (unsubscribe d chatId).2 other = getSubscription d other
         ∧ completionStatus (unsubscribe d chatId).2 !! other
           = completionStatus d !! other
         ∧ ∀ requestId,
             notificationHistory (unsubscribe d chatId).2 !! historyKey other requestId
             = notificationHistory d !! historyKey other requestId).
Proof.
  unfold unsubscribe, getSubscription. split.
  - by intros ->.
  - intros [sub ->]. simpl. split; [done|].
    split; [by rewrite lookup_delete_eq|].
    split; [by rewrite lookup_delete_eq|]. split.
    + intros requestId. apply map_lookup_filter_None. right.
      intros rec _. simpl. rewrite startsWith_historyKey.
      by rewrite bool_decide_eq_true_2.
    + intros other Hother. rewrite !lookup_delete_ne by done.
      split; [done|]. split; [done|]. intros requestId.
      rewrite map_lookup_filter.
      destruct (notificationHistory d !! historyKey other requestId) as [rec|];
        [|done].
      simpl. rewrite startsWith_historyKey.
      rewrite bool_decide_eq_false_2 by done. by rewrite option_guard_True.
Qed.

(** X4. After [unsubscribe] nothing is due for the chat; when the chat
    subscribes again, every request is new to it and is due at once. *)
Theorem unsubscribe_then_subscribe_starts_afresh
        (now1 now2 t : Z) (d : Data) (chatId : Z) (wallet : string) (frequency : Z)
        (requestId : string) :
  is_Some (subscriptions d !! chatId) →
  shouldNotify t (unsubscribe d chatId).2 chatId requestId = false
  ∧ shouldNotify t
      (subscribe now1 now2 (unsubscribe d chatId).2 chatId wallet frequency)
      chatId requestId = true.
Proof.
  intros [sub Hsub]. unfold shouldNotify, unsubscribe. rewrite Hsub. simpl. split.
  - by rewrite lookup_delete_eq.
  - rewrite lookup_insert_eq.
    replace (filter _ (notificationHistory d) !! historyKey chatId requestId)
      with (@None NotificationRecord); [done|].
    symmetry. apply map_lookup_filter_None. right.
    intros rec _. simpl. rewrite startsWith_historyKey.
    by rewrite bool_decide_eq_true_2.
Qed.

Lemma unsubscribe_then_subscribe_starts_afresh_witness :
  shouldNotify 6000 (unsubscribe Demo.notified 42).2 42 "9" = false
  ∧ shouldNotify 6000
      (subscribe 5500 5500 (unsubscribe Demo.notified 42).2 42
                 "0xABCDEF0123456789" 86400)
      42 "9" = true.
Proof.
  apply (unsubscribe_then_subscribe_starts_afresh 5500 5500 6000 Demo.notified 42
           "0xABCDEF0123456789" 86400 "9").
  vm_compute. eauto.
Defined.

Lemma cleanup_lookup_active
      (d : Data) (chatId : Z) (activeRequestIds : list string) (requestId : string) :
  requestId ∈ activeRequestIds →
  notificationHistory (cleanupInactiveRequests d chatId activeRequestIds)
    !! historyKey chatId requestId
  = notificationHistory d !! historyKey chatId requestId.
Proof.
  intros Hin. unfold cleanupInactiveRequests. simpl. rewrite map_lookup_filter.
  destruct (notificationHistory d !! historyKey chatId requestId) as [rec|]; [|done].
  simpl. unfold keptByCleanup.
  rewrite startsWith_historyKey, bool_decide_eq_true_2 by done.
  rewrite sliceFrom_historyKey, bool_decide_eq_true_2 by done.
  by rewrite option_guard_True.
Qed.

(** X5. [cleanupInactiveRequests] keeps, among the records of the chat,
    exactly those of the active requests, and it keeps every record of
    every other chat. *)
Theorem cleanup_keeps_active_records
        (d : Data) (chatId : Z) (activeRequestIds : list string) (requestId : string) :
  notificationHistory (cleanupInactiveRequests d chatId activeRequestIds)
    !! historyKey chatId requestId
  = (if bool_decide (requestId ∈ activeRequestIds)
     then notificationHistory d !! historyKey chatId requestId
     else None)
  ∧ ∀ other, other ≠ chatId →
      notificationHistory (cleanupInactiveRequests d chatId activeRequestIds)
        !! historyKey other requestId
      = notificationHistory d !! historyKey other requestId.
Proof.
  unfold cleanupInactiveRequests. simpl. split.
  - rewrite map_lookup_filter.
    destruct (notificationHistory d !! historyKey chatId requestId) as [rec|];
      [|by case_bool_decide].
    simpl. unfold keptByCleanup.
    rewrite startsWith_historyKey, bool_decide_eq_true_2 by done.
    rewrite sliceFrom_historyKey.
    case_bool_decide.
    + by rewrite option_guard_True.
    + by rewrite option_guard_False.
  - intros other Hother. rewrite map_lookup_filter.
    destruct (notificationHistory d !! historyKey other requestId) as [rec|];
      [|done].
    simpl. unfold keptByCleanup.
    rewrite startsWith_historyKey, bool_decide_eq_false_2 by done.
    by rewrite option_guard_True.
Qed.

(** X6. Recording a notification for one (chat, request) pair changes the
    answer of [shouldNotify] for no other pair. *)
Theorem recordNotification_touches_one_pair
        (now t : Z) (d : Data) (chatId other : Z) (requestId otherId : string) :
  (other, otherId) ≠ (chatId, requestId) →
  shouldNotify t (recordNotification now d chatId requestId) other otherId
  = shouldNotify t d other otherId.
Proof.
  intros Hne. unfold shouldNotify, recordNotification. simpl.
  assert (historyKey chatId requestId ≠ historyKey other otherId) as Hkey.
  { intros Heq. apply historyKey_inj in Heq as [-> ->]. done. }
  destruct (subscriptions d !! other); [|done].
  by destruct (notificationHistory d !! historyKey chatId requestId);
    rewrite lookup_insert_ne.
Qed.

Lemma recordNotification_touches_one_pair_witness :
  shouldNotify 6000 (recordNotification 5000 Demo.store 42 "9") 42 "19"
  = shouldNotify 6000 Demo.store 42 "19".
Proof.
  apply (recordNotification_touches_one_pair 5000 6000 Demo.store 42 42 "9" "19").
  discriminate.
Defined.

Lemma last_cons_default {A} (l : list A) :
  ∀ a d, List.last (a :: l) d = List.last l a.
Proof.
  induction l as [|b l IH]; intros a d; [done|].
  change (List.last (a :: b :: l) d) with (List.last (b :: l) d).
  by rewrite !IH.
Qed.

(** X7. However often a notification is recorded for a pair, the record
    keeps the time of the first one and carries the time of the last
    one. *)
Theorem recordNotification_first_and_last
        (d : Data) (chatId : Z) (requestId : string) (t0 : Z) (later : list Z) :
  notificationHistory
    (foldl (λ d' t, recordNotification t d' chatId requestId) d (t0 :: later))
    !! historyKey chatId requestId
  = Some (mkRecord
            (match notificationHistory d !! historyKey chatId requestId with
             | Some old => firstNotifiedAt old
             | None => t0
             end)
            (List.last later t0)).
Proof.
  revert d t0. induction later as [|t later IH]; intros d t0.
  - simpl. by destruct (notificationHistory d !! historyKey chatId requestId);
      rewrite lookup_insert_eq.
  - change (foldl _ d (t0 :: t :: later))
      with (foldl (λ d' t, recordNotification t d' chatId requestId)
                  (recordNotification t0 d chatId requestId) (t :: later)).
    rewrite IH.
    rewrite last_cons_default.
    f_equal. f_equal. unfold recordNotification. simpl.
    by destruct (notificationHistory d !! historyKey chatId requestId);
      rewrite lookup_insert_eq.
Qed.

(** *** Who follows which wallet *)

Lemma omap_fst_sublist {A B} (f : A * B → option A) (l : list (A * B)) :
  (∀ kv a, f kv = Some a → a = kv.1) →
  omap f l `sublist_of` l.*1.
Proof.
  intros Hf. induction l as [|kv l IH]; simpl; [constructor|].
  destruct (f kv) as [a|] eqn:Hkv.
  - rewrite (Hf _ _ Hkv). by constructor.
  - by constructor.
Qed.

Lemma getChatsForWallet_elem (d : Data) (wallet : string) (chatId : Z) :
  chatId ∈ getChatsForWallet d wallet ↔
  ∃ sub, subscriptions d !! chatId = Some sub
         ∧ active sub = true
         ∧ walletAddress sub = toLowerCase wallet.
Proof.
  unfold getChatsForWallet. rewrite list_elem_of_omap. split.
  - intros ([c sub] & Hin & Hf). apply elem_of_map_to_list in Hin.
    destruct (active sub && (walletAddress sub =? toLowerCase wallet)%string)%bool
      eqn:Hcond; [|done].
    injection Hf as ->. apply andb_true_iff in Hcond as [Hact Hw].
    apply String.eqb_eq in Hw. eauto.
  - intros (sub & Hsub & Hact & Hw). exists (chatId, sub).
    split; [by apply elem_of_map_to_list|].
    rewrite Hact, Hw, String.eqb_refl. done.
Qed.

Lemma getChatsForWallet_NoDup (d : Data) (wallet : string) :
  NoDup (getChatsForWallet d wallet).
Proof.
  unfold getChatsForWallet.
  eapply sublist_NoDup; [apply (NoDup_fst_map_to_list (subscriptions d))|].
  apply omap_fst_sublist. intros [c sub] a. simpl.
  by destruct (active sub && _)%bool; intros [= <-].
Qed.

(** X8. [getChatsForWallet] lists, each once, exactly the chats with an
    active subscription whose stored wallet is the lower-cased query;
    so a chat is found under any spelling of the wallet it subscribed
    with. *)
Theorem getChatsForWallet_finds_subscribers
        (d : Data) (wallet : string) (chatId : Z) :
  (chatId ∈ getChatsForWallet d wallet ↔
   ∃ sub, subscriptions d !! chatId = Some sub
          ∧ active sub = true
          ∧ walletAddress sub = toLowerCase wallet)
  ∧ NoDup (getChatsForWallet d wallet)
  ∧ ∀ now1 now2 spelling frequency,
      toLowerCase spelling = toLowerCase wallet →
      chatId ∈ getChatsForWallet
                 (subscribe now1 now2 d chatId spelling frequency) wallet.
Proof.
  split; [apply getChatsForWallet_elem|]. split.
  - apply getChatsForWallet_NoDup.
  - intros now1 now2 spelling frequency Hsp. apply getChatsForWallet_elem.
    eexists. unfold subscribe. simpl. rewrite lookup_insert_eq.
    split; [reflexivity|]. simpl. done.
Qed.

Lemma setAdd_spec (wallets : list string) (w x : string) :
  NoDup wallets →
  NoDup (setAdd wallets w)
  ∧ (x ∈ setAdd wallets w ↔ x ∈ wallets ∨ x = w)
  ∧ (length (setAdd wallets w) ≤ S (length wallets))%nat.
Proof.
  intros Hnd. unfold setAdd. case_bool_decide as Hin.
  - split; [done|]. split; [|lia]. split; [by left|]. by intros [?| ->].
  - split.
    + apply NoDup_app. split; [done|]. split; [|apply NoDup_singleton].
      intros y Hy Hy'. apply list_elem_of_singleton in Hy' as ->. done.
    + split; [|rewrite length_app; simpl; lia].
      rewrite elem_of_app, list_elem_of_singleton. done.
Qed.

Lemma monitored_fold (l : list (Z * Subscription)) :
  ∀ acc, NoDup acc →
    let result :=
      foldl (λ wallets (kv : Z * Subscription),
               if active kv.2 then setAdd wallets (walletAddress kv.2) else wallets)
            acc l in
    NoDup result
    ∧ (∀ x, x ∈ result ↔
            x ∈ acc ∨ ∃ kv, kv ∈ l ∧ active kv.2 = true ∧ walletAddress kv.2 = x)
    ∧ (length result
       ≤ length acc
         + length (List.filter (λ kv : Z * Subscription, active kv.2) l))%nat.
Proof.
  induction l as [|kv l IH]; intros acc Hnd; simpl.
  - split; [done|]. split; [|lia]. intros x. split; [by left|].
    intros [?|(kv & Hkv & _)]; [done|by inversion Hkv].
  - destruct (active kv.2) eqn:Hact.
    + destruct (setAdd_spec acc (walletAddress kv.2) (walletAddress kv.2) Hnd)
        as (Hnd' & _ & Hlen).
      destruct (IH _ Hnd') as (H1 & H2 & H3).
      split; [done|]. split; [|simpl; lia].
      intros x. rewrite H2.
      destruct (setAdd_spec acc (walletAddress kv.2) x Hnd) as (_ & Hx & _).
      rewrite Hx. split.
      * intros [[?| ->]|(kv' & Hin & ? & ?)]; [by left| |].
        -- right. exists kv. split; [by left|done].
        -- right. exists kv'. split; [by right|done].
      * intros [?|(kv' & Hin & Ha & Hw)]; [by left; left|].
        apply elem_of_cons in Hin as [->|Hin]; [left; by right|].
        right. by exists kv'.
    + destruct (IH _ Hnd) as (H1 & H2 & H3).
      split; [done|]. split; [|done].
      intros x. rewrite H2. split.
      * intros [?|(kv' & Hin & ? & ?)]; [by left|].
        right. exists kv'. split; [by right|done].
      * intros [?|(kv' & Hin & Ha & Hw)]; [by left|].
        apply elem_of_cons in Hin as [->|Hin]; [congruence|].
        right. by exists kv'.
Qed.

(** X9. [getAllMonitoredWallets] lists, each once, exactly the wallets of
    the active subscriptions. *)
Theorem getAllMonitoredWallets_lists_active_wallets (d : Data) (wallet : string) :
  NoDup (getAllMonitoredWallets d)
  ∧ (wallet ∈ getAllMonitoredWallets d ↔
     ∃ chatId sub, subscriptions d !! chatId = Some sub
                   ∧ active sub = true
                   ∧ walletAddress sub = wallet).
Proof.
  unfold getAllMonitoredWallets.
  destruct (monitored_fold (map_to_list (subscriptions d)) [] (NoDup_nil_2))
    as (Hnd & Hmem & _).
  split; [exact Hnd|]. rewrite Hmem. split.
  - intros [Hnil|([c sub] & Hin & Hact & Hw)]; [by inversion Hnil|].
    apply elem_of_map_to_list in Hin. eauto.
  - intros (c & sub & Hsub & Hact & Hw). right. exists (c, sub).
    split; [by apply elem_of_map_to_list|done].
Qed.

(** X10. In the statistics there are never more wallets than active
    subscriptions, nor more active subscriptions than subscriptions. *)
Theorem getStats_counts_are_ordered (d : Data) :
  (totalWallets (getStats d) ≤ totalSubscriptions (getStats d))%nat
  ∧ (totalSubscriptions (getStats d) ≤ size (subscriptions d))%nat.
Proof.
  unfold getStats, getAllMonitoredWallets. simpl. split.
  - destruct (monitored_fold (map_to_list (subscriptions d)) [] (NoDup_nil_2))
      as (_ & _ & Hlen). simpl in Hlen. exact Hlen.
  - rewrite <- length_map_to_list. apply List.filter_length_le.
Qed.

(** *** Completion messages *)

(** X11. [shouldSendCompletion] answers [true] exactly when the count is
    zero and the chat's status, if there is one, is not marked as
    sent. *)
Theorem shouldSendCompletion_answer
        (now : Z) (d : Data) (chatId requestCount : Z) :
  (shouldSendCompletion now d chatId requestCount).1
  = ((requestCount =? 0)
     && negb (match completionStatus d !! chatId with
              | Some status => completionSent status
              | None => false
              end))%bool.
Proof.
  unfold shouldSendCompletion.
  destruct (completionStatus d !! chatId) as [status|]; simpl;
    [|by rewrite andb_true_r].
  destruct (requestCount =? 0) eqn:H0.
  - apply Z.eqb_eq in H0 as ->. change (0 <? 0) with false.
    rewrite andb_false_r. simpl.
    destruct (completionSent status); simpl; [|done].
    by destruct (negb (lastRequestCount status =? 0)).
  - destruct ((lastRequestCount status =? 0) && (0 <? requestCount))%bool; [done|].
    simpl. by destruct (negb (lastRequestCount status =? requestCount)).
Qed.

Lemma zero_cycles_after_sent (chatId : Z) (times : list (Z * Z)) :
  ∀ d status,
    completionStatus d !! chatId = Some status →
    completionSent status = true →
    (completionCycles d chatId (map (λ p : Z * Z, (0, p.1, p.2)) times)).1
    = replicate (length times) false.
Proof.
  induction times as [|[t1 t2] times IH]; intros d status Hst Hsent; [done|].
  cbn [map length replicate completionCycles completionCycle fst snd].
  unfold shouldSendCompletion. rewrite Hst, Hsent.
  change (0 <? 0) with false. rewrite andb_false_r.
  change ((0 =? 0) && negb true)%bool with false. cbv iota.
  destruct (negb (lastRequestCount status =? 0)).
  - specialize (IH
      {| subscriptions := subscriptions d;
         notificationHistory := notificationHistory d;
         completionStatus := <[chatId := mkStatus true 0 t1]> (completionStatus d) |}
      (mkStatus true 0 t1)).
    destruct (completionCycles _ chatId _) as [sends d2] eqn:Hrest.
    simpl in *. f_equal. apply IH; [by rewrite lookup_insert_eq|done].
  - specialize (IH d status Hst Hsent).
    destruct (completionCycles d chatId _) as [sends d2] eqn:Hrest.
    simpl in *. by f_equal.
Qed.

(** X12. Once the completion message has been marked as sent, no run of
    zero-count cycles, however long, asks for it again. *)
Theorem completion_not_repeated_while_zero
        (now : Z) (d : Data) (chatId : Z) (times : list (Z * Z)) :
  (completionCycles (markCompletionSent now d chatId) chatId
     (map (λ p : Z * Z, (0, p.1, p.2)) times)).1
  = replicate (length times) false.
Proof.
  eapply zero_cycles_after_sent.
  - unfold markCompletionSent. simpl. by rewrite lookup_insert_eq.
  - reflexivity.
Qed.

(** X13. A wallet whose active count goes n, 0, m, 0 (n and m positive):
    the first zero asks for the completion message; the second zero
    asks for it again exactly when m differs from n. When the count
    comes back to the value it had before the first zero, the second
    completion is not announced. *)
Theorem completion_after_one_zero_cycle
        (d : Data) (chatId n m : Z) (t1 t2 t3 t4 t5 t6 t7 t8 : Z) :
  completionStatus d !! chatId = None →
  0 < n → 0 < m →
  (completionCycles d chatId
     [(n, t1, t2); (0, t3, t4); (m, t5, t6); (0, t7, t8)]).1
  = [false; true; false; negb (m =? n)].
Proof.
  intros Hnone Hn Hm.
  assert ((n =? 0) = false) as Hn0 by (apply Z.eqb_neq; lia).
  assert ((m =? 0) = false) as Hm0 by (apply Z.eqb_neq; lia).
  assert ((0 <? m) = true) as Hmpos by (by apply Z.ltb_lt).
  cbn [completionCycles completionCycle].
  unfold shouldSendCompletion at 1. rewrite Hnone. cbn. rewrite Hn0.
  unfold shouldSendCompletion at 1. cbn. rewrite lookup_insert_eq. cbn.
  rewrite Hn0. cbn.
  unfold shouldSendCompletion at 1, markCompletionSent at 1. cbn.
  rewrite !lookup_insert_eq. cbn. rewrite Hn0, Hm0. cbn.
  destruct (n =? m) eqn:Hnm; cbn.
  - apply Z.eqb_eq in Hnm as <-. rewrite Z.eqb_refl. cbn.
    unfold shouldSendCompletion at 1. cbn. rewrite !lookup_insert_eq. cbn.
    rewrite Hn0. cbn. reflexivity.
  - rewrite Z.eqb_sym, Hnm. cbn.
    unfold shouldSendCompletion at 1. cbn. rewrite !lookup_insert_eq. cbn.
    rewrite Hm0, Hmpos. cbn. reflexivity.
Qed.

Lemma completion_after_one_zero_cycle_witness :
  (completionCycles Demo.store 42 [(3, 1, 2); (0, 3, 4); (3, 5, 6); (0, 7, 8)]).1
  = [false; true; false; negb (3 =? 3)].
Proof.
  apply (completion_after_one_zero_cycle Demo.store 42 3 3 1 2 3 4 5 6 7 8).
  - vm_compute. reflexivity.
  - lia.
  - lia.
Defined.

(** X14. After [resetCompletionStatus], and after [subscribe], the next
    cycle asks for the completion message exactly when its count is
    zero. *)
Theorem completion_starts_over_after_reset
        (now now1 now2 : Z) (d : Data) (chatId requestCount : Z)
        (wallet : string) (frequency : Z) :
  (shouldSendCompletion now (resetCompletionStatus d chatId) chatId requestCount).1
  = (requestCount =? 0)
  ∧ (shouldSendCompletion now (subscribe now1 now2 d chatId wallet frequency)
       chatId requestCount).1
    = (requestCount =? 0).
Proof.
  unfold shouldSendCompletion, resetCompletionStatus, subscribe. simpl.
  by rewrite lookup_delete_eq.
Qed.

End StoreFacts.

(** ** More on the resilient provider *)

Module ProviderFacts.
Import Provider ProviderProps KeyFacts.

Lemma count_sleeps_app (ev1 ev2 : list Event) :
  count_sleeps (ev1 ++ ev2) = (count_sleeps ev1 + count_sleeps ev2)%nat.
Proof. induction ev1 as [|e ev1 IH]; simpl; [done|]. rewrite IH. lia. Qed.

Lemma count_successes_app (ev1 ev2 : list Event) :
  count_successes (ev1 ++ ev2) = (count_successes ev1 + count_successes ev2)%nat.
Proof. induction ev1 as [|e ev1 IH]; simpl; [done|]. rewrite IH. lia. Qed.

Lemma lastFailure_app (ev1 ev2 : list Event) :
  lastFailure (ev1 ++ ev2)
  = match lastFailure ev2 with
    | Some later => Some later
    | None => lastFailure ev1
    end.
Proof.
  induction ev1 as [|e ev1 IH]; simpl.
  - by destruct (lastFailure ev2).
  - rewrite IH. by destruct (lastFailure ev2).
Qed.

(** One endpoint's attempts stay within the attempt budget. *)
Lemma attemptLoop_budget {T} (fn : nat → nat → Settled T) (operationName : string)
      (provider remaining : nat) :
  ∀ attempt this st ev this' st' r,
    attemptLoop fn operationName provider remaining attempt this st
    = (ev, this', st', r) →
    (count_calls ev ≤ remaining)%nat
    ∧ (count_sleeps ev ≤ maxRetries this - 1 - attempt)%nat
    ∧ (count_resets ev ≤ 1)%nat
    ∧ (r = None → count_resets ev = 0%nat).
Proof.
  induction remaining as [|rem IH]; intros attempt this st ev this' st' r Hrun.
  - simpl in Hrun. injection Hrun as <- <- <- <-. simpl. repeat split; lia.
  - cbn [attemptLoop] in Hrun.
    destruct (attemptOutcome fn operationName this (invocations st) provider)
      as [v|e].
    + destruct (currentProviderIndex this =? 0)%nat;
        injection Hrun as <- <- <- <-; simpl; repeat split; (lia || done).
    + destruct (isNonRetryableError e).
      { injection Hrun as <- <- <- <-. simpl. repeat split; lia. }
      destruct (attempt <? maxRetries this - 1)%nat eqn:Hlt;
        destruct (attemptLoop fn operationName provider rem (S attempt) this _)
          as [[[ev1 this1] st1] r1] eqn:Hrec;
        injection Hrun as <- <- <- <-;
        apply IH in Hrec as (H1 & H2 & H3 & H4); simpl.
      * apply Nat.ltb_lt in Hlt. repeat split; (lia || done).
      * repeat split; (lia || done).
Qed.

Lemma providerLoop_budget {T} (fn : nat → nat → Settled T) (operationName : string)
      (remaining : nat) :
  ∀ providerAttempt this st ev this' out,
    providerLoop fn operationName remaining providerAttempt this st
    = (ev, this', out) →
    (count_calls ev ≤ remaining * maxRetries this)%nat
    ∧ (count_sleeps ev ≤ remaining * (maxRetries this - 1))%nat
    ∧ (count_switches ev ≤ providers_length this - 1 - providerAttempt)%nat
    ∧ (count_resets ev ≤ 1)%nat.
Proof.
  induction remaining as [|rem IH];
    intros providerAttempt this st ev this' out Hrun.
  - simpl in Hrun. injection Hrun as <- <- <-. simpl. repeat split; lia.
  - cbn [providerLoop] in Hrun.
    destruct (attemptLoop fn operationName (currentProviderIndex this)
                          (maxRetries this) 0 this st)
      as [[[ev1 this1] st1] r1] eqn:Hin.
    pose proof (attemptLoop_this _ _ _ _ _ _ _ _ _ _ _ Hin) as Hthis.
    pose proof (attemptLoop_no_switch _ _ _ _ _ _ _ _ _ _ _ Hin) as Hnosw.
    apply attemptLoop_budget in Hin as (H1 & H2 & H3 & H4).
    destruct r1 as [v|].
    { injection Hrun as <- <- <-. repeat split; [nia|nia|lia|done]. }
    subst this1. specialize (H4 eq_refl).
    destruct (providerAttempt <? providers_length this - 1)%nat eqn:Hlt.
    + apply Nat.ltb_lt in Hlt.
      destruct (providerLoop fn operationName rem (S providerAttempt) _ _)
        as [[ev2 this2] out2] eqn:Hrec.
      injection Hrun as <- <- <-.
      apply IH in Hrec as (G1 & G2 & G3 & G4).
      change (maxRetries (switchToNextProvider this)) with (maxRetries this) in *.
      change (providers_length (switchToNextProvider this))
        with (providers_length this) in *.
      rewrite count_calls_app, count_sleeps_app, count_switches_app,
        count_resets_app. simpl.
      repeat split; [nia|nia|lia|lia].
    + destruct (providerLoop fn operationName rem (S providerAttempt) this st1)
        as [[ev2 this2] out2] eqn:Hrec.
      injection Hrun as <- <- <-.
      apply IH in Hrec as (G1 & G2 & G3 & G4).
      rewrite count_calls_app, count_sleeps_app, count_switches_app,
        count_resets_app.
      repeat split; [nia|nia|lia|lia].
Qed.

(** X15. Whatever the operation does, one [executeWithRetry] call invokes it
    at most N*M times, sleeps at most N*(M-1) times, rotates at most
    N-1 times and resets the cursor at most once. *)
Theorem executeWithRetry_stays_within_budget
        {T : Type} (fn : nat → nat → Settled T) (operationName : string)
        (this : ResilientProvider) :
  let ev := (executeWithRetry fn operationName this).1.1 in
  (count_calls ev ≤ providers_length this * maxRetries this)%nat
  ∧ (count_sleeps ev ≤ providers_length this * (maxRetries this - 1))%nat
  ∧ (count_switches ev ≤ providers_length this - 1)%nat
  ∧ (count_resets ev ≤ 1)%nat.
Proof.
  destruct (executeWithRetry fn operationName this) as [[ev this'] out] eqn:Hrun.
  unfold executeWithRetry in Hrun.
  apply providerLoop_budget in Hrun as (H1 & H2 & H3 & H4). simpl.
  repeat split; [done|done|lia|done].
Qed.

(** *** What a call returns *)

Lemma attemptLoop_outcome {T} (fn : nat → nat → Settled T) (operationName : string)
      (provider remaining : nat) :
  ∀ attempt this st ev this' st' r,
    attemptLoop fn operationName provider remaining attempt this st
    = (ev, this', st', r) →
    invocations st' = (invocations st + count_calls ev)%nat
    ∧ lastError st'
      = match lastFailure ev with Some e => Some e | None => lastError st end
    ∧ match r with
      | Some v =>
          ∃ pre tail,
            ev = pre ++ Call provider None :: tail
            ∧ count_successes pre = 0%nat
            ∧ (tail = [] ∨ tail = [ResetPrimary])
            ∧ attemptOutcome fn operationName this
                (invocations st + count_calls pre) provider = Resolved v
      | None => count_successes ev = 0%nat
      end.
Proof.
  induction remaining as [|rem IH]; intros attempt this st ev this' st' r Hrun.
  - simpl in Hrun. injection Hrun as <- <- <- <-. simpl. repeat split; lia.
  - cbn [attemptLoop] in Hrun.
    destruct (attemptOutcome fn operationName this (invocations st) provider)
      as [v|e] eqn:Hout.
    + destruct (currentProviderIndex this =? 0)%nat;
        injection Hrun as <- <- <- <-; simpl;
        (split; [lia|]); (split; [done|]); exists []; eexists;
        (split; [reflexivity|]); (split; [done|]);
        (split; [auto|]); simpl; by rewrite Nat.add_0_r.
    + destruct (isNonRetryableError e).
      { injection Hrun as <- <- <- <-. simpl. repeat split; lia. }
      destruct (attempt <? maxRetries this - 1)%nat;
        destruct (attemptLoop fn operationName provider rem (S attempt) this _)
          as [[[ev1 this1] st1] r1] eqn:Hrec;
        injection Hrun as <- <- <- <-;
        apply IH in Hrec as (Hinv & Hlast & Hres); simpl in Hinv, Hlast.
      * split; [simpl; lia|]. split.
        { simpl. rewrite Hlast. by destruct (lastFailure ev1). }
        destruct r1 as [v|]; [|done].
        destruct Hres as (pre & tail & -> & Hpre & Htail & Hv).
        exists (Call provider (Some e) :: Sleep (delay st) :: pre), tail.
        split; [done|]. split; [done|]. split; [done|].
        simpl in Hv. simpl.
        by replace (invocations st + S (count_calls pre))%nat
          with (S (invocations st) + count_calls pre)%nat by lia.
      * split; [simpl; lia|]. split.
        { simpl. rewrite Hlast. by destruct (lastFailure ev1). }
        destruct r1 as [v|]; [|done].
        destruct Hres as (pre & tail & -> & Hpre & Htail & Hv).
        exists (Call provider (Some e) :: pre), tail.
        split; [done|]. split; [done|]. split; [done|].
        simpl in Hv. simpl.
        by replace (invocations st + S (count_calls pre))%nat
          with (S (invocations st) + count_calls pre)%nat by lia.
Qed.

Lemma providerLoop_outcome {T} (fn : nat → nat → Settled T) (operationName : string)
      (remaining : nat) :
  ∀ providerAttempt this st ev this' out,
    validIndex this →
    (providerAttempt + remaining = providers_length this)%nat →
    providerLoop fn operationName remaining providerAttempt this st
    = (ev, this', out) →
    match out with
    | Resolved v =>
        ∃ pre p tail,
          ev = pre ++ Call p None :: tail
          ∧ count_successes pre = 0%nat
          ∧ (tail = [] ∨ tail = [ResetPrimary])
          ∧ attemptOutcome fn operationName this
              (invocations st + count_calls pre) p = Resolved v
    | Rejected e =>
        count_successes ev = 0%nat
        ∧ count_resets ev = 0%nat
        ∧ count_switches ev = (providers_length this - 1 - providerAttempt)%nat
        ∧ currentProviderIndex this'
          = ((currentProviderIndex this + count_switches ev)
               `mod` providers_length this)%nat
        ∧ e = mkError (Some
                (operationName +:+ " failed after trying all "
                   +:+ pretty (providers_length this) +:+ " providers: "
                   +:+ or_string
                         (match lastFailure ev with
                          | Some x => Some x
                          | None => lastError st
                          end ≫= message) "Unknown error"))
    end.
Proof.
  induction remaining as [|rem IH];
    intros providerAttempt this st ev this' out Hvalid Hsum Hrun.
  - simpl in Hrun. injection Hrun as <- <- <-. simpl.
    split; [done|]. split; [done|]. split; [lia|].
    split; [|done]. rewrite Nat.add_0_r. symmetry. by apply Nat.mod_small.
  - cbn [providerLoop] in Hrun.
    destruct (attemptLoop fn operationName (currentProviderIndex this)
                          (maxRetries this) 0 this st)
      as [[[ev1 this1] st1] r1] eqn:Hin.
    pose proof (attemptLoop_this _ _ _ _ _ _ _ _ _ _ _ Hin) as Hthis.
    pose proof (attemptLoop_no_switch _ _ _ _ _ _ _ _ _ _ _ Hin) as Hnosw.
    pose proof (attemptLoop_budget _ _ _ _ _ _ _ _ _ _ _ Hin) as (_ & _ & _ & Hnores).
    apply attemptLoop_outcome in Hin as (Hinv & Hlast & Hres).
    destruct r1 as [v|].
    { injection Hrun as <- <- <-.
      destruct Hres as (pre & tail & -> & ? & ? & ?).
      by exists pre, (currentProviderIndex this), tail. }
    subst this1. specialize (Hnores eq_refl).
    destruct (providerAttempt <? providers_length this - 1)%nat eqn:Hlt.
    + apply Nat.ltb_lt in Hlt.
      destruct (providerLoop fn operationName rem (S providerAttempt) _ _)
        as [[ev2 this2] out2] eqn:Hrec.
      injection Hrun as <- <- <-.
      apply IH in Hrec;
        [|by apply switchToNextProvider_valid
         |change (providers_length (switchToNextProvider this))
            with (providers_length this); lia].
      change (providers_length (switchToNextProvider this))
        with (providers_length this) in Hrec.
      change (currentProviderIndex (switchToNextProvider this))
        with ((currentProviderIndex this + 1) `mod` providers_length this)%nat
        in Hrec.
      destruct out2 as [v|e].
      * destruct Hrec as (pre & p & tail & -> & Hpre & Htail & Hv).
        exists (ev1 ++ Switch ((currentProviderIndex this + 1)
                                 `mod` providers_length this)%nat :: pre), p, tail.
        split; [by rewrite <- app_assoc|].
        split; [rewrite count_successes_app; simpl; lia|]. split; [done|].
        simpl in Hv. rewrite Hinv in Hv. rewrite count_calls_app. simpl.
        by rewrite Nat.add_assoc.
      * destruct Hrec as (G1 & G2 & G3 & G4 & ->).
        rewrite count_successes_app, count_resets_app, count_switches_app. simpl.
        split; [lia|]. split; [lia|]. split; [lia|]. split.
        -- rewrite G4, Hnosw, Nat.Div0.add_mod_idemp_l. f_equal. lia.
        -- simpl. rewrite lastFailure_app. simpl. rewrite Hlast.
           destruct (lastFailure ev2); [done|]. by destruct (lastFailure ev1).
    + apply Nat.ltb_ge in Hlt. assert (rem = 0)%nat as -> by lia.
      simpl in Hrun. injection Hrun as <- <- <-. rewrite app_nil_r.
      split; [done|]. split; [done|]. split; [lia|]. split.
      * rewrite Hnosw, Nat.add_0_r. symmetry. by apply Nat.mod_small.
      * unfold exhaustedMessage. by rewrite Hlast.
Qed.

(** X16. When [executeWithRetry] returns a value, it is the value the last
    invocation of the operation fulfilled with; every invocation before
    it failed, and nothing follows it but the reset of the cursor. *)
Theorem executeWithRetry_returns_the_fulfilled_value
        {T : Type} (fn : nat → nat → Settled T) (operationName : string)
        (this : ResilientProvider) (v : T) :
  validIndex this →
  (executeWithRetry fn operationName this).2 = Resolved v →
  ∃ pre p tail,
    (executeWithRetry fn operationName this).1.1 = pre ++ Call p None :: tail
    ∧ count_successes pre = 0%nat
    ∧ (tail = [] ∨ tail = [ResetPrimary])
    ∧ attemptOutcome fn operationName this (count_calls pre) p = Resolved v.
Proof.
  intros Hvalid Hout.
  destruct (executeWithRetry fn operationName this) as [[ev this'] out] eqn:Hrun.
  unfold executeWithRetry in Hrun.
  apply providerLoop_outcome in Hrun; [|done|lia].
  simpl in Hout. subst out. exact Hrun.
Qed.

Lemma executeWithRetry_returns_the_fulfilled_value_witness :
  ∃ pre p tail,
    (executeWithRetry Demo.revertedThenFine "call" Demo.provider).1.1
    = pre ++ Call p None :: tail
    ∧ count_successes pre = 0%nat
    ∧ (tail = [] ∨ tail = [ResetPrimary])
    ∧ attemptOutcome Demo.revertedThenFine "call" Demo.provider (count_calls pre) p
      = Resolved 7%nat.
Proof.
  apply (executeWithRetry_returns_the_fulfilled_value
           Demo.revertedThenFine "call" Demo.provider 7%nat).
  - vm_compute. lia.
  - vm_compute. reflexivity.
Defined.



(** *** Time spent backing off *)

Lemma sleeps_app (ev1 ev2 : list Event) : sleeps (ev1 ++ ev2) = sleeps ev1 ++ sleeps ev2.
Proof. unfold sleeps. apply omap_app. Qed.

Lemma totalSleep_app (ev1 ev2 : list Event) :
  totalSleep (ev1 ++ ev2) = totalSleep ev1 + totalSleep ev2.
Proof.
  unfold totalSleep. rewrite sleeps_app.
  induction (sleeps ev1) as [|x l IH]; simpl; [done|]. rewrite IH. lia.
Qed.

Lemma backoff_nonneg (base max : Z) (k : nat) :
  0 <= base → base <= max → 0 <= backoff base max k.
Proof.
  intros Hb Hle. unfold backoff.
  assert (0 < 2 ^ Z.of_nat k) by (apply Z.pow_pos_nonneg; lia). nia.
Qed.

Lemma backoff_sum_nonneg (base max : Z) (k n : nat) :
  0 <= base → base <= max →
  0 <= foldr Z.add 0 (map (backoff base max) (seq k n)).
Proof.
  intros Hb Hle. revert k. induction n as [|n IH]; intros k; simpl; [done|].
  pose proof (backoff_nonneg base max k Hb Hle). specialize (IH (S k)). lia.
Qed.

Lemma backoff_sum_prefix (base max : Z) (n m : nat) :
  0 <= base → base <= max → (n ≤ m)%nat →
  foldr Z.add 0 (map (backoff base max) (seq 0 n))
  <= foldr Z.add 0 (backoffSequence base max m).
Proof.
  intros Hb Hle Hnm. unfold backoffSequence.
  replace m with (n + (m - n))%nat by lia.
  rewrite seq_app, map_app, foldr_app.
  pose proof (backoff_sum_nonneg base max (0 + n) (m - n) Hb Hle) as Htail.
  generalize dependent (foldr Z.add 0 (map (backoff base max) (seq (0 + n) (m - n)))).
  intros tail Htail.
  induction (map (backoff base max) (seq 0 n)) as [|x l IH]; simpl; lia.
Qed.

Lemma providerLoop_total_sleep {T} (fn : nat → nat → Settled T) (operationName : string)
      (remaining : nat) :
  ∀ providerAttempt this st ev this' out,
    0 <= retryDelay this → retryDelay this <= maxRetryDelay this →
    delay st = retryDelay this →
    (providerAttempt + remaining = providers_length this)%nat →
    providerLoop fn operationName remaining providerAttempt this st
    = (ev, this', out) →
    0 <= totalSleep ev
    <= Z.of_nat remaining
       * foldr Z.add 0 (backoffSequence (retryDelay this) (maxRetryDelay this)
                                        (maxRetries this - 1)).
Proof.
  induction remaining as [|rem IH];
    intros providerAttempt this st ev this' out Hb Hle Hd Hsum Hrun.
  - simpl in Hrun. injection Hrun as <- <- <-. by cbn.
  - cbn [providerLoop] in Hrun.
    destruct (attemptLoop fn operationName (currentProviderIndex this)
                          (maxRetries this) 0 this st)
      as [[[ev1 this1] st1] r1] eqn:Hin.
    pose proof (attemptLoop_this _ _ _ _ _ _ _ _ _ _ _ Hin) as Hthis.
    apply (attemptLoop_sleeps _ _ _ _ _ _ _ 0%nat) in Hin as (Hsw & n & Hsl & Hn);
      [|done|by rewrite Hd, backoff_0].
    assert (0 <= totalSleep ev1
            <= foldr Z.add 0 (backoffSequence (retryDelay this) (maxRetryDelay this)
                                              (maxRetries this - 1))) as Hfirst.
    { unfold totalSleep. rewrite Hsl. split.
      - by apply backoff_sum_nonneg.
      - apply backoff_sum_prefix; [done|done|lia]. }
    pose proof (backoff_sum_nonneg (retryDelay this) (maxRetryDelay this) 0
                  (maxRetries this - 1) Hb Hle) as Hw.
    fold (backoffSequence (retryDelay this) (maxRetryDelay this)
                          (maxRetries this - 1)) in Hw.
    destruct r1 as [v|].
    { injection Hrun as <- <- <-. nia. }
    subst this1.
    destruct (providerAttempt <? providers_length this - 1)%nat eqn:Hlt.
    + destruct (providerLoop fn operationName rem (S providerAttempt) _ _)
        as [[ev2 this2] out2] eqn:Hrec.
      injection Hrun as <- <- <-.
      apply IH in Hrec; [|done|done|done|
        change (providers_length (switchToNextProvider this))
          with (providers_length this); lia].
      change (retryDelay (switchToNextProvider this)) with (retryDelay this) in Hrec.
      change (maxRetryDelay (switchToNextProvider this))
        with (maxRetryDelay this) in Hrec.
      change (maxRetries (switchToNextProvider this)) with (maxRetries this) in Hrec.
      rewrite totalSleep_app.
      change (totalSleep (Switch _ :: ev2)) with (totalSleep ev2). nia.
    + apply Nat.ltb_ge in Hlt. assert (rem = 0)%nat as -> by lia.
      simpl in Hrun. injection Hrun as <- <- <-. rewrite app_nil_r. nia.
Qed.

(** X18. With [0 <= retryDelay <= maxRetryDelay], the time one
    [executeWithRetry] call spends sleeping is at most N times the sum
    of the first M-1 backoff delays, whatever the operation does. *)
Theorem executeWithRetry_total_sleep_bounded
        {T : Type} (fn : nat → nat → Settled T) (operationName : string)
        (this : ResilientProvider) :
  0 <= retryDelay this →
  retryDelay this <= maxRetryDelay this →
  0 <= totalSleep (executeWithRetry fn operationName this).1.1
  <= Z.of_nat (providers_length this)
     * foldr Z.add 0 (backoffSequence (retryDelay this) (maxRetryDelay this)
                                      (maxRetries this - 1)).
Proof.
  intros Hb Hle.
  destruct (executeWithRetry fn operationName this) as [[ev this'] out] eqn:Hrun.
  unfold executeWithRetry in Hrun.
  by apply providerLoop_total_sleep in Hrun.
Qed.

Lemma executeWithRetry_total_sleep_bounded_witness :
  0 <= totalSleep (executeWithRetry Demo.revertedThenFine "call" Demo.provider).1.1
  <= Z.of_nat (providers_length Demo.provider)
     * foldr Z.add 0 (backoffSequence (retryDelay Demo.provider)
                                      (maxRetryDelay Demo.provider)
                                      (maxRetries Demo.provider - 1)).
Proof.
  apply (executeWithRetry_total_sleep_bounded
           Demo.revertedThenFine "call" Demo.provider).
  - vm_compute. discriminate.
  - vm_compute. discriminate.
Defined.

(** *** Which errors are not retried *)

Lemma prefix_spec (p s : string) :
  String.prefix p s = true ↔ ∃ b, s = p +:+ b.
Proof.
  split.
  - revert s. induction p as [|c p IH]; intros s Hpre; [by exists s|].
    destruct s as [|c' s]; [done|]. cbn [String.prefix] in Hpre.
    destruct (ascii_dec c c') as [<-|]; [|done].
    destruct (IH s Hpre) as [b ->]. by exists b.
  - intros [b ->]. apply KeyFacts.prefix_app.
Qed.

Lemma includes_unfold (pat s : string) :
  includes pat s
  = if String.prefix pat s then true
    else match s with
         | EmptyString => false
         | String _ s' => includes pat s'
         end.
Proof. by destruct s. Qed.

(** [includes] is the substring test. *)
Lemma includes_spec (pat s : string) :
  includes pat s = true ↔ ∃ a b, s = a +:+ pat +:+ b.
Proof.
  split.
  - induction s as [|c s IH]; rewrite includes_unfold;
      destruct (String.prefix pat _) eqn:Hpre.
    + apply prefix_spec in Hpre as [b Hb]. by exists "", b.
    + done.
    + apply prefix_spec in Hpre as [b Hb]. by exists "", b.
    + intros Hin. destruct (IH Hin) as (a & b & ->). by exists (String c a), b.
  - intros (a & b & ->). induction a as [|c a IH]; rewrite includes_unfold.
    + change ("" +:+ pat +:+ b) with (pat +:+ b). by rewrite KeyFacts.prefix_app.
    + change (String c a +:+ pat +:+ b) with (String c (a +:+ pat +:+ b)).
      by destruct (String.prefix pat _).
Qed.

(** X19. An error is not retried exactly when it has a message that, in
    lower case, contains one of the six patterns; an error without a
    message is retried. *)
Theorem isNonRetryableError_spec (e : JsError) :
  isNonRetryableError e = true ↔
  ∃ m pattern a b,
    message e = Some m
    ∧ pattern ∈ nonRetryablePatterns
    ∧ toLowerCase m = a +:+ pattern +:+ b.
Proof.
  unfold isNonRetryableError. rewrite existsb_exists.
  destruct (message e) as [m|]; cbn [fmap option_fmap option_map].
  - assert (or_string (Some (toLowerCase m)) "" = toLowerCase m) as ->.
    { by destruct (toLowerCase m). }
    split.
    + intros (pat & Hin & Hinc). apply includes_spec in Hinc as (a & b & Hab).
      exists m, pat, a, b. split; [done|]. split; [|done].
      by apply list_elem_of_In.
    + intros (m' & pat & a & b & [= <-] & Hin & Hab). exists pat.
      split; [by apply list_elem_of_In|]. apply includes_spec. eauto.
  - split.
    + intros (pat & Hin & Hinc). exfalso. simpl in Hin.
      repeat (destruct Hin as [<-|Hin]; [by vm_compute in Hinc|]). done.
    + intros (m & ? & ? & ? & ? & _). done.
Qed.

(** *** A complete outage *)

Section Outage.
Context {T : Type}.
Variable fn : nat → nat → Settled T.
Variable operationName : string.
Variable this : ResilientProvider.

Hypothesis always_retryable :
  ∀ i p, ∃ e, attemptOutcome fn operationName this i p = Rejected e
              ∧ isNonRetryableError e = false.

Hypothesis delays_ordered : retryDelay this <= maxRetryDelay this.

Lemma attemptLoop_outage_sleeps (provider remaining : nat) :
  ∀ (attempt cursor k : nat) (st : Locals),
    (attempt + remaining = maxRetries this)%nat →
    delay st = backoff (retryDelay this) (maxRetryDelay this) k →
    sleeps (attemptLoop fn operationName provider remaining attempt
                        (set_index this cursor) st).1.1.1
    = map (backoff (retryDelay this) (maxRetryDelay this)) (seq k (remaining - 1)).
Proof.
  induction remaining as [|r IH]; intros attempt cursor k st Hsum Hd; [done|].
  destruct (always_retryable (invocations st) provider) as (e & He & Hre).
  cbn [attemptLoop].
  change (attemptOutcome fn operationName (set_index this cursor))
    with (attemptOutcome fn operationName this).
  rewrite He, Hre.
  change (maxRetries (set_index this cursor)) with (maxRetries this).
  change (maxRetryDelay (set_index this cursor)) with (maxRetryDelay this).
  destruct (attempt <? maxRetries this - 1)%nat eqn:Hlt.
  - apply Nat.ltb_lt in Hlt.
    specialize (IH (S attempt) cursor (S k)
                   (mkLocals (Some e)
                             (Z.min (delay st * 2) (maxRetryDelay this))
                             (S (invocations st)))).
    destruct (attemptLoop fn operationName provider r (S attempt) _ _)
      as [[[ev1 this1] st1] r1].
    simpl in IH. simpl. rewrite IH; [|lia|simpl; rewrite Hd; by apply backoff_step].
    destruct r as [|r]; [lia|]. simpl. rewrite Nat.sub_0_r. by rewrite Hd.
  - apply Nat.ltb_ge in Hlt. assert (r = 0)%nat as -> by lia. done.
Qed.

Lemma attemptLoop_outage (cursor : nat) (st : Locals) :
  delay st = retryDelay this →
  ∃ ev st1,
    attemptLoop fn operationName cursor (maxRetries this) 0 (set_index this cursor) st
    = (ev, set_index this cursor, st1, None)
    ∧ count_switches ev = 0%nat
    ∧ sleeps ev
      = backoffSequence (retryDelay this) (maxRetryDelay this) (maxRetries this - 1).
Proof.
  intros Hd.
  pose proof (attemptLoop_outage_sleeps cursor (maxRetries this) 0 cursor 0 st
                eq_refl) as Hsl.
  destruct (attemptLoop_all_fail fn operationName this always_retryable
              cursor (maxRetries this) 0 cursor st eq_refl)
    as (ev & st1 & Hrun & _).
  exists ev, st1. split; [exact Hrun|]. split.
  - by eapply attemptLoop_no_switch.
  - rewrite Hrun in Hsl. apply Hsl. rewrite Hd. symmetry. by apply backoff_0.
Qed.

Lemma providerLoop_outage_sleeps (remaining : nat) :
  ∀ (providerAttempt cursor : nat) (st : Locals),
    (providerAttempt + remaining = providers_length this)%nat →
    delay st = retryDelay this →
    sleepsByEndpoint
      (providerLoop fn operationName remaining providerAttempt
                    (set_index this cursor) st).1.1
    = match remaining with
      | O => [[]]
      | S _ =>
          replicate remaining
            (backoffSequence (retryDelay this) (maxRetryDelay this)
                             (maxRetries this - 1))
      end.
Proof.
  induction remaining as [|rem IH]; intros providerAttempt cursor st Hsum Hd; [done|].
  cbn [providerLoop].
  change (maxRetries (set_index this cursor)) with (maxRetries this).
  change (currentProviderIndex (set_index this cursor)) with cursor.
  destruct (attemptLoop_outage cursor st Hd) as (ev & st1 & -> & Hnosw & Hsl).
  change (providers_length (set_index this cursor)) with (providers_length this).
  destruct (providerAttempt <? providers_length this - 1)%nat eqn:Hlt.
  - apply Nat.ltb_lt in Hlt. unfold switchToNextProvider.
    set (c2 := ((currentProviderIndex (set_index this cursor) + 1)
                  `mod` providers_length (set_index this cursor))%nat).
    change (set_index (set_index this cursor) c2) with (set_index this c2).
    specialize (IH (S providerAttempt) c2
                   (mkLocals (lastError st1) (retryDelay (set_index this c2))
                             (invocations st1))).
    destruct (providerLoop fn operationName rem (S providerAttempt) _ _)
      as [[ev2 this2] out2].
    cbn [fst snd] in *. unfold sleepsByEndpoint in *.
    rewrite segments_app_switch by done. cbn [map].
    rewrite IH by (done || lia). rewrite Hsl.
    destruct rem as [|rem]; [lia|]. done.
  - apply Nat.ltb_ge in Hlt. assert (rem = 0)%nat as -> by lia.
    cbn [providerLoop fst snd]. rewrite app_nil_r. unfold sleepsByEndpoint.
    rewrite segments_no_switch by done. cbn [map replicate]. by rewrite Hsl.
Qed.

End Outage.

(** X20. When every invocation fails with a retryable error (and
    [retryDelay <= maxRetryDelay]), every endpoint gets the whole
    backoff sequence: M-1 sleeps on each of the N endpoints. *)
Theorem outage_runs_the_whole_backoff
        {T : Type} (fn : nat → nat → Settled T) (operationName : string)
        (this : ResilientProvider) :
  (1 ≤ providers_length this)%nat →
  retryDelay this <= maxRetryDelay this →
  (∀ i p, ∃ e, attemptOutcome fn operationName this i p = Rejected e
               ∧ isNonRetryableError e = false) →
  sleepsByEndpoint (executeWithRetry fn operationName this).1.1
  = replicate (providers_length this)
      (backoffSequence (retryDelay this) (maxRetryDelay this) (maxRetries this - 1)).
Proof.
  intros HN Hle Hfail. unfold executeWithRetry.
  destruct (providers_length this) as [|n] eqn:HNeq; [lia|].
  rewrite <- (set_index_self this) at 1.
  rewrite (providerLoop_outage_sleeps fn operationName this Hfail Hle (S n) 0
             (currentProviderIndex this)); [done|lia|done].
Qed.

Lemma outage_runs_the_whole_backoff_witness :
  sleepsByEndpoint (executeWithRetry Demo.alwaysFails "call" Demo.provider).1.1
  = replicate (providers_length Demo.provider)
      (backoffSequence (retryDelay Demo.provider) (maxRetryDelay Demo.provider)
                       (maxRetries Demo.provider - 1)).
Proof.
  apply (outage_runs_the_whole_backoff Demo.alwaysFails "call" Demo.provider).
  - vm_compute. lia.
  - vm_compute. discriminate.
  - intros i p. eexists. split; reflexivity.
Defined.

(** *** Endpoints that hang *)

Lemma string_app_assoc (a b c : string) : a +:+ b +:+ c = (a +:+ b) +:+ c.
Proof.
  induction a as [|x a IH]; [reflexivity|].
  change (String x (a +:+ b +:+ c) = String x ((a +:+ b) +:+ c)). by rewrite IH.
Qed.

Lemma pretty_N_go_chars (P : ascii → bool) (x : N) :
  forallChars P "0123456789" = true →
  ∀ s, forallChars P s = true → forallChars P (pretty_N_go x s) = true.
Proof.
  intros HP. induction (N.lt_wf_0 x) as [x _ IH]; intros s Hs.
  assert (x = 0 ∨ 0 < x)%N as [->|Hpos] by lia.
  - by rewrite pretty_N_go_0.
  - rewrite pretty_N_go_step by done. apply IH.
    { by apply N.div_lt. }
    cbn [forallChars]. rewrite Hs, andb_true_r.
    cbn [forallChars] in HP.
    repeat (apply andb_true_iff in HP as [? HP]).
    unfold pretty_N_char. by repeat case_match.
Qed.

(** The decimal text of an integer is made of digits and the minus
    sign. *)
Lemma pretty_Z_chars (P : ascii → bool) (z : Z) :
  forallChars P "-0123456789" = true → forallChars P (pretty z) = true.
Proof.
  intros HP. cbn [forallChars] in HP. apply andb_true_iff in HP as [Hminus HP].
  assert (∀ p : positive, forallChars P (pretty p) = true) as Hpos.
  { intros p. unfold pretty, pretty_positive, pretty, pretty_N.
    case_decide; [done|]. by apply pretty_N_go_chars. }
  destruct z as [|p|p]; unfold pretty, pretty_Z.
  - repeat (apply andb_true_iff in HP as [? HP]). cbn [forallChars].
    by rewrite andb_true_r.
  - apply Hpos.
  - rewrite app_cons. cbn [forallChars]. rewrite Hminus. apply Hpos.
Qed.

Lemma toLowerCase_fixed (s : string) :
  forallChars (λ c, Ascii.eqb (lower_ascii c) c) s = true → toLowerCase s = s.
Proof.
  induction s as [|c s IH]; [done|]. cbn [forallChars toLowerCase].
  intros [Hc Hs]%andb_true_iff. apply Ascii.eqb_eq in Hc. by rewrite Hc, IH.
Qed.

Lemma clash_prefix (pat s t : string) :
  clash pat s = true → String.prefix pat (s +:+ t) = false.
Proof.
  revert s. induction pat as [|a pat IH]; intros [|b s]; try done.
  rewrite app_cons. cbn [clash String.prefix].
  destruct (ascii_dec a b); [apply IH|done].
Qed.

Lemma clashEverywhere_includes (pat s t : string) :
  clashEverywhere pat s = true → includes pat (s +:+ t) = includes pat t.
Proof.
  induction s as [|b s IH]; [done|].
  cbn [clashEverywhere]. intros [Hb Hs]%andb_true_iff.
  rewrite <- (IH Hs).
  change (includes pat (String b s +:+ t))
    with (if String.prefix pat (String b s +:+ t) then true
          else includes pat (s +:+ t)).
  by rewrite (clash_prefix _ _ _ Hb).
Qed.

Lemma forallChars_clashEverywhere (c : ascii) (pat s : string) :
  forallChars (λ x, negb (Ascii.eqb c x)) s = true →
  clashEverywhere (String c pat) s = true.
Proof.
  induction s as [|b s IH]; [done|]. cbn [forallChars clashEverywhere clash].
  intros [Hb Hs]%andb_true_iff. rewrite (IH Hs), andb_true_r.
  destruct (ascii_dec c b) as [->|]; [|done].
  by rewrite Ascii.eqb_refl in Hb.
Qed.

(** The message of a timeout of one of the three named operations is
    none of the errors that are not retried. *)
Lemma timeout_is_retryable (name : string) (t : Z) :
  name ∈ ["getNetwork"; "getBlockNumber"; "call"]%string →
  isNonRetryableError
    (mkError (Some (name +:+ " timeout after " +:+ pretty t +:+ "ms"))) = false.
Proof.
  intros Hname. unfold isNonRetryableError. cbn [message fmap option_fmap option_map].
  replace (or_string (Some (toLowerCase (name +:+ " timeout after " +:+ pretty t +:+ "ms"))) "")
    with (toLowerCase (name +:+ " timeout after " +:+ pretty t +:+ "ms"))
    by (by destruct (toLowerCase _)).
  rewrite string_app_assoc, !toLowerCase_app.
  rewrite (toLowerCase_fixed (pretty t)) by (by apply pretty_Z_chars).
  assert (∀ c pat,
            forallChars (λ x, negb (Ascii.eqb c x)) "-0123456789" = true →
            clashEverywhere (String c pat) (toLowerCase (name +:+ " timeout after "))
            = true →
            includes (String c pat) "ms" = false →
            includes (String c pat)
              (toLowerCase (name +:+ " timeout after ")
                 +:+ pretty t +:+ toLowerCase "ms") = false) as Hone.
  { intros c pat Hc Hfixed Hms.
    rewrite clashEverywhere_includes by done.
    rewrite clashEverywhere_includes; [exact Hms|].
    apply forallChars_clashEverywhere. by apply pretty_Z_chars. }
  unfold nonRetryablePatterns. cbn [existsb].
  repeat (apply elem_of_cons in Hname as [->|Hname]);
    [| | |by inversion Hname];
    rewrite !Hone by reflexivity; reflexivity.
Qed.

(** What a run over endpoints that never answer comes to, for an
    operation whose timeout message may be retried. *)
Lemma executeWithRetry_hang {T} (name : string) (this : ResilientProvider) :
  (1 ≤ providers_length this)%nat →
  (1 ≤ maxRetries this)%nat →
  isNonRetryableError (mkError (Some (timeoutMessage name this))) = false →
  (executeWithRetry (λ _ _, @Hangs T) name this).2
  = Rejected (mkError (Some
      (name +:+ " failed after trying all "
         +:+ pretty (providers_length this) +:+ " providers: "
         +:+ or_string (Some (timeoutMessage name this)) "Unknown error")))
  ∧ count_calls (executeWithRetry (λ _ _, @Hangs T) name this).1.1
    = (providers_length this * maxRetries this)%nat.
Proof.
  intros HN HM Hretry. unfold executeWithRetry.
  destruct (providerLoop_all_fail (λ _ _, @Hangs T) name this
              (λ i p, ex_intro _ (mkError (Some (timeoutMessage name this)))
                                 (conj eq_refl Hretry))
              (providers_length this) 0 (currentProviderIndex this)
              (mkLocals None (retryDelay this) 0) HM eq_refl)
    as (ev & cursor' & lastErr & Hrun & Hcnt & Hlast).
  rewrite set_index_self in Hrun. rewrite Hrun. cbn [fst snd].
  destruct (providers_length this) as [|n] eqn:HNeq; [lia|].
  destruct Hlast as (e & -> & Ho & _).
  unfold attemptOutcome, withTimeout in Ho. injection Ho as <-.
  split; [reflexivity|exact Hcnt].
Qed.

(** X21. When no endpoint ever answers, [getNetwork], [getBlockNumber] and
    [call] time every invocation out, retry it like any failure, N*M
    invocations in all, and are then rejected with the aggregate error
    that carries the timeout message. *)
Theorem hanging_endpoints_are_timed_out_and_retried
        {T : Type} (this : ResilientProvider) :
  (1 ≤ providers_length this)%nat →
  (1 ≤ maxRetries this)%nat →
  let hangs : nat → nat → Settled T := λ _ _, Hangs in
  let failure (name : string) : Outcome T :=
    Rejected (mkError (Some
      (name +:+ " failed after trying all "
         +:+ pretty (providers_length this) +:+ " providers: "
         +:+ name +:+ " timeout after " +:+ pretty (timeout this) +:+ "ms"))) in
  ((getNetwork this hangs).2 = failure "getNetwork"
   ∧ count_calls (getNetwork this hangs).1.1
     = (providers_length this * maxRetries this)%nat)
  ∧ ((getBlockNumber this hangs).2 = failure "getBlockNumber"
     ∧ count_calls (getBlockNumber this hangs).1.1
       = (providers_length this * maxRetries this)%nat)
  ∧ ((call this hangs).2 = failure "call"
     ∧ count_calls (call this hangs).1.1
       = (providers_length this * maxRetries this)%nat).
Proof.
  intros HN HM hangs failure. unfold getNetwork, getBlockNumber, call, hangs, failure.
  split; [|split];
    (apply executeWithRetry_hang; [done|done|]);
    apply timeout_is_retryable;
    repeat first [by left|right].
Qed.

Lemma hanging_endpoints_are_timed_out_and_retried_witness :
  let hangs : nat → nat → Settled nat := λ _ _, Hangs in
  let failure (name : string) : Outcome nat :=
    Rejected (mkError (Some
      (name +:+ " failed after trying all "
         +:+ pretty (providers_length Demo.provider) +:+ " providers: "
         +:+ name +:+ " timeout after " +:+ pretty (timeout Demo.provider)
         +:+ "ms"))) in
  ((getNetwork Demo.provider hangs).2 = failure "getNetwork"
   ∧ count_calls (getNetwork Demo.provider hangs).1.1
     = (providers_length Demo.provider * maxRetries Demo.provider)%nat)
  ∧ ((getBlockNumber Demo.provider hangs).2 = failure "getBlockNumber"
     ∧ count_calls (getBlockNumber Demo.provider hangs).1.1
       = (providers_length Demo.provider * maxRetries Demo.provider)%nat)
  ∧ ((call Demo.provider hangs).2 = failure "call"
     ∧ count_calls (call Demo.provider hangs).1.1
       = (providers_length Demo.provider * maxRetries Demo.provider)%nat).
Proof.
  apply (hanging_endpoints_are_timed_out_and_retried (T := nat) Demo.provider);
    vm_compute; lia.
Defined.

(** *** Rotation *)

Lemma iter_switch_index (this : ResilientProvider) (k : nat) :
  Nat.iter k switchToNextProvider this
  = set_index this ((currentProviderIndex this + k) `mod` providers_length this)%nat
  ∨ k = 0%nat.
Proof.
  induction k as [|k IH]; [by right|]. left.
  change (Nat.iter (S k) switchToNextProvider this)
    with (switchToNextProvider (Nat.iter k switchToNextProvider this)).
  destruct IH as [->| ->].
  - unfold switchToNextProvider.
    change (set_index (set_index this ?a) ?b) with (set_index this b).
    change (providers_length (set_index this ?a)) with (providers_length this).
    change (currentProviderIndex (set_index this ?a)) with a.
    f_equal. rewrite Nat.Div0.add_mod_idemp_l. f_equal. lia.
  - reflexivity.
Qed.

Lemma mod_add_inj (n c i j : nat) :
  (i < n)%nat → (j < n)%nat →
  ((c + i) `mod` n)%nat = ((c + j) `mod` n)%nat → i = j.
Proof.
  intros Hi Hj Heq.
  pose proof (Nat.div_mod_eq (c + i) n) as H1.
  pose proof (Nat.div_mod_eq (c + j) n) as H2.
  rewrite Heq in H1.
  assert ((c + i) / n = (c + j) / n)%nat as Hq; [|rewrite Hq in H1; lia].
  destruct (Nat.lt_trichotomy ((c + i) / n) ((c + j) / n)) as [Hlt|[?|Hlt]];
    [|done|]; exfalso.
  - assert (n * S ((c + i) / n) ≤ n * ((c + j) / n))%nat
      by (apply Nat.mul_le_mono_l; lia).
    rewrite Nat.mul_succ_r in *. lia.
  - assert (n * S ((c + j) / n) ≤ n * ((c + i) / n))%nat
      by (apply Nat.mul_le_mono_l; lia).
    rewrite Nat.mul_succ_r in *. lia.
Qed.

(** X22. From a provider whose cursor is valid, [switchToNextProvider]
    applied k times moves the cursor k places round the list: after N
    times the provider is as it was, the N endpoints in between are all
    different, and [getProvider] is defined all along. *)
Theorem rotation_goes_round_the_endpoints (this : ResilientProvider) :
  validIndex this →
  Nat.iter (providers_length this) switchToNextProvider this = this
  ∧ (∀ k, currentProviderIndex (Nat.iter k switchToNextProvider this)
          = ((currentProviderIndex this + k) `mod` providers_length this)%nat
          ∧ is_Some (getProvider (Nat.iter k switchToNextProvider this)))
  ∧ NoDup (map (λ k, currentProviderIndex (Nat.iter k switchToNextProvider this))
               (seq 0 (providers_length this))).
Proof.
  unfold validIndex. intros Hvalid.
  assert (∀ k, currentProviderIndex (Nat.iter k switchToNextProvider this)
               = ((currentProviderIndex this + k) `mod` providers_length this)%nat)
    as Hindex.
  { intros k. destruct (iter_switch_index this k) as [->| ->].
    - reflexivity.
    - cbn [Nat.iter]. rewrite Nat.add_0_r, Nat.mod_small; done. }
  assert (∀ k, rpcUrls (Nat.iter k switchToNextProvider this) = rpcUrls this)
    as Hurls.
  { intros k. by destruct (iter_switch_index this k) as [->| ->]. }
  split; [|split].
  - destruct (iter_switch_index this (providers_length this)) as [->|H0]; [|lia].
    rewrite <- Nat.Div0.add_mod_idemp_r, Nat.Div0.mod_same, Nat.add_0_r.
    rewrite Nat.mod_small by done. apply set_index_self.
  - intros k. split; [apply Hindex|].
    unfold getProvider. rewrite Hurls, Hindex. apply lookup_lt_is_Some.
    apply Nat.mod_upper_bound. unfold providers_length in *. lia.
  - apply NoDup_fmap_2_strong; [|apply NoDup_seq].
    intros i j Hi Hj. rewrite !Hindex.
    apply elem_of_seq in Hi, Hj.
    apply mod_add_inj; lia.
Qed.

Lemma rotation_goes_round_the_endpoints_witness :
  Nat.iter (providers_length Demo.provider) switchToNextProvider Demo.provider
  = Demo.provider
  ∧ (∀ k, currentProviderIndex (Nat.iter k switchToNextProvider Demo.provider)
          = ((currentProviderIndex Demo.provider + k)
               `mod` providers_length Demo.provider)%nat
          ∧ is_Some (getProvider (Nat.iter k switchToNextProvider Demo.provider)))
  ∧ NoDup (map (λ k, currentProviderIndex
                       (Nat.iter k switchToNextProvider Demo.provider))
               (seq 0 (providers_length Demo.provider))).
Proof.
  apply (rotation_goes_round_the_endpoints Demo.provider). vm_compute. lia.
Defined.

End ProviderFacts.

(** ** More on the ledger queries *)

Module ContractFacts.
Import Provider Contract ProviderProps ProviderFacts.





End ContractFacts.

(** ** More on the poller *)

Module PollerFacts.
Import Store Poller PollerProps KeyFacts StoreFacts.

(** *** The first poll *)

(** X24. At every time of day the delay to the first poll lies between
    -60 s (excluded) and 14 minutes, and leads to a multiple of 15
    minutes; it is positive whenever the minute is not itself a
    multiple of 15. *)
Theorem calculateDelay_range (now : WallClock) :
  wellFormed now →
  -60000 < calculateDelayToNextAlignedTime now <= 840000
  ∧ (msIntoHour now + calculateDelayToNextAlignedTime now) `mod` 900000 = 0
  ∧ (getMinutes now `mod` 15 ≠ 0 → 0 < calculateDelayToNextAlignedTime now).
Proof.
  intros Hwf. split; [|split].
  - destruct Hwf as (Hm & Hs & Hms).
    unfold calculateDelayToNextAlignedTime, ceilDiv.
    set (m := getMinutes now) in *.
    pose proof (Z.div_mod (- m) 15 ltac:(lia)) as Hdm.
    pose proof (Z.mod_pos_bound (- m) 15 ltac:(lia)) as Hr.
    replace (- ((- m) `div` 15) * 15 - m) with ((- m) `mod` 15) by lia.
    rewrite Z.rem_small by lia. lia.
  - apply calculateDelay_lands_on_grid.
  - intros Hoff. by apply calculateDelay_next_boundary.
Qed.

Lemma calculateDelay_range_witness :
  -60000 < calculateDelayToNextAlignedTime (mkWallClock 7 42 0) <= 840000
  ∧ (msIntoHour (mkWallClock 7 42 0)
     + calculateDelayToNextAlignedTime (mkWallClock 7 42 0)) `mod` 900000 = 0
  ∧ (getMinutes (mkWallClock 7 42 0) `mod` 15 ≠ 0 →
     0 < calculateDelayToNextAlignedTime (mkWallClock 7 42 0)).
Proof.
  apply (calculateDelay_range (mkWallClock 7 42 0)).
  vm_compute. repeat split; discriminate.
Defined.

(** *** Timers and the guard *)

Lemma schedulerStep_invariant (st st' : Scheduler * nat) :
  schedulerStep st st' → schedulerInvariant st → schedulerInvariant st'.
Proof.
  unfold schedulerInvariant.
  destruct 1 as [h s n|s n|hw h s n Harmed|hw s n Harmed|s n];
    cbn [fst snd]; intros (Hle & Hflag & Htimers).
  - split; [done|]. unfold start.
    destruct (intervalId s) as [i|] eqn:Hi, (timeoutId s) as [t|] eqn:Ht;
      cbn [intervalId timeoutId isPolling]; rewrite ?Hi, ?Ht;
      (split; [done|]); try done.
    intros [[? [=]] _].
  - split; [done|]. split; [done|]. cbn. intros [[? [=]] _].
  - unfold onTimeout, pollEnter. cbn [intervalId timeoutId isPolling].
    destruct (isPolling s) eqn:Hp; cbn [fst snd intervalId timeoutId isPolling].
    + split; [done|]. split; [done|]. intros [_ [? [=]]].
    + assert (n = 0%nat) as ->.
      { destruct n as [|[|n]]; [done| |lia].
        destruct Hflag as [_ Hflag]. by specialize (Hflag eq_refl). }
      destruct hw; cbn [fst snd intervalId timeoutId isPolling].
      * split; [lia|]. split; [done|]. intros [_ [? [=]]].
      * split; [lia|]. split; [done|]. intros [_ [? [=]]].
  - unfold onInterval, pollEnter.
    destruct (isPolling s) eqn:Hp; cbn [fst snd intervalId timeoutId isPolling].
    + rewrite Hp. done.
    + assert (n = 0%nat) as ->.
      { destruct n as [|[|n]]; [done| |lia].
        destruct Hflag as [_ Hflag]. by specialize (Hflag eq_refl). }
      destruct hw; cbn [fst snd intervalId timeoutId isPolling].
      * split; [lia|]. done.
      * split; [lia|]. done.
  - assert (n = 0%nat) as -> by lia.
    unfold pollLeave. cbn [intervalId timeoutId isPolling].
    split; [lia|]. split; [done|]. exact Htimers.
Qed.

(** X25. Whatever sequence of [start], [stop], timer callbacks and cycle
    ends the service goes through from its construction: at most one
    poll cycle is in flight, [isPolling] is set exactly while one is,
    and the timeout and the interval are never armed together. *)
Theorem scheduler_one_cycle_one_timer (s : Scheduler) (inFlight : nat) :
  rtc schedulerStep (newScheduler, 0%nat) (s, inFlight) →
  (inFlight ≤ 1)%nat
  ∧ (isPolling s = true ↔ inFlight = 1%nat)
  ∧ ¬ (is_Some (intervalId s) ∧ is_Some (timeoutId s)).
Proof.
  intros Hreach.
  change (schedulerInvariant (s, inFlight)).
  revert Hreach. generalize (s, inFlight).
  apply (rtc_ind_r schedulerInvariant (newScheduler, 0%nat)).
  - unfold schedulerInvariant, newScheduler. cbn.
    split; [lia|]. split; [done|]. intros [[? [=]] _].
  - intros st st' _ Hstep Hinv. by eapply schedulerStep_invariant.
Qed.

Lemma scheduler_one_cycle_one_timer_witness :
  (1 ≤ 1)%nat
  ∧ (isPolling (mkScheduler (Some 2%nat) None true) = true ↔ 1%nat = 1%nat)
  ∧ ¬ (is_Some (intervalId (mkScheduler (Some 2%nat) None true))
       ∧ is_Some (timeoutId (mkScheduler (Some 2%nat) None true))).
Proof.
  apply (scheduler_one_cycle_one_timer (mkScheduler (Some 2%nat) None true) 1).
  eapply rtc_l; [apply (step_start 1 newScheduler 0)|].
  eapply rtc_l; [|apply rtc_refl].
  apply (step_timeout true 2 (start 1 newScheduler) 0). cbn. eauto.
Defined.

(** *** What a run hands to the bot *)

Lemma sent_refl (w : World) : sent w w [].
Proof. unfold sent. by rewrite app_nil_r, Nat.add_0_r. Qed.

Lemma sent_trans (w w1 w2 : World) (new1 new2 : list (Z * Message * bool)) :
  sent w w1 new1 → sent w1 w2 new2 → sent w w2 (new1 ++ new2).
Proof.
  intros (Ho1 & Hs1 & Hn1) (Ho2 & Hs2 & Hn2). unfold sent.
  rewrite Ho2, Ho1, Hs2, Hs1, Hn2, Hn1, length_app, <- app_assoc.
  split; [done|]. split; [done|lia].
Qed.

Lemma newMessages_sent (w w' : World) (new : list (Z * Message * bool)) :
  sent w w' new → newMessages w w' = new.
Proof. intros (Ho & _). unfold newMessages. by rewrite Ho, drop_app_length. Qed.

Lemma getChatsForWallet_subscriptions (d d' : Data) (wallet : string) :
  subscriptions d = subscriptions d' →
  getChatsForWallet d wallet = getChatsForWallet d' wallet.
Proof. unfold getChatsForWallet. by intros ->. Qed.

Lemma shouldSendCompletion_subscriptions (now : Z) (d : Data) (chatId n : Z) :
  subscriptions (shouldSendCompletion now d chatId n).2 = subscriptions d.
Proof.
  unfold shouldSendCompletion.
  destruct (completionStatus d !! chatId) as [status|]; [|done].
  repeat (case_match; try done).
Qed.

(** A loop whose body always completes: the messages of the passes,
    one after the other. *)
Lemma forEach_sent {A} (subs : gmap Z Subscription)
      (Q : A → list (Z * Message * bool) → Prop) (body : A → M unit) (l : list A) :
  (∀ x w, x ∈ l → subscriptions (store w) = subs →
          ∃ w' new, body x w = (Resolved tt, w') ∧ sent w w' new ∧ Q x new) →
  ∀ w, subscriptions (store w) = subs →
       ∃ w' news, forEach l body w = (Resolved tt, w')
                  ∧ sent w w' (concat news) ∧ Forall2 Q l news.
Proof.
  induction l as [|x l IH]; intros Hbody w Hsubs.
  - exists w, []. split; [done|]. split; [apply sent_refl|constructor].
  - destruct (Hbody x w ltac:(by left) Hsubs) as (w1 & new & Hrun & Hsent & HQ).
    destruct (IH (λ y w0 Hy, Hbody y w0 ltac:(by right)) w1)
      as (w2 & news & Hrun2 & Hsent2 & HQs).
    { destruct Hsent as (_ & -> & _). done. }
    exists w2, (new :: news). cbn [forEach]. rewrite bindM_run, Hrun, Hrun2.
    split; [done|]. split; [by eapply sent_trans|by constructor].
Qed.

Lemma recipients_sublist (chats : list Z) (news : list (list (Z * Message * bool))) :
  Forall2 (λ c new, recipient <$> new `sublist_of` [c]) chats news →
  recipient <$> concat news `sublist_of` chats.
Proof.
  induction 1 as [|c new chats news Hc _ IH]; simpl; [constructor|].
  rewrite fmap_app. change (c :: chats) with ([c] ++ chats).
  by apply sublist_app.
Qed.

Lemma concat_Forall {A E} (Q : A → list E → Prop) (P : E → Prop)
      (l : list A) (news : list (list E)) :
  Forall2 Q l news → (∀ x new, x ∈ l → Q x new → Forall P new) →
  Forall P (concat news).
Proof.
  induction 1 as [|x new l news Hx _ IH]; intros HP; simpl; [constructor|].
  apply Forall_app. split.
  - apply (HP x); [by left|done].
  - apply IH. intros y new' Hy. apply HP. by right.
Qed.

(** The requests the filter lets through are candidates, in their
    order, and each was due at one of the clock readings of the
    filter. *)
Lemma requestsToNotify_due (clock : nat → Z) (chatId : Z) (l : list string) :
  ∀ w due w',
    requestsToNotify clock chatId l w = (Resolved due, w') →
    due `sublist_of` l
    ∧ ∀ r, r ∈ due →
           ∃ k, (ticks w ≤ k < ticks w + length l)%nat
                ∧ shouldNotify (clock k) (store w) chatId r = true.
Proof.
  unfold requestsToNotify. induction l as [|x l IH]; intros w due w' Hrun.
  - injection Hrun as <- <-. split; [constructor|]. intros r Hr. by inversion Hr.
  - cbn [filterM] in Hrun.
    rewrite bindM_run, storeShouldNotify_run, bindM_run in Hrun.
    set (w1 := mkWorld (store w) (S (ticks w)) (sends w) (outbox w)) in *.
    destruct (requestsToNotify_run clock chatId l w1) as (rest & Hrest).
    unfold requestsToNotify in Hrest. rewrite Hrest in Hrun.
    unfold ret in Hrun. injection Hrun as <- <-.
    destruct (IH w1 rest _ Hrest) as [Hsub Hdue].
    assert (∀ r, r ∈ rest →
                 ∃ k, (ticks w ≤ k < ticks w + length (x :: l))%nat
                      ∧ shouldNotify (clock k) (store w) chatId r = true) as Hrest'.
    { intros r Hr. destruct (Hdue r Hr) as (k & Hk & Hr').
      exists k. simpl in *. split; [lia|done]. }
    destruct (shouldNotify (clock (ticks w)) (store w) chatId x) eqn:Hx.
    + split; [by constructor|]. intros r Hr.
      apply elem_of_cons in Hr as [->|Hr]; [|by apply Hrest'].
      exists (ticks w). simpl. split; [lia|done].
    + split; [by constructor|]. exact Hrest'.
Qed.

Lemma notifyChat_sent (clock : nat → Z) (bot : nat → Z → Message → option JsError)
      (wallet : string) (claimable active : list string) (chatId : Z) (w : World) :
  ∃ w' new,
    notifyChat clock bot wallet claimable active chatId w = (Resolved tt, w')
    ∧ sent w w' new
    ∧ (new = []
       ∨ ∃ due ok,
           new = [(chatId, WithdrawalReady (shortAddress wallet) due, ok)]
           ∧ due ≠ [] ∧ due `sublist_of` claimable).
Proof.
  destruct (notifyChat_run clock bot wallet claimable active chatId w)
    as (due & d' & Hdue & Hrun & _ & Hsubs & _).
  apply requestsToNotify_due in Hdue as [Hsub _].
  rewrite Hrun. destruct due as [|r due].
  - eexists _, []. split; [done|]. split; [|by left].
    unfold sent. simpl. by rewrite app_nil_r, Nat.add_0_r.
  - eexists _, [_]. split; [done|]. split.
    + unfold sent. simpl. split; [done|]. split; [done|lia].
    + right. eexists _, _. split; [done|]. split; [done|done].
Qed.

(** One chat of [handleAllRequestsInactive], step by step. *)
Lemma completeChat_run (clock : nat → Z) (bot : nat → Z → Message → option JsError)
      (chatId : Z) (w : World) :
  completeChat clock bot chatId w
  = (Resolved tt,
     let ask := shouldSendCompletion (clock (ticks w))
                  (cleanupInactiveRequests (store w) chatId []) chatId 0 in
     if ask.1
     then match bot (sends w) chatId AllClaimed with
          | None =>
              mkWorld (markCompletionSent (clock (S (ticks w))) ask.2 chatId)
                      (S (S (ticks w))) (S (sends w))
                      (outbox w ++ [(chatId, AllClaimed, true)])
          | Some _ =>
              mkWorld ask.2 (S (ticks w)) (S (sends w))
                      (outbox w ++ [(chatId, AllClaimed, false)])
          end
     else mkWorld ask.2 (S (ticks w)) (sends w) (outbox w)).
Proof.
  unfold completeChat. rewrite bindM_run.
  change (storeCleanup chatId [] w)
    with (Resolved tt,
          mkWorld (cleanupInactiveRequests (store w) chatId [])
                  (ticks w) (sends w) (outbox w)).
  cbv beta iota zeta. rewrite bindM_run, storeShouldSendCompletion_run.
  cbn [store ticks sends outbox].
  destruct (shouldSendCompletion (clock (ticks w))
              (cleanupInactiveRequests (store w) chatId []) chatId 0)
    as [[|] d1]; cbn [fst snd]; [|reflexivity].
  unfold tryM. rewrite !bindM_run. unfold sendMessage.
  cbn [store ticks sends outbox].
  destruct (bot (sends w) chatId AllClaimed); [reflexivity|].
  by rewrite storeMarkCompletionSent_run.
Qed.

Lemma completeChat_sent (clock : nat → Z) (bot : nat → Z → Message → option JsError)
      (chatId : Z) (w : World) :
  ∃ w' new,
    completeChat clock bot chatId w = (Resolved tt, w')
    ∧ sent w w' new
    ∧ (new = [] ∨ ∃ ok, new = [(chatId, AllClaimed, ok)]).
Proof.
  rewrite completeChat_run. cbv zeta.
  pose proof (shouldSendCompletion_subscriptions (clock (ticks w))
                (cleanupInactiveRequests (store w) chatId []) chatId 0) as Hsubs.
  destruct (shouldSendCompletion (clock (ticks w))
              (cleanupInactiveRequests (store w) chatId []) chatId 0)
    as [[|] d1]; cbn [fst snd] in *.
  - destruct (bot (sends w) chatId AllClaimed).
    + eexists _, [_]. split; [done|]. split; [|right; by eexists].
      unfold sent. simpl. split; [done|]. split; [done|lia].
    + eexists _, [_]. split; [done|]. split; [|right; by eexists].
      unfold sent. simpl. split; [done|]. split; [done|lia].
  - eexists _, []. split; [done|]. split; [|by left].
    unfold sent. simpl. by rewrite app_nil_r, Nat.add_0_r.
Qed.

Lemma notifyChats_sent (clock : nat → Z) (bot : nat → Z → Message → option JsError)
      (wallet : string) (claimable active : list string) (w : World) :
  ∃ w' new,
    notifyChatsForWallet clock bot wallet claimable active w = (Resolved tt, w')
    ∧ sent w w' new
    ∧ recipient <$> new `sublist_of` getChatsForWallet (store w) wallet
    ∧ Forall (λ e, ∃ due, message e = WithdrawalReady (shortAddress wallet) due
                          ∧ due ≠ [] ∧ due `sublist_of` claimable) new.
Proof.
  unfold notifyChatsForWallet.
  destruct (forEach_sent (subscriptions (store w))
              (λ c new, new = []
                        ∨ ∃ due ok,
                            new = [(c, WithdrawalReady (shortAddress wallet) due, ok)]
                            ∧ due ≠ [] ∧ due `sublist_of` claimable)
              (notifyChat clock bot wallet claimable active)
              (getChatsForWallet (store w) wallet)
              (λ c w0 _ _, notifyChat_sent clock bot wallet claimable active c w0)
              w eq_refl) as (w' & news & Hrun & Hsent & HQ).
  exists w', (concat news). split; [done|]. split; [done|]. split.
  - apply recipients_sublist. eapply Forall2_impl; [exact HQ|].
    intros c new [->|(due & ok & -> & _)]; [apply sublist_nil_l|].
    apply sublist_skip, sublist_nil.
  - eapply concat_Forall; [exact HQ|].
    intros c new _ [->|(due & ok & -> & Hne & Hsub)]; [constructor|].
    apply Forall_singleton. by exists due.
Qed.

Lemma handleAllRequestsInactive_sent
      (clock : nat → Z) (bot : nat → Z → Message → option JsError)
      (wallet : string) (w : World) :
  ∃ w' new,
    handleAllRequestsInactive clock bot wallet w = (Resolved tt, w')
    ∧ sent w w' new
    ∧ recipient <$> new `sublist_of` getChatsForWallet (store w) wallet
    ∧ Forall (λ e, message e = AllClaimed) new.
Proof.
  unfold handleAllRequestsInactive.
  destruct (forEach_sent (subscriptions (store w))
              (λ c new, new = [] ∨ ∃ ok, new = [(c, AllClaimed, ok)])
              (completeChat clock bot)
              (getChatsForWallet (store w) wallet)
              (λ c w0 _ _, completeChat_sent clock bot c w0)
              w eq_refl) as (w' & news & Hrun & Hsent & HQ).
  exists w', (concat news). split; [done|]. split; [done|]. split.
  - apply recipients_sublist. eapply Forall2_impl; [exact HQ|].
    intros c new [->|(ok & ->)]; [apply sublist_nil_l|].
    apply sublist_skip, sublist_nil.
  - eapply concat_Forall; [exact HQ|].
    intros c new _ [->|(ok & ->)]; [constructor|].
    by apply Forall_singleton.
Qed.

(** The loop of [checkWallet] that tells the store how many requests
    are active. *)
Lemma trackCounts_sent (clock : nat → Z) (n : Z) (chats : list Z) :
  ∀ w, ∃ w',
    forEach chats (λ chatId, _ <~ storeShouldSendCompletion clock chatId n ;; ret tt) w
    = (Resolved tt, w')
    ∧ sent w w' [].
Proof.
  induction chats as [|c chats IH]; intros w.
  - exists w. split; [done|apply sent_refl].
  - cbn [forEach]. rewrite bindM_run, bindM_run, storeShouldSendCompletion_run.
    unfold ret at 1.
    set (w1 := mkWorld _ _ _ _).
    destruct (IH w1) as (w' & Hrun & Hsent). exists w'. split; [done|].
    apply (sent_trans w w1 w' [] []); [|done].
    unfold sent, w1. simpl.
    rewrite shouldSendCompletion_subscriptions, app_nil_r, Nat.add_0_r. done.
Qed.

Lemma keepAt_sublist (answer : nat → string → bool) (ids : list string) :
  ∀ i, keepAt answer i ids `sublist_of` ids.
Proof.
  induction ids as [|id ids IH]; intros i; simpl; [constructor|].
  destruct (answer i id); by constructor.
Qed.

Lemma checkWallet_sent (clock : nat → Z) (bot : nat → Z → Message → option JsError)
      (ledger : Ledger) (wallet : string) (w : World) :
  ∃ w' new,
    checkWallet clock bot ledger wallet w = (Resolved tt, w')
    ∧ sent w w' new
    ∧ recipient <$> new `sublist_of` getChatsForWallet (store w) wallet
    ∧ Forall
        (λ e,
           (message e = AllClaimed
            ∧ requestsByOwner ledger wallet ≠ []
            ∧ filterActiveRequests ledger wallet (requestsByOwner ledger wallet) = [])
           ∨ ∃ due,
               message e = WithdrawalReady (shortAddress wallet) due
               ∧ due ≠ []
               ∧ due `sublist_of`
                   getClaimableFromActive ledger wallet
                     (filterActiveRequests ledger wallet
                        (requestsByOwner ledger wallet)))
        new.
Proof.
  unfold checkWallet, tryM. cbv zeta.
  destruct (requestsByOwner ledger wallet) as [|r0 all] eqn:Hall.
  { exists w, []. split; [done|]. split; [apply sent_refl|].
    split; [apply sublist_nil_l|constructor]. }
  destruct (filterActiveRequests ledger wallet (r0 :: all)) as [|a act] eqn:Hact.
  { destruct (handleAllRequestsInactive_sent clock bot wallet w)
      as (w' & new & Hrun & Hsent & Hrcp & Hmsg).
    rewrite Hrun. exists w', new. split; [done|]. split; [done|]. split; [done|].
    eapply Forall_impl; [exact Hmsg|]. intros e He. by left. }
  rewrite bindM_run.
  destruct (trackCounts_sent clock (Z.of_nat (length (a :: act)))
              (getChatsForWallet (store w) wallet) w) as (w1 & Hrun1 & Hsent1).
  rewrite Hrun1.
  destruct (getClaimableFromActive ledger wallet (a :: act)) as [|c cl] eqn:Hcl.
  { exists w1, []. split; [done|]. split; [done|].
    split; [apply sublist_nil_l|constructor]. }
  destruct (notifyChats_sent clock bot wallet (c :: cl) (a :: act) w1)
    as (w' & new & Hrun & Hsent & Hrcp & Hmsg).
  rewrite Hrun. exists w', new. split; [done|].
  split; [apply (sent_trans w w1 w' [] new); done|]. split.
  - rewrite <- (getChatsForWallet_subscriptions (store w1) (store w)); [done|].
    by destruct Hsent1 as (_ & ? & _).
  - eapply Forall_impl; [exact Hmsg|]. intros e (due & ? & ? & ?).
    right. by exists due.
Qed.

(** X26. [checkWallet] never throws and leaves the subscriptions alone. It
    hands the bot at most one message per chat that follows the wallet:
    the completion message, and only when the wallet has requests none
    of which is active; or a notification, which lists some of the
    requests reported as claimable among the active ones, at least one.
    When the ledger reports no request for the wallet (as it does when
    it cannot be reached), nothing at all changes. *)
Theorem checkWallet_messages
        (clock : nat → Z) (bot : nat → Z → Message → option JsError)
        (ledger : Ledger) (wallet : string) (w : World) :
  let run := checkWallet clock bot ledger wallet w in
  let allRequestIds := requestsByOwner ledger wallet in
  let activeRequestIds := filterActiveRequests ledger wallet allRequestIds in
  let claimableRequestIds := getClaimableFromActive ledger wallet activeRequestIds in
  run.1 = Resolved tt
  ∧ outbox run.2 = outbox w ++ newMessages w run.2
  ∧ subscriptions (store run.2) = subscriptions (store w)
  ∧ recipient <$> newMessages w run.2 `sublist_of` getChatsForWallet (store w) wallet
  ∧ Forall
      (λ e,
         (message e = AllClaimed ∧ allRequestIds ≠ [] ∧ activeRequestIds = [])
         ∨ ∃ due,
             message e = WithdrawalReady (shortAddress wallet) due
             ∧ due ≠ [] ∧ due `sublist_of` claimableRequestIds)
      (newMessages w run.2)
  ∧ claimableRequestIds `sublist_of` activeRequestIds
  ∧ activeRequestIds `sublist_of` allRequestIds
  ∧ (allRequestIds = [] → run.2 = w).
Proof.
  intros run allRequestIds activeRequestIds claimableRequestIds.
  destruct (checkWallet_sent clock bot ledger wallet w)
    as (w' & new & Hrun & Hsent & Hrcp & Hmsg).
  assert (allRequestIds = [] → run.2 = w) as Hnone.
  { subst run allRequestIds. unfold checkWallet, tryM. cbv zeta. by intros ->. }
  subst run. rewrite Hrun in *. cbn [fst snd] in *.
  rewrite (newMessages_sent _ _ _ Hsent).
  destruct Hsent as (Ho & Hs & _).
  split; [done|]. split; [done|]. split; [done|]. split; [done|].
  split; [exact Hmsg|]. split; [apply keepAt_sublist|].
  split; [apply keepAt_sublist|exact Hnone].
Qed.

(** *** A whole cycle *)

Lemma pollCycle_sent (clock : nat → Z) (bot : nat → Z → Message → option JsError)
      (ledger : Ledger) (w : World) :
  ∃ w' news,
    pollCycle clock bot ledger w = (Resolved tt, w')
    ∧ sent w w' (concat news)
    ∧ Forall2
        (λ wallet new,
           recipient <$> new `sublist_of` getChatsForWallet (store w) wallet
           ∧ Forall
               (λ e,
                  message e = AllClaimed
                  ∨ ∃ due,
                      message e = WithdrawalReady (shortAddress wallet) due
                      ∧ due ≠ []
                      ∧ due `sublist_of` requestsByOwner ledger wallet)
               new)
        (getAllMonitoredWallets (store w)) news.
Proof.
  assert (pollCycle clock bot ledger w
          = tryM (forEach (getAllMonitoredWallets (store w))
                          (checkWallet clock bot ledger))
                 (λ error, ret tt) w) as ->.
  { unfold pollCycle, tryM. by destruct (getAllMonitoredWallets (store w)). }
  unfold tryM.
  destruct (forEach_sent (subscriptions (store w))
              (λ wallet new,
                 recipient <$> new `sublist_of` getChatsForWallet (store w) wallet
                 ∧ Forall
                     (λ e,
                        message e = AllClaimed
                        ∨ ∃ due,
                            message e = WithdrawalReady (shortAddress wallet) due
                            ∧ due ≠ []
                            ∧ due `sublist_of` requestsByOwner ledger wallet)
                     new)
              (checkWallet clock bot ledger)
              (getAllMonitoredWallets (store w))) with (w := w)
    as (w' & news & Hrun & Hsent & HQ); [|done|].
  - intros wallet w0 _ Hsubs.
    destruct (checkWallet_sent clock bot ledger wallet w0)
      as (w' & new & Hrun & Hsent & Hrcp & Hmsg).
    exists w', new. split; [done|]. split; [done|]. split.
    + by rewrite <- (getChatsForWallet_subscriptions (store w0) (store w)).
    + eapply Forall_impl; [exact Hmsg|].
      intros e [(? & _)|(due & ? & ? & Hsub)]; [by left|].
      right. exists due. split; [done|]. split; [done|].
      etrans; [exact Hsub|]. etrans; apply keepAt_sublist.
  - rewrite Hrun. by exists w', news.
Qed.

(** X27. [poll] does nothing while a cycle is running. Otherwise it never
    throws, leaves the guard flag down and the subscriptions alone, and
    every message it hands to the bot goes to a chat with an active
    subscription to a monitored wallet: either the completion message,
    or a notification about that wallet which lists, in their order,
    some of the requests the ledger reported for it, at least one. With
    no wallet to monitor nothing changes. *)
Theorem poll_messages
        (clock : nat → Z) (bot : nat → Z → Message → option JsError)
        (ledger : Ledger) (w : World) :
  let run := poll clock bot ledger false w in
  poll clock bot ledger true w = (Resolved tt, w, true)
  ∧ run.1.1 = Resolved tt
  ∧ run.2 = false
  ∧ outbox run.1.2 = outbox w ++ newMessages w run.1.2
  ∧ subscriptions (store run.1.2) = subscriptions (store w)
  ∧ Forall
      (λ e,
         ∃ sub wallet,
           subscriptions (store w) !! recipient e = Some sub
           ∧ active sub = true
           ∧ wallet ∈ getAllMonitoredWallets (store w)
           ∧ walletAddress sub = toLowerCase wallet
           ∧ (message e = AllClaimed
              ∨ ∃ due,
                  message e = WithdrawalReady (shortAddress wallet) due
                  ∧ due ≠ []
                  ∧ due `sublist_of` requestsByOwner ledger wallet))
      (newMessages w run.1.2)
  ∧ (getAllMonitoredWallets (store w) = [] → run.1.2 = w).
Proof.
  intros run.
  destruct (pollCycle_sent clock bot ledger w) as (w' & news & Hrun & Hsent & HQ).
  assert (getAllMonitoredWallets (store w) = [] → run.1.2 = w) as Hnone.
  { subst run. unfold poll, pollCycle, tryM. by intros ->. }
  subst run. unfold poll in *. rewrite Hrun in *. cbn [fst snd] in *.
  rewrite (newMessages_sent _ _ _ Hsent).
  destruct Hsent as (Ho & Hs & _).
  split; [done|]. split; [done|]. split; [done|]. split; [done|].
  split; [done|]. split; [|exact Hnone].
  eapply concat_Forall; [exact HQ|].
  intros wallet new Hwallet [Hrcp Hmsg]. apply Forall_forall. intros e He.
  assert (recipient e ∈ getChatsForWallet (store w) wallet) as Hchat.
  { eapply elem_of_sublist; [|exact Hrcp]. by apply list_elem_of_fmap_2. }
  apply getChatsForWallet_elem in Hchat as (sub & Hsub & Hact & Hw).
  exists sub, wallet. repeat (split; [done|]).
  by apply (proj1 (Forall_forall _ _) Hmsg).
Qed.






(** *** From one cycle to the next *)

Lemma notifyChat_announced
      (clock : nat → Z) (bot : nat → Z → Message → option JsError)
      (wallet : string) (claimable active : list string) (chatId : Z) (w : World)
      (r : string) :
  let w' := (notifyChat clock bot wallet claimable active chatId w).2 in
  announced w w' chatId r →
  ∃ due,
    requestsToNotify clock chatId claimable
      (mkWorld (cleanupInactiveRequests (store w) chatId active)
               (ticks w) (sends w) (outbox w))
    = (Resolved due,
       mkWorld (cleanupInactiveRequests (store w) chatId active)
               (ticks w + length claimable) (sends w) (outbox w))
    ∧ r ∈ due
    ∧ ticks w' = (ticks w + length claimable + length due)%nat
    ∧ subscriptions (store w') = subscriptions (store w)
    ∧ stampedDuring clock (ticks w) (ticks w') (store w') (historyKey chatId r).
Proof.
  intros w'.
  destruct (notifyChat_run clock bot wallet claimable active chatId w)
    as (due & d' & Hdue & Hrun & _ & Hsubs & Hnew).
  subst w'. rewrite Hrun. cbn [snd].
  intros (short & due0 & ok & Hin & Hr). unfold newMessages in Hin.
  destruct due as [|r0 due].
  - cbn [outbox] in Hin. rewrite drop_all in Hin. by inversion Hin.
  - cbn [outbox] in Hin. rewrite drop_app_length in Hin.
    apply list_elem_of_singleton in Hin. injection Hin as -> -> ->.
    exists (r0 :: due). cbn [store ticks].
    split; [done|]. split; [done|]. split; [done|]. split; [done|].
    by apply Hnew.
Qed.

(** X29. A request announced to a chat in one pass of [notifyChatsForWallet]
    is not announced to it again in a later pass, as long as the clock
    readings of the later pass are less than the chat's frequency after
    those of the earlier one. *)
Theorem no_second_notification_within_frequency
        (clock : nat → Z) (bot bot' : nat → Z → Message → option JsError)
        (ledger : Ledger) (wallet : string)
        (claimable active active' : list string)
        (chatId : Z) (w : World) (sub : Subscription) (r : string) :
  let w1 := (notifyChat clock bot wallet claimable active chatId w).2 in
  let w2 := (notifyChat clock bot' wallet
               (getClaimableFromActive ledger wallet active') active' chatId w1).2 in
  subscriptions (store w) !! chatId = Some sub →
  (∀ k k', (ticks w ≤ k < ticks w1)%nat → (ticks w1 ≤ k' < ticks w2)%nat →
           clock k' - clock k < frequencySeconds sub * 1000) →
  announced w w1 chatId r →
  ¬ announced w1 w2 chatId r.
Proof.
  intros w1 w2 Hsub Hwin Hann1 Hann2.
  pose proof (notifyChat_announced clock bot wallet claimable active chatId w r Hann1)
    as (due1 & _ & _ & _ & Hsubs1 & (rec & k & Hrec & Hk & Hrange)).
  fold w1 in Hsubs1, Hrec, Hrange.
  pose proof (notifyChat_announced clock bot' wallet
                (getClaimableFromActive ledger wallet active') active' chatId w1 r
                Hann2)
    as (due2 & Hdue2 & Hr2 & Ht2 & _).
  fold w2 in Ht2.
  apply requestsToNotify_due in Hdue2 as [Hsub2 Hdue2].
  destruct (Hdue2 r Hr2) as (k' & Hk' & Hshould).
  cbn [ticks store] in Hk', Hshould.
  assert (r ∈ active') as Hactive.
  { apply (elem_of_sublist (getClaimableFromActive ledger wallet active'));
      [|apply keepAt_sublist].
    exact (elem_of_sublist _ _ _ Hr2 Hsub2). }
  unfold shouldNotify in Hshould.
  rewrite cleanup_lookup_active in Hshould by done.
  change (subscriptions (cleanupInactiveRequests (store w1) chatId active'))
    with (subscriptions (store w1)) in Hshould.
  rewrite Hsubs1, Hsub, Hrec, Hk in Hshould.
  apply Z.leb_le in Hshould.
  specialize (Hwin k k' Hrange ltac:(lia)). lia.
Qed.

Lemma no_second_notification_within_frequency_witness :
  let w1 := (notifyChat Demo.clock (λ _ _ _, None) "0xabcdef0123456789"
               ["2"]%string ["2"; "3"]%string 42 Demo.world).2 in
  let w2 := (notifyChat Demo.clock (λ _ _ _, None) "0xabcdef0123456789"
               (getClaimableFromActive Demo.ledger "0xabcdef0123456789"
                  ["2"; "3"]%string)
               ["2"; "3"]%string 42 w1).2 in
  ¬ announced w1 w2 42 "2".
Proof.
  apply (no_second_notification_within_frequency
           Demo.clock (λ _ _ _, None) (λ _ _ _, None) Demo.ledger
           "0xabcdef0123456789" ["2"]%string ["2"; "3"]%string ["2"; "3"]%string
           42 Demo.world
           (mkSubscription "0xabcdef0123456789" 86400 true 1000 1000) "2").
  - vm_compute. reflexivity.
  - intros k k' Hk Hk'. vm_compute in Hk, Hk'. unfold Demo.clock.
    cbn [frequencySeconds]. lia.
  - exists "0xabcd...6789"%string, ["2"]%string, true.
    split; [vm_compute; by left|by left].
Defined.

(** What [shouldSendCompletion] answers for a count of zero, and that
    it leaves the sent flag as it is. *)
Lemma shouldSendCompletion_zero (now : Z) (d : Data) (chatId : Z) :
  (shouldSendCompletion now d chatId 0).1
  = negb (match completionStatus d !! chatId with
          | Some status => completionSent status
          | None => false
          end)
  ∧ match completionStatus (shouldSendCompletion now d chatId 0).2 !! chatId with
    | Some status => completionSent status
    | None => false
    end
    = match completionStatus d !! chatId with
      | Some status => completionSent status
      | None => false
      end.
Proof.
  unfold shouldSendCompletion.
  destruct (completionStatus d !! chatId) as [status|] eqn:Hst; simpl.
  - change (0 <? 0) with false. rewrite andb_false_r. simpl.
    destruct (completionSent status) eqn:Hsent; simpl.
    + destruct (negb (lastRequestCount status =? 0)); simpl.
      * by rewrite lookup_insert_eq.
      * by rewrite Hst.
    + by rewrite Hst.
  - by rewrite lookup_insert_eq.
Qed.

(** X30. In [handleAllRequestsInactive], a completion message whose
    delivery failed is handed to the bot again the next time round; one
    that was delivered is not sent again. *)
Theorem completion_message_retried_until_delivered
        (clock : nat → Z) (bot bot' : nat → Z → Message → option JsError)
        (chatId : Z) (w : World) (ok : bool) :
  let w1 := (completeChat clock bot chatId w).2 in
  let w2 := (completeChat clock bot' chatId w1).2 in
  newMessages w w1 = [(chatId, AllClaimed, ok)] →
  newMessages w1 w2
  = if ok then []
    else [(chatId, AllClaimed, delivered bot' (sends w1) chatId AllClaimed)].
Proof.
  intros w1 w2. subst w2 w1. rewrite completeChat_run. cbv zeta. cbn [snd].
  destruct (shouldSendCompletion_zero (clock (ticks w))
              (cleanupInactiveRequests (store w) chatId []) chatId) as [Hask Hflag].
  destruct (shouldSendCompletion (clock (ticks w))
              (cleanupInactiveRequests (store w) chatId []) chatId 0)
    as [[|] d1]; cbn [fst snd] in *.
  - symmetry in Hask. apply negb_true_iff in Hask. rewrite Hask in Hflag.
    destruct (bot (sends w) chatId AllClaimed) as [e|].
    + unfold newMessages at 1. cbn [outbox]. rewrite drop_app_length.
      intros [= <-]. rewrite completeChat_run. cbv zeta. cbn [snd store ticks sends].
      destruct (shouldSendCompletion_zero (clock (S (ticks w)))
                  (cleanupInactiveRequests d1 chatId []) chatId) as [Hask' _].
      change (completionStatus (cleanupInactiveRequests d1 chatId []))
        with (completionStatus d1) in Hask'.
      rewrite Hflag in Hask'. rewrite Hask'. cbn [negb].
      unfold newMessages, delivered.
      destruct (bot' (S (sends w)) chatId AllClaimed);
        cbn [outbox]; by rewrite drop_app_length.
    + unfold newMessages at 1. cbn [outbox]. rewrite drop_app_length.
      intros [= <-]. rewrite completeChat_run. cbv zeta. cbn [snd store ticks sends].
      destruct (shouldSendCompletion_zero (clock (S (S (ticks w))))
                  (cleanupInactiveRequests
                     (markCompletionSent (clock (S (ticks w))) d1 chatId) chatId [])
                  chatId) as [Hask' _].
      change (completionStatus
                (cleanupInactiveRequests
                   (markCompletionSent (clock (S (ticks w))) d1 chatId) chatId []))
        with (<[chatId := mkStatus true
                            match completionStatus d1 !! chatId with
                            | Some status => lastRequestCount status
                            | None => 0
                            end (clock (S (ticks w)))]> (completionStatus d1))
        in Hask'.
      rewrite lookup_insert_eq in Hask'. rewrite Hask'. cbn [negb completionSent].
      unfold newMessages. cbn [outbox]. by rewrite drop_all.
  - unfold newMessages at 1. cbn [outbox]. by rewrite drop_all.
Qed.

Lemma completion_message_retried_until_delivered_witness :
  let w1 := (completeChat Demo.clock Demo.blockedBot 42 Demo.world).2 in
  let w2 := (completeChat Demo.clock (λ _ _ _, None) 42 w1).2 in
  newMessages w1 w2
  = if false then []
    else [(42, AllClaimed, delivered (λ _ _ _, None) (sends w1) 42 AllClaimed)].
Proof.
  apply (completion_message_retried_until_delivered
           Demo.clock Demo.blockedBot (λ _ _ _, None) 42 Demo.world false).
  vm_compute. reflexivity.
Defined.

End PollerFacts.
